(** * Small-scale quantum simulation behind the tutorial notebooks

    The notebooks of the repository build small circuits, evaluate
    expectation values on a state-vector or density-matrix simulator, draw
    photon-number samples and run gradient descent on gate parameters.
    This development embeds

    - the simulator core the notebooks rely on (state, gate and channel
      application, observable evaluation, sampling, parameter-shift
      gradient and gradient-descent step), and
    - the circuits of basic_qubit_rotation.ipynb, noisy_circuits.ipynb,
      the JAX tutorial, Demo-Simple-Circuit.ipynb and plugins_hybrid.ipynb,
    - the processing of samples in the notebook on remote jobs and the
      training loop of state_preparation.ipynb,

    over the real numbers of the Standard Library: amplitudes are pairs of
    reals, so the statements are exact identities and enclosures; the
    rounding of machine floats is outside the model. *)

From Stdlib Require Import String.
From Stdlib Require Import Reals Lra Lia List Bool Arith Psatz Factorial.
Import ListNotations.

Local Open Scope R_scope.

(* ================================================================== *)
(** * Complex amplitudes *)
(* ================================================================== *)

Definition C : Type := (R * R)%type.

Definition Cre (z : C) : R := fst z.
Definition Cim (z : C) : R := snd z.
Definition RtoC (x : R) : C := (x, 0).
Definition C0 : C := (0, 0).
Definition C1 : C := (1, 0).
Definition Ci : C := (0, 1).

Definition Cplus (x y : C) : C := (fst x + fst y, snd x + snd y).
Definition Copp (x : C) : C := (- fst x, - snd x).
Definition Cminus (x y : C) : C := Cplus x (Copp y).
Definition Cmult (x y : C) : C :=
  (fst x * fst y - snd x * snd y, fst x * snd y + snd x * fst y).
Definition Cconj (x : C) : C := (fst x, - snd x).
Definition Cscale (a : R) (x : C) : C := (a * fst x, a * snd x).

Declare Scope C_scope.
Delimit Scope C_scope with C.
Bind Scope C_scope with C.
Notation "x + y" := (Cplus x y) : C_scope.
Notation "x - y" := (Cminus x y) : C_scope.
Notation "x * y" := (Cmult x y) : C_scope.
Notation "- x" := (Copp x) : C_scope.

(** Sum of [f 0 .. f (n-1)]. *)
Fixpoint Csum (f : nat -> C) (n : nat) : C :=
  match n with
  | O => C0
  | S m => Cplus (Csum f m) (f m)
  end.

(* ================================================================== *)
(** * Errors *)
(* ================================================================== *)

(** The error kinds of the simulator, and [IndexError] for Python's
    out-of-range subscript [params[i]]. *)
Inductive Error : Type :=
| DimensionError
| ModeError
| NonHermitianError
| NumericalDivergenceError
| NormalizationError
| IndexError.

Inductive Result (A : Type) : Type :=
| Ok (a : A)
| Err (e : Error).
Arguments Ok {A} a.
Arguments Err {A} e.

Definition bind {A B : Type} (r : Result A) (k : A -> Result B) : Result B :=
  match r with
  | Ok a => k a
  | Err e => Err e
  end.

Notation "x <- r ;; k" := (bind r (fun x => k))
  (at level 61, r at next level, right associativity).

Fixpoint mapM {A B : Type} (f : A -> Result B) (l : list A) : Result (list B) :=
  match l with
  | [] => Ok []
  | a :: r => b <- f a ;; bs <- mapM f r ;; Ok (b :: bs)
  end.

(* ================================================================== *)
(** * Basis indices and qubit positions *)
(* ================================================================== *)

(** Basis state [i] of an [n]-qubit register is the bit string of [i],
    wire 0 being the most significant bit. *)
Fixpoint bits_le (n i : nat) : list bool :=
  match n with
  | O => []
  | S m => Nat.odd i :: bits_le m (Nat.div2 i)
  end.

Fixpoint of_bits_le (b : list bool) : nat :=
  match b with
  | [] => O
  | x :: r => ((if x then 1 else 0) + 2 * of_bits_le r)%nat
  end.

Definition to_bits (n i : nat) : list bool := rev (bits_le n i).
Definition of_bits (b : list bool) : nat := of_bits_le (rev b).

Fixpoint set_nth {A : Type} (k : nat) (v : A) (l : list A) : list A :=
  match l, k with
  | [], _ => []
  | _ :: r, O => v :: r
  | a :: r, S k' => a :: set_nth k' v r
  end.

Definition select_bits (b : list bool) (idxs : list nat) : list bool :=
  map (fun w => nth w b false) idxs.

Fixpoint update_bits (b : list bool) (idxs : list nat) (x : list bool)
  : list bool :=
  match idxs, x with
  | w :: ws, v :: vs => update_bits (set_nth w v b) ws vs
  | _, _ => b
  end.

(** The row of the local operator that basis state [i] selects: the bits of
    [i] at the wires [idxs]. *)
Definition local_index (n : nat) (idxs : list nat) (i : nat) : nat :=
  of_bits (select_bits (to_bits n i) idxs).

(** Basis state [i] with the bits at the wires [idxs] replaced by those of
    the local index [j]. *)
Definition with_local (n : nat) (idxs : list nat) (i j : nat) : nat :=
  of_bits (update_bits (to_bits n i) idxs (to_bits (length idxs) j)).

(* ================================================================== *)
(** * Data model *)
(* ================================================================== *)

Definition Matrix : Type := list (list C).

Definition entry (m : Matrix) (a b : nat) : C := nth b (nth a m []) C0.

Definition build_matrix (d : nat) (f : nat -> nat -> C) : Matrix :=
  map (fun a => map (fun b => f a b) (seq 0 d)) (seq 0 d).

(** Modelled from the spec: the QuantumState of section 3, which the
    notebooks obtain from the library devices: a complex vector of length
    [2^N] (pure-state amplitudes) or a [2^N x 2^N] complex matrix (density
    matrix). *)
Inductive QuantumState : Type :=
| PureState (n : nat) (amps : list C)
| MixedState (n : nat) (rho : Matrix).

Definition num_qubits (st : QuantumState) : nat :=
  match st with
  | PureState n _ => n
  | MixedState n _ => n
  end.

(** Shape of a state: the lengths the data model fixes. *)
Definition well_formed (st : QuantumState) : Prop :=
  match st with
  | PureState n amps => length amps = (2 ^ n)%nat
  | MixedState n rho =>
      length rho = (2 ^ n)%nat /\
      Forall (fun row => length row = (2 ^ n)%nat) rho
  end.

(** Modelled from the spec: a Gate (section 3) is a named operator on a
    fixed number of qubits, given by its local matrix. *)
Record Gate : Type := mkGate {
  gate_name : string;
  gate_arity : nat;
  gate_matrix : Matrix
}.

(** Modelled from the spec: a Channel (section 3) is a set of Kraus
    operators acting on one qubit. *)
Record Channel : Type := mkChannel {
  channel_name : string;
  kraus : list Matrix
}.

(** Modelled from the spec: an Observable (section 3) is a Hermitian matrix
    on the listed wires. *)
Record Observable : Type := mkObservable {
  obs_wires : list nat;
  obs_matrix : Matrix
}.

Definition gate_dim (g : Gate) : nat := (2 ^ gate_arity g)%nat.

(** [U^dagger U = I] on the [2^arity] local basis states. *)
Definition unitary (g : Gate) : Prop :=
  forall a b, (a < gate_dim g)%nat -> (b < gate_dim g)%nat ->
    Csum (fun j => Cmult (Cconj (entry (gate_matrix g) j a))
                         (entry (gate_matrix g) j b)) (gate_dim g)
    = if Nat.eqb a b then C1 else C0.

(** The inverse of a unitary gate: its conjugate transpose. *)
Definition adjoint (g : Gate) : Gate :=
  mkGate (gate_name g) (gate_arity g)
         (build_matrix (gate_dim g)
            (fun a b => Cconj (entry (gate_matrix g) b a))).

(* ================================================================== *)
(** * State engine *)
(* ================================================================== *)

(** The tensor-embedded operator [m] on the wires [idxs], applied to an
    amplitude vector: amplitude [i] of the result is
    [sum_j m[local i, j] * amps[i with local bits j]].  This is the product
    with the matrix [embed] below ([apply_matrix_embed]). *)
Definition apply_matrix (n : nat) (m : Matrix) (idxs : list nat)
  (amps : list C) : list C :=
  map (fun i =>
         Csum (fun j => Cmult (entry m (local_index n idxs i) j)
                              (nth (with_local n idxs i j) amps C0))
              (2 ^ length idxs))
      (seq 0 (2 ^ n)).

(** Left product [M rho] with the embedded operator. *)
Definition left_apply (n : nat) (m : Matrix) (idxs : list nat)
  (rho : Matrix) : Matrix :=
  build_matrix (2 ^ n) (fun r c =>
    Csum (fun x => Cmult (entry m (local_index n idxs r) x)
                         (entry rho (with_local n idxs r x) c))
         (2 ^ length idxs)).

(** Right product [rho M^dagger] with the embedded operator. *)
Definition right_apply_adj (n : nat) (m : Matrix) (idxs : list nat)
  (rho : Matrix) : Matrix :=
  build_matrix (2 ^ n) (fun r c =>
    Csum (fun y => Cmult (entry rho r (with_local n idxs c y))
                         (Cconj (entry m (local_index n idxs c) y)))
         (2 ^ length idxs)).

(** [M rho M^dagger], the product with [embed] and its [dagger]
    ([conjugate_by_embed]). *)
Definition conjugate_by (n : nat) (m : Matrix) (idxs : list nat)
  (rho : Matrix) : Matrix :=
  right_apply_adj n m idxs (left_apply n m idxs rho).

(** The tensor-embedded operator itself, as a [2^n x 2^n] matrix: the
    local matrix on the wires [idxs], the identity on the untouched
    qubits. *)
Definition embed (n : nat) (m : Matrix) (idxs : list nat) : Matrix :=
  build_matrix (2 ^ n) (fun r c =>
    if (with_local n idxs r (local_index n idxs c) =? c)%nat
    then entry m (local_index n idxs r) (local_index n idxs c)
    else C0).

Definition mat_vec (d : nat) (a : Matrix) (v : list C) : list C :=
  map (fun r => Csum (fun c => Cmult (entry a r c) (nth c v C0)) d) (seq 0 d).

Definition mat_mul (d : nat) (a b : Matrix) : Matrix :=
  build_matrix d (fun r c =>
    Csum (fun k => Cmult (entry a r k) (entry b k c)) d).

Definition dagger (d : nat) (a : Matrix) : Matrix :=
  build_matrix d (fun r c => Cconj (entry a c r)).

Definition matrix_add (a b : Matrix) : Matrix :=
  map (fun rows => map (fun xy => Cplus (fst xy) (snd xy))
                       (combine (fst rows) (snd rows)))
      (combine a b).

Definition zero_matrix (d : nat) : Matrix := build_matrix d (fun _ _ => C0).

Definition bad_wires (n arity : nat) (idxs : list nat) : bool :=
  negb (length idxs =? arity)%nat || existsb (fun w => (n <=? w)%nat) idxs.

(** Modelled from the spec: [apply_gate(state, gate, qubit_indices)] of
    section 4.1, the engine behind the library devices the notebooks call.
    It left-multiplies an amplitude vector by the tensor-embedded unitary
    and conjugates a density matrix by it; it fails with [DimensionError]
    when the number of indices is not the gate's arity or an index is not
    below [N]. *)
Definition apply_gate (st : QuantumState) (g : Gate) (idxs : list nat)
  : Result QuantumState :=
  if bad_wires (num_qubits st) (gate_arity g) idxs then Err DimensionError
  else
    match st with
    | PureState n amps =>
        Ok (PureState n (apply_matrix n (gate_matrix g) idxs amps))
    | MixedState n rho =>
        Ok (MixedState n (conjugate_by n (gate_matrix g) idxs rho))
    end.

(** Modelled from the spec: [apply_channel(state, channel, qubit_index)]
    of section 4.1: [rho' = sum_i K_i rho K_i^dagger] on a density matrix,
    [ModeError] on a pure state. *)
Definition apply_channel (st : QuantumState) (ch : Channel) (idx : nat)
  : Result QuantumState :=
  match st with
  | PureState _ _ => Err ModeError
  | MixedState n rho =>
      if bad_wires n 1 [idx] then Err DimensionError
      else
        Ok (MixedState n
              (fold_left (fun acc k => matrix_add acc (conjugate_by n k [idx] rho))
                         (kraus ch) (zero_matrix (2 ^ n))))
  end.

(** All-zero initial states. *)
Definition zero_state (n : nat) : QuantumState :=
  PureState n (map (fun i => if (i =? 0)%nat then C1 else C0) (seq 0 (2 ^ n))).

Definition zero_density (n : nat) : QuantumState :=
  MixedState n (build_matrix (2 ^ n)
                  (fun r c => if ((r =? 0) && (c =? 0))%nat%bool then C1 else C0)).

(* ================================================================== *)
(** * Observable evaluator *)
(* ================================================================== *)

Definition inner (a b : list C) : C :=
  fold_right Cplus C0 (map (fun xy => Cmult (Cconj (fst xy)) (snd xy))
                           (combine a b)).

Definition trace (d : nat) (m : Matrix) : C := Csum (fun i => entry m i i) d.

(** [<psi|O|psi>] or [Tr(O rho)] before the real part is taken. *)
Definition raw_expectation (st : QuantumState) (o : Observable) : C :=
  match st with
  | PureState n amps =>
      inner amps (apply_matrix n (obs_matrix o) (obs_wires o) amps)
  | MixedState n rho =>
      trace (2 ^ n) (left_apply n (obs_matrix o) (obs_wires o) rho)
  end.

Definition imag_tolerance : R := 1 / 1000000000.

(** Modelled from the spec: the observable evaluator of section 4.2.  The
    real part is taken explicitly; an imaginary part above the tolerance is
    a [NonHermitianError]. *)
Definition expval (st : QuantumState) (o : Observable) : Result R :=
  if existsb (fun w => (num_qubits st <=? w)%nat) (obs_wires o)
  then Err DimensionError
  else
    let v := raw_expectation st o in
    if Rle_dec (Rabs (Cim v)) imag_tolerance then Ok (Cre v)
    else Err NonHermitianError.

(** Kronecker product of two local matrices of sizes [da] and [db]: the
    observable [A @ B] on the wires of [A] followed by those of [B]. *)
Definition kron (da db : nat) (a b : Matrix) : Matrix :=
  build_matrix (da * db) (fun r c =>
    Cmult (entry a (r / db) (c / db)) (entry b (r mod db) (c mod db))).

Definition obs_tensor (a b : Observable) : Observable :=
  mkObservable (obs_wires a ++ obs_wires b)
    (kron (2 ^ length (obs_wires a)) (2 ^ length (obs_wires b))
          (obs_matrix a) (obs_matrix b)).

(* ================================================================== *)
(** * Circuits and their evaluation *)
(* ================================================================== *)

(** A Circuit is an ordered sequence of gate and channel applications. *)
Inductive Operation : Type :=
| GateOp (g : Gate) (wires : list nat)
| ChannelOp (ch : Channel) (wire : nat).

Definition apply_operation (st : QuantumState) (op : Operation)
  : Result QuantumState :=
  match op with
  | GateOp g wires => apply_gate st g wires
  | ChannelOp ch wire => apply_channel st ch wire
  end.

Fixpoint run_circuit (st : QuantumState) (ops : list Operation)
  : Result QuantumState :=
  match ops with
  | [] => Ok st
  | op :: rest => st' <- apply_operation st op ;; run_circuit st' rest
  end.

(** A device fixes the number of wires and the representation:
    ["default.qubit"] keeps amplitudes, ["default.mixed"] a density
    matrix. *)
Record Device : Type := mkDevice {
  device_name : string;
  device_wires : nat;
  device_mixed : bool
}.

Definition device (name : string) (wires : nat) : Device :=
  mkDevice name wires (String.eqb name "default.mixed").

Definition initial_state (dev : Device) : QuantumState :=
  if device_mixed dev then zero_density (device_wires dev)
  else zero_state (device_wires dev).

(** Modelled from the spec: [evaluate(circuit, observable)] of section 6,
    which is what calling a QNode does: a fresh all-zero state, the
    operations in order, then the expectation value. *)
Definition evaluate (dev : Device) (ops : list Operation) (o : Observable)
  : Result R :=
  st <- run_circuit (initial_state dev) ops ;;
  expval st o.

(* ================================================================== *)
(** * Operations of the library, as the notebooks name them *)
(* ================================================================== *)

(** [RX] and [RY] as basic_qubit_rotation.ipynb writes them:
    [[cos(phi/2), -i sin(phi/2)], [-i sin(phi/2), cos(phi/2)]] and
    [[cos(phi/2), -sin(phi/2)], [sin(phi/2), cos(phi/2)]]. *)
Definition RX (phi : R) : Gate :=
  mkGate "RX" 1
    [[ (cos (phi / 2), 0); (0, - sin (phi / 2)) ];
     [ (0, - sin (phi / 2)); (cos (phi / 2), 0) ]].

Definition RY (phi : R) : Gate :=
  mkGate "RY" 1
    [[ (cos (phi / 2), 0); (- sin (phi / 2), 0) ];
     [ (sin (phi / 2), 0); (cos (phi / 2), 0) ]].

(** The Pauli matrices, [sigma_z] as in basic_qubit_rotation.ipynb and
    [sigma_x] as in the bit-flip Kraus operator of noisy_circuits.ipynb. *)
Definition sigma_z : Matrix := [[C1; C0]; [C0; Copp C1]].
Definition sigma_x : Matrix := [[C0; C1]; [C1; C0]].
Definition identity2 : Matrix := [[C1; C0]; [C0; C1]].

Definition PauliZ (wire : nat) : Observable := mkObservable [wire] sigma_z.

(** Modelled from the spec: the library's Hadamard and CNOT gates, which
    the notebooks only name, in the standard textbook form section 9
    assumes (CNOT with the control on its first wire). *)
Definition Hadamard : Gate :=
  mkGate "Hadamard" 1
    [[ (/ sqrt 2, 0); (/ sqrt 2, 0) ];
     [ (/ sqrt 2, 0); (- / sqrt 2, 0) ]].

Definition CNOT : Gate :=
  mkGate "CNOT" 2
    [[C1; C0; C0; C0];
     [C0; C1; C0; C0];
     [C0; C0; C0; C1];
     [C0; C0; C1; C0]].

Definition scale_matrix (a : R) (m : Matrix) : Matrix :=
  map (map (Cscale a)) m.

(** The bit-flip channel with the Kraus operators of noisy_circuits.ipynb:
    [K0 = sqrt(1-p) I] and [K1 = sqrt(p) X]. *)
Definition BitFlip (p : R) : Channel :=
  mkChannel "BitFlip"
    [scale_matrix (sqrt (1 - p)) identity2; scale_matrix (sqrt p) sigma_x].

(** [sigma_y] as in the Kraus operator [K2] of the depolarizing channel in
    noisy_circuits.ipynb and in [Paulis[1]] of state_preparation.ipynb. *)
Definition sigma_y : Matrix := [[C0; Copp Ci]; [Ci; C0]].

(** The depolarizing channel with the Kraus operators of
    noisy_circuits.ipynb: [K0 = sqrt(1-p) I], [K1 = sqrt(p/3) X],
    [K2 = sqrt(p/3) Y] and [K3 = sqrt(p/3) Z]. *)
Definition DepolarizingChannel (p : R) : Channel :=
  mkChannel "DepolarizingChannel"
    [scale_matrix (sqrt (1 - p)) identity2;
     scale_matrix (sqrt (p / 3)) sigma_x;
     scale_matrix (sqrt (p / 3)) sigma_y;
     scale_matrix (sqrt (p / 3)) sigma_z].

(** Amplitude damping with the Kraus operators of noisy_circuits.ipynb:
    [K0 = [[1, 0], [0, sqrt(1-p)]]] and [K1 = [[0, sqrt(p)], [0, 0]]]. *)
Definition AmplitudeDamping (p : R) : Channel :=
  mkChannel "AmplitudeDamping"
    [[[C1; C0]; [C0; RtoC (sqrt (1 - p))]];
     [[C0; RtoC (sqrt p)]; [C0; C0]]].

(** The condition noisy_circuits.ipynb puts on Kraus operators:
    [sum_i K_i^dagger K_i], to be compared with the identity. *)
Definition kraus_sum (ks : list Matrix) : Matrix :=
  fold_left (fun acc k => matrix_add acc (mat_mul 2 (dagger 2 k) k))
            ks (zero_matrix 2).

(* ================================================================== *)
(** * Gradient-based optimizer *)
(* ================================================================== *)

(** Python's [params[i]]. *)
Definition index {A : Type} (l : list A) (i : nat) : Result A :=
  match nth_error l i with
  | Some a => Ok a
  | None => Err IndexError
  end.

(** [params] with [delta] added to entry [i]. *)
Definition shift_param (params : list R) (i : nat) (delta : R) : list R :=
  set_nth i (nth i params 0 + delta) params.

(** Modelled from the spec: [gradient(cost_fn, params, shift)] of section
    4.4, the explicit form of the library's [grad]: for each parameter the
    cost at the parameter shifted by [+shift] and by [-shift], combined as
    [(cost(params+) - cost(params-)) / (2 sin(shift))]. *)
Definition gradient (cost_fn : list R -> Result R) (params : list R)
  (shift : R) : Result (list R) :=
  mapM (fun i =>
          cp <- cost_fn (shift_param params i shift) ;;
          cm <- cost_fn (shift_param params i (- shift)) ;;
          Ok ((cp - cm) / (2 * sin shift)))
       (seq 0 (length params)).

(** Modelled from the spec: the finite-difference form of section 4.4:
    the cost at [params[i] + eps] and [params[i] - eps], combined as
    [(cost(params+) - cost(params-)) / (2 eps)]. *)
Definition finite_difference (cost_fn : list R -> Result R) (params : list R)
  (eps : R) : Result (list R) :=
  mapM (fun i =>
          cp <- cost_fn (shift_param params i eps) ;;
          cm <- cost_fn (shift_param params i (- eps)) ;;
          Ok ((cp - cm) / (2 * eps)))
       (seq 0 (length params)).

(** Modelled from the spec: [step(cost_fn, params, learning_rate)] of
    section 4.4, the library's [GradientDescentOptimizer.step]:
    [params - learning_rate * gradient(cost_fn, params)]. *)
Definition step (cost_fn : list R -> Result R) (params : list R)
  (learning_rate : R) : Result (list R) :=
  g <- gradient cost_fn params (PI / 2) ;;
  Ok (map (fun pg => fst pg - learning_rate * snd pg) (combine params g)).

(* ================================================================== *)
(** * basic_qubit_rotation.ipynb *)
(* ================================================================== *)

Module QubitRotation.

Definition dev1 : Device := device "default.qubit" 1.

(** [def circuit(params): qml.RX(params[0], wires=0);
     qml.RY(params[1], wires=0); return qml.expval(qml.PauliZ(0))] *)
Definition circuit (params : list R) : Result R :=
  p0 <- index params 0 ;;
  p1 <- index params 1 ;;
  evaluate dev1 [GateOp (RX p0) [0%nat]; GateOp (RY p1) [0%nat]] (PauliZ 0).

(** [dcircuit = qml.grad(circuit, argnum=0)] *)
Definition dcircuit (params : list R) : Result (list R) :=
  gradient circuit params (PI / 2).

(** [def cost(x): return circuit(x)] *)
Definition cost (x : list R) : Result R := circuit x.

(** [init_params = np.array([0.011, 0.012])] *)
Definition init_params : list R := [11 / 1000; 12 / 1000].

(** [opt = qml.GradientDescentOptimizer(stepsize=0.4)] *)
Definition stepsize : R := 4 / 10.

(** [for i in range(steps): params = opt.step(cost, params)] *)
Fixpoint optimize (steps : nat) (params : list R) : Result (list R) :=
  match steps with
  | O => Ok params
  | S k => params' <- step cost params stepsize ;; optimize k params'
  end.

(** Modelled from the spec: the cost of the optimization scenario of
    section 8, [(circuit_expectation(params) - (-1))^2]; the notebook's
    [cost] is the expectation value itself. *)
Definition squared_cost (params : list R) : Result R :=
  e <- circuit params ;; Ok ((e - (-1)) ^ 2).


(** [def circuit2(phi1, phi2): qml.RX(phi1, wires=0);
     qml.RY(phi2, wires=0); return qml.expval(qml.PauliZ(0))] *)
Definition circuit2 (phi1 phi2 : R) : Result R :=
  evaluate dev1 [GateOp (RX phi1) [0%nat]; GateOp (RY phi2) [0%nat]] (PauliZ 0).

(** [dcircuit = qml.grad(circuit2, argnum=[0, 1])], which rebinds the name
    [dcircuit] in the notebook: the pair of the two partial derivatives. *)
Definition dcircuit2 (phi1 phi2 : R) : Result (R * R) :=
  g <- gradient (fun ps => a <- index ps 0 ;; b <- index ps 1 ;; circuit2 a b)
                [phi1; phi2] (PI / 2) ;;
  g0 <- index g 0 ;;
  g1 <- index g 1 ;;
  Ok (g0, g1).

End QubitRotation.

(* ================================================================== *)
(** * noisy_circuits.ipynb *)
(* ================================================================== *)

Module NoisyCircuits.

Definition dev : Device := device "default.mixed" 2.

Definition ZZ : Observable := obs_tensor (PauliZ 0) (PauliZ 1).

(** [def circuit(): qml.Hadamard(wires=0); qml.CNOT(wires=[0, 1]);
     return qml.expval(qml.PauliZ(0) @ qml.PauliZ(1))] *)
Definition bell_ops : list Operation :=
  [GateOp Hadamard [0%nat]; GateOp CNOT [0%nat; 1%nat]].

Definition circuit : Result R := evaluate dev bell_ops ZZ.

(** The same circuit on the pure-state device. *)
Definition circuit_on (d : Device) : Result R := evaluate d bell_ops ZZ.

(** [def bitflip_circuit(p): ... qml.BitFlip(p, wires=0);
     qml.BitFlip(p, wires=1); return qml.expval(PauliZ(0) @ PauliZ(1))] *)
Definition bitflip_circuit (p : R) : Result R :=
  evaluate dev
    (bell_ops ++ [ChannelOp (BitFlip p) 0; ChannelOp (BitFlip p) 1]) ZZ.

(** [def depolarizing_circuit(p): ... qml.DepolarizingChannel(p, wires=0);
     qml.DepolarizingChannel(p, wires=1);
     return qml.expval(qml.PauliZ(0) @ qml.PauliZ(1))] *)
Definition depolarizing_circuit (p : R) : Result R :=
  evaluate dev
    (bell_ops ++ [ChannelOp (DepolarizingChannel p) 0;
                  ChannelOp (DepolarizingChannel p) 1]) ZZ.

(** [ev = np.tensor(0.7781, requires_grad=False)] *)
Definition ev : R := 7781 / 10000.

(** [def sigmoid(x): return 1/(1+np.exp(-x))] *)
Definition sigmoid (x : R) : R := 1 / (1 + exp (- x)).

(** [def damping_circuit(x): ... qml.AmplitudeDamping(sigmoid(x), wires=0);
     qml.AmplitudeDamping(sigmoid(x), wires=1);
     return qml.expval(qml.PauliZ(0) @ qml.PauliZ(1))] *)
Definition damping_circuit (x : R) : Result R :=
  evaluate dev
    (bell_ops ++ [ChannelOp (AmplitudeDamping (sigmoid x)) 0;
                  ChannelOp (AmplitudeDamping (sigmoid x)) 1]) ZZ.

(** [def cost(x, target): return (damping_circuit(x) - target)**2] *)
Definition cost (x target : R) : Result R :=
  e <- damping_circuit x ;; Ok ((e - target) ^ 2).

End NoisyCircuits.

(* ================================================================== *)
(** * Using JAX with PennyLane *)
(* ================================================================== *)

Module JaxTutorial.

Definition dev : Device := device "default.qubit" 2.

(** [def circuit(param): qml.RX(param, wires=0); qml.CNOT(wires=[0, 1]);
     return qml.expval(qml.PauliZ(0))] *)
Definition circuit (param : R) : Result R :=
  evaluate dev [GateOp (RX param) [0%nat]; GateOp CNOT [0%nat; 1%nat]]
           (PauliZ 0).

(** The same circuit without the CNOT. *)
Definition rotation_only (param : R) : Result R :=
  evaluate dev [GateOp (RX param) [0%nat]] (PauliZ 0).

(** [grad_circuit = jax.grad(circuit)] *)
Definition grad_circuit (param : R) : Result R :=
  g <- gradient (fun ps => p <- index ps 0 ;; circuit p) [param] (PI / 2) ;;
  index g 0.

(** [for _ in range(100): param -= grad_circuit(param)] *)
Fixpoint tune (steps : nat) (param : R) : Result R :=
  match steps with
  | O => Ok param
  | S k => g <- grad_circuit param ;; tune k (param - g)
  end.

(** [vcircuit = jax.vmap(circuit)]: the circuit on every entry of a batch,
    in order. *)
Definition vcircuit (params : list R) : Result (list R) := mapM circuit params.

(** [batch_params = jnp.array([1.02, 0.123, -0.571])] *)
Definition batch_params : list R := [102 / 100; 123 / 1000; - (571 / 1000)].

(** [weights = jnp.exp(-costs)] *)
Definition weights (costs : list R) : list R := map (fun c => exp (- c)) costs.

(** [jnp.average(params, weights=weights)]:
    [sum(params * weights) / sum(weights)]. *)
Definition average (params ws : list R) : R :=
  fold_right Rplus 0 (map (fun pw => fst pw * snd pw) (combine params ws))
  / fold_right Rplus 0 ws.

(** One update of the mean in the evolutionary-strategies loop:
    [costs = vcircuit(params); weights = jnp.exp(-costs);
     mean = jnp.average(params, weights=weights)]. *)
Definition es_mean (params : list R) : Result R :=
  costs <- vcircuit params ;; Ok (average params (weights costs)).

End JaxTutorial.

(* ================================================================== *)
(** * Photon-number states and sampling *)
(* ================================================================== *)

(** An outcome vector: one photon number per mode. *)
Definition Occupation : Type := list nat.

Definition total_photons (occ : Occupation) : nat := fold_right Nat.add O occ.

(** All outcome vectors of [modes] modes with photon numbers below the
    cutoff, in the order of the flattened state array. *)
Fixpoint occupations (cutoff modes : nat) : list Occupation :=
  match modes with
  | O => [[]]
  | S m => flat_map (fun n => map (cons n) (occupations cutoff m))
                    (seq 0 cutoff)
  end.

(** Modelled from the spec: the state of Fock-truncated modes (glossary,
    section 3), which the notebook obtains from the library's Fock
    backend: one amplitude per outcome vector. *)
Definition FockState : Type := Occupation -> C.

Definition vacuum : FockState :=
  fun occ => if forallb (Nat.eqb 0) occ then C1 else C0.

(** Modelled from the spec: a gate on modes is a named operator on a fixed
    number of modes (section 3), given by its matrix elements
    [<out| U |in>] between outcome vectors of those modes. *)
Record ModeGate : Type := mkModeGate {
  mode_gate_name : string;
  mode_gate_arity : nat;
  kernel : Occupation -> Occupation -> C
}.

Definition select_modes (occ : Occupation) (idxs : list nat) : Occupation :=
  map (fun w => nth w occ O) idxs.

Fixpoint update_modes (occ : Occupation) (idxs : list nat) (x : Occupation)
  : Occupation :=
  match idxs, x with
  | w :: ws, v :: vs => update_modes (set_nth w v occ) ws vs
  | _, _ => occ
  end.

Definition Clist_sum (l : list C) : C := fold_right Cplus C0 l.

(** The operator embedded on the modes [idxs], as [apply_matrix] does for
    qubits. *)
Definition apply_kernel (cutoff : nat) (g : ModeGate) (idxs : list nat)
  (psi : FockState) : FockState :=
  fun occ =>
    Clist_sum
      (map (fun x => Cmult (kernel g (select_modes occ idxs) x)
                           (psi (update_modes occ idxs x)))
           (occupations cutoff (length idxs))).

(** [Fock(n) | q[mode]] on a mode that is still in the vacuum. *)
Definition prepare_fock (n mode : nat) (psi : FockState) : FockState :=
  fun occ =>
    if Nat.eqb (nth mode occ O) n then psi (set_nth mode O occ) else C0.

Inductive ModeOperation : Type :=
| FockPrep (n : nat) (mode : nat)
| ModeGateOp (g : ModeGate) (modes : list nat).

(** [sf.Engine("fock", backend_options={"cutoff_dim": ...})] for a program
    on [engine_modes] modes. *)
Record Engine : Type := mkEngine {
  engine_modes : nat;
  cutoff_dim : nat
}.

Definition apply_mode_operation (eng : Engine) (psi : FockState)
  (op : ModeOperation) : Result FockState :=
  match op with
  | FockPrep n mode =>
      if (engine_modes eng <=? mode)%nat then Err DimensionError
      else Ok (prepare_fock n mode psi)
  | ModeGateOp g idxs =>
      if bad_wires (engine_modes eng) (mode_gate_arity g) idxs
      then Err DimensionError
      else Ok (apply_kernel (cutoff_dim eng) g idxs psi)
  end.

Fixpoint run_program (eng : Engine) (psi : FockState)
  (ops : list ModeOperation) : Result FockState :=
  match ops with
  | [] => Ok psi
  | op :: rest =>
      psi' <- apply_mode_operation eng psi op ;; run_program eng psi' rest
  end.

(** Photons put in by the preparations of a program. *)
Fixpoint photons_prepared (ops : list ModeOperation) : nat :=
  match ops with
  | [] => O
  | FockPrep n _ :: rest => (n + photons_prepared rest)%nat
  | ModeGateOp _ _ :: rest => photons_prepared rest
  end.

Definition Cnorm2 (z : C) : R := fst z * fst z + snd z * snd z.

(** [|amplitude|^2] for every outcome vector. *)
Definition probabilities (eng : Engine) (psi : FockState) : list R :=
  map (fun occ => Cnorm2 (psi occ))
      (occupations (cutoff_dim eng) (engine_modes eng)).

(** The first index at which the cumulative probability exceeds [u]. *)
Fixpoint pick (ps : list R) (u : R) : option nat :=
  match ps with
  | [] => None
  | p :: rest =>
      if Rlt_dec u p then Some O else option_map S (pick rest (u - p))
  end.

Section Sampler.

(** The pseudo-random generator is a parameter: [uniform seed k] is the
    [k]-th variate drawn from [seed]. *)
Variable uniform : nat -> nat -> R.

Definition sample_shot (eng : Engine) (psi : FockState) (rng_seed k : nat)
  : Result Occupation :=
  match pick (probabilities eng psi) (uniform rng_seed k) with
  | Some i => index (occupations (cutoff_dim eng) (engine_modes eng)) i
  | None => Err NormalizationError
  end.

(** Modelled from the spec: [sample(state, num_shots, rng_seed)] of section
    4.3: an ordered sequence of [num_shots] outcome vectors drawn from the
    distribution [|amplitude|^2], from a caller-supplied seed. *)
Definition sample (eng : Engine) (psi : FockState) (num_shots rng_seed : nat)
  : Result (list Occupation) :=
  mapM (sample_shot eng psi rng_seed) (seq 0 num_shots).

End Sampler.

(** A gate conserves the photon number when its matrix elements between
    outcome vectors of different totals vanish. *)
Definition number_preserving (g : ModeGate) : Prop :=
  forall out inp, total_photons out <> total_photons inp ->
                  kernel g out inp = C0.

(** The state has no amplitude outside the sector of [n] photons. *)
Definition in_sector (modes n : nat) (psi : FockState) : Prop :=
  forall occ, length occ = modes -> total_photons occ <> n -> psi occ = C0.

Definition normalized (eng : Engine) (psi : FockState) : Prop :=
  fold_right Rplus 0 (probabilities eng psi) = 1.

(** [qml.expval(qml.NumberOperator(mode))] on Fock-truncated modes: the
    number operator multiplies the amplitude of an outcome vector by the
    photon number of the mode (plugins_hybrid.ipynb), so its expectation is
    the sum of [occ[mode] * |amplitude(occ)|^2]. *)
Definition mean_photon (eng : Engine) (psi : FockState) (mode : nat) : R :=
  fold_right Rplus 0
    (map (fun occ => INR (nth mode occ O) * Cnorm2 (psi occ))
         (occupations (cutoff_dim eng) (engine_modes eng))).

(* ================================================================== *)
(** * Demo-Simple-Circuit.ipynb *)
(* ================================================================== *)

Module SimpleCircuit.

(** [eng = sf.Engine("fock", backend_options={"cutoff_dim": 8})] for
    [prog = sf.Program(2)]. *)
Definition eng : Engine := mkEngine 2 8.

(** [ops.Fock(5) | q[0]; ops.Fock(1) | q[1]; ops.BSgate() | q], the
    beamsplitter of the library being a parameter. *)
Definition prog (BSgate : ModeGate) : list ModeOperation :=
  [FockPrep 5 0; FockPrep 1 1; ModeGateOp BSgate [0%nat; 1%nat]].

(** The beamsplitter that exchanges the two modes. *)
Definition swap_gate : ModeGate :=
  mkModeGate "BSgate" 2
    (fun out inp =>
       match out, inp with
       | [m; n], [k; l] => if ((m =? l) && (n =? k))%nat%bool then C1 else C0
       | _, _ => C0
       end).

(** The state of the program with [swap_gate] as its beamsplitter. *)
Definition swapped_state : FockState :=
  apply_kernel 8 swap_gate [0%nat; 1%nat]
    (prepare_fock 1 1 (prepare_fock 5 0 vacuum)).

End SimpleCircuit.

(* ================================================================== *)
(** * plugins_hybrid.ipynb *)
(* ================================================================== *)

(** [def photon_redirection(params): qml.FockState(1, wires=0);
     qml.Beamsplitter(params[0], params[1], wires=[0, 1]);
     return qml.expval(qml.NumberOperator(1))], on a Fock device; the
    beamsplitter of the library is a parameter. *)
Definition photon_redirection_on (dev : Engine)
  (Beamsplitter : R -> R -> ModeGate) (params : list R) : Result R :=
  theta <- index params 0 ;;
  phi <- index params 1 ;;
  psi <- run_program dev vacuum
           [FockPrep 1 0;
            ModeGateOp (Beamsplitter theta phi) [0%nat; 1%nat]] ;;
  Ok (mean_photon dev psi 1).

(** The matrix plugins_hybrid.ipynb writes for the beamsplitter on the
    states [|1,0>] and [|0,1>]:
    [[cos(theta), -e^{-i phi} sin(theta)], [e^{i phi} sin(theta), cos(theta)]],
    with the vacuum left alone. *)
Definition one_photon_beamsplitter (theta phi : R) : ModeGate :=
  mkModeGate "Beamsplitter" 2
    (fun out inp =>
       match out, inp with
       | [O; O], [O; O] => C1
       | [1%nat; O], [1%nat; O] => (cos theta, 0)
       | [1%nat; O], [O; 1%nat] => (- (cos phi * sin theta), sin phi * sin theta)
       | [O; 1%nat], [1%nat; O] => (cos phi * sin theta, sin phi * sin theta)
       | [O; 1%nat], [O; 1%nat] => (cos theta, 0)
       | _, _ => C0
       end).

Module PhotonRedirection.

(** [dev_fock = qml.device("strawberryfields.fock", wires=2, cutoff_dim=2)] *)
Definition dev_fock : Engine := mkEngine 2 2.

Definition photon_redirection := photon_redirection_on dev_fock.

(** [def cost(params): return -photon_redirection(params)] *)
Definition cost (Beamsplitter : R -> R -> ModeGate) (params : list R)
  : Result R :=
  r <- photon_redirection Beamsplitter params ;; Ok (- r).

(** [init_params = np.array([0.01, 0.01])] *)
Definition init_params : list R := [1 / 100; 1 / 100].

End PhotonRedirection.

Module HybridComputation.

(** [dev_qubit = qml.device("default.qubit", wires=1)] and
    [dev_fock = qml.device("strawberryfields.fock", wires=2, cutoff_dim=10)] *)
Definition dev_qubit : Device := device "default.qubit" 1.
Definition dev_fock : Engine := mkEngine 2 10.

(** [def qubit_rotation(phi1, phi2): qml.RX(phi1, wires=0);
     qml.RY(phi2, wires=0); return qml.expval(qml.PauliZ(0))] *)
Definition qubit_rotation (phi1 phi2 : R) : Result R :=
  evaluate dev_qubit [GateOp (RX phi1) [0%nat]; GateOp (RY phi2) [0%nat]]
           (PauliZ 0).

Definition photon_redirection := photon_redirection_on dev_fock.

(** [def squared_difference(x, y): return np.abs(x - y) ** 2] *)
Definition squared_difference (x y : R) : R := Rabs (x - y) ^ 2.

(** [def cost(params, phi1=0.5, phi2=0.1):
       qubit_result = qubit_rotation(phi1, phi2);
       photon_result = photon_redirection(params);
       return squared_difference(qubit_result, photon_result)] *)
Definition cost (Beamsplitter : R -> R -> ModeGate) (params : list R)
  (phi1 phi2 : R) : Result R :=
  qubit_result <- qubit_rotation phi1 phi2 ;;
  photon_result <- photon_redirection Beamsplitter params ;;
  Ok (squared_difference qubit_result photon_result).

End HybridComputation.

(* ================================================================== *)
(** * Running jobs on XQC: the processing of the samples *)
(* ================================================================== *)

Module RemoteJobs.

(** [U = np.array([[-0.5349105592386603, ...], ...])], the matrix of both
    interferometers, digit for digit. *)
Definition U : list (list R) :=
  [
    [ - (5349105592386603 / 10 ^ 16);
      8382670887228271 / 10 ^ 16;
      10356058421030308 / 10 ^ 17;
      - (21311662937477004 / 10 ^ 18) ];
    [ - (6795134137271818 / 10 ^ 16);
      - (4999083619063322 / 10 ^ 16);
      5369830827402383 / 10 ^ 16;
      1522863010877817 / 10 ^ 18 ];
    [ - (4295084785810517 / 10 ^ 16);
      - (17320833713971984 / 10 ^ 17);
      - (7062800928050401 / 10 ^ 16);
      5354341876268153 / 10 ^ 16 ];
    [ 2601051345260338 / 10 ^ 16;
      13190447151471643 / 10 ^ 17;
      4495473331653913 / 10 ^ 16;
      8443066531962792 / 10 ^ 16 ] ].

(** The scalar product of two rows of numbers and the column of a
    matrix. *)
Definition dot (a b : list R) : R :=
  fold_right Rplus 0 (map (fun xy => fst xy * snd xy) (combine a b)).

Definition column (m : list (list R)) (j : nat) : list R :=
  map (fun row => nth j row 0) m.

(** One row of [results.samples]: the photons detected in each mode. *)
Definition Sample : Type := list nat.

Fixpoint sample_eqb (a b : Sample) : bool :=
  match a, b with
  | [], [] => true
  | x :: a', y :: b' => (x =? y)%nat && sample_eqb a' b'
  | _, _ => false
  end.

(** The sum of column [j] of the array of samples. *)
Definition column_sum (samples : list Sample) (j : nat) : nat :=
  fold_right Nat.add O (map (fun s => nth j s O) samples).

(** [np.mean(results.samples, axis=0)] on an array with at least one row:
    for each mode, the sum of its column divided by the number of rows. *)
Definition mean_axis0 (samples : list Sample) : list R :=
  map (fun j => INR (column_sum samples j) / INR (length samples))
      (seq 0 (length (hd [] samples))).

(** [bitstrings = [tuple(i) for i in results.samples]]: a tuple holds the
    numbers of its row. *)
Definition bitstrings (samples : list Sample) : list Sample :=
  map (fun i => i) samples.

(** A dict from bitstrings to counts, in insertion order. *)
Definition Dict : Type := list (Sample * nat).

(** One update of a [Counter]: the count of a known key goes up by one in
    place, a new key is inserted last with count one. *)
Fixpoint increment (k : Sample) (d : Dict) : Dict :=
  match d with
  | [] => [(k, 1%nat)]
  | (k', v) :: rest =>
      if sample_eqb k k' then (k', S v) :: rest
      else (k', v) :: increment k rest
  end.

(** [Counter(iterable)] *)
Definition Counter (items : list Sample) : Dict :=
  fold_left (fun d k => increment k d) items [].

(** [counts = {k:v for k, v in Counter(bitstrings).items()}]: a plain
    dict with the items of the counter, in their order. *)
Definition counts (samples : list Sample) : Dict :=
  map (fun kv => (fst kv, snd kv)) (Counter (bitstrings samples)).

(** [d[k]] on a plain dict; [None] stands for Python's [KeyError]. *)
Fixpoint getitem (d : Dict) (k : Sample) : option nat :=
  match d with
  | [] => None
  | (k', v) :: rest => if sample_eqb k k' then Some v else getitem rest k
  end.

(** The number of rows equal to [k]. *)
Definition occurrences (k : Sample) (samples : list Sample) : nat :=
  length (filter (sample_eqb k) samples).

(** The twenty samples the notebook prints for [eng.run(prog, shots=20)]. *)
Definition printed_samples : list Sample :=
  [ [0; 0; 0; 0; 0; 0; 0; 0]; [0; 0; 0; 0; 0; 0; 0; 0];
    [0; 0; 0; 0; 0; 0; 0; 0]; [1; 0; 0; 0; 0; 0; 0; 0];
    [1; 0; 0; 0; 0; 0; 0; 0]; [0; 0; 0; 0; 0; 0; 1; 0];
    [0; 0; 0; 0; 0; 0; 0; 0]; [1; 0; 0; 0; 0; 0; 0; 0];
    [0; 0; 0; 0; 0; 0; 0; 0]; [0; 0; 0; 0; 0; 0; 0; 0];
    [0; 0; 0; 0; 0; 0; 0; 0]; [0; 0; 0; 0; 0; 0; 0; 0];
    [1; 0; 0; 0; 0; 0; 0; 0]; [1; 0; 0; 0; 0; 0; 0; 0];
    [0; 0; 0; 0; 0; 0; 0; 0]; [0; 1; 0; 0; 0; 1; 0; 0];
    [0; 0; 1; 0; 0; 0; 0; 0]; [0; 0; 0; 1; 0; 0; 0; 0];
    [0; 1; 0; 0; 0; 0; 0; 0]; [0; 0; 0; 0; 0; 0; 0; 0] ]%nat.

End RemoteJobs.

(* ================================================================== *)
(** * state_preparation.ipynb *)
(* ================================================================== *)

Module StatePreparation.

(** [purity = 0.66] *)
Definition purity : R := 66 / 100.

(** [np.sum(v ** 2)] *)
Definition sum_squares (v : list R) : R :=
  fold_right Rplus 0 (map (fun x => x ^ 2) v).

(** [bloch_v = np.sqrt(2 * purity - 1) * v / np.sqrt(np.sum(v ** 2))],
    the random vector [v] being a parameter. *)
Definition bloch_v (v : list R) : list R :=
  map (fun x => sqrt (2 * purity - 1) * x / sqrt (sum_squares v)) v.

(** [Paulis[0]], [Paulis[1]] and [Paulis[2]]. *)
Definition Paulis : list Matrix := [sigma_x; sigma_y; sigma_z].

(** The density matrix of a Bloch vector, as the notebook writes it:
    [rho = (1 + a_x sigma_x + a_y sigma_y + a_z sigma_z) / 2]. *)
Definition density (a : list R) : Matrix :=
  scale_matrix (1 / 2)
    (fold_left matrix_add
       (map (fun k => scale_matrix (nth k a 0) (nth k Paulis []))
            (seq 0 3))
       identity2).

(** The purity [Tr(rho^2)] of a one-qubit density matrix. *)
Definition purity_of (rho : Matrix) : C := trace 2 (mat_mul 2 rho rho).

Section Training.

(** The parameters are a tensor; the circuit and the Adam optimizer of the
    library enter through [cost_fn] (the number [cost_fn(params)]) and
    through [adam], the effect of [opt.zero_grad(); loss.backward();
    opt.step()] on the optimizer's own state and on the parameter tensor. *)
Variable Tensor : Type.
Variable cost_fn : Tensor -> R.
Variable OptState : Type.
Variable adam : OptState -> Tensor -> OptState * Tensor.

(** The two objects the names [params] and [best_params] can refer to:
    the parameter tensor, which [opt.step()] updates in place, and the
    array [np.zeros((nr_qubits, nr_layers, 3))]. *)
Inductive Ref : Type := params_object | zeros_object.

Record Heap : Type := mkHeap {
  params_value : Tensor;
  zeros_value : Tensor
}.

Definition deref (h : Heap) (r : Ref) : Tensor :=
  match r with
  | params_object => params_value h
  | zeros_object => zeros_value h
  end.

(** The variables of the loop: the heap, the optimizer, the number
    [best_cost] and the reference [best_params]. *)
Record Loop : Type := mkLoop {
  heap : Heap;
  opt : OptState;
  best_cost : R;
  best_params : Ref
}.

(** [best_cost = cost_fn(params);
     best_params = np.zeros((nr_qubits, nr_layers, 3))] *)
Definition start (params zeros : Tensor) (o : OptState) : Loop :=
  mkLoop (mkHeap params zeros) o (cost_fn params) zeros_object.

(** One pass of the loop body:
    [opt.zero_grad(); loss = cost_fn(params); loss.backward(); opt.step();
     if loss < best_cost: best_cost = loss; best_params = params]. *)
Definition iteration (s : Loop) : Loop :=
  let loss := cost_fn (params_value (heap s)) in
  let updated := adam (opt s) (params_value (heap s)) in
  let h := mkHeap (snd updated) (zeros_value (heap s)) in
  if Rlt_dec loss (best_cost s)
  then mkLoop h (fst updated) loss params_object
  else mkLoop h (fst updated) (best_cost s) (best_params s).

(** [for n in range(steps): ...] *)
Fixpoint train (steps : nat) (s : Loop) : Loop :=
  match steps with
  | O => s
  | S k => train k (iteration s)
  end.

(** What [circuit(best_params, ...)] reads after the loop. *)
Definition output (s : Loop) : Tensor := deref (heap s) (best_params s).

(** The parameter tensor after [k] passes. *)
Definition params_after (k : nat) (s : Loop) : Tensor :=
  params_value (heap (train k s)).

End Training.

End StatePreparation.

(* ================================================================== *)
(** * Predicates of the statements *)
(* ================================================================== *)

(** Wires a gate may act on: distinct and below [n]. *)
Definition valid_wires (n : nat) (idxs : list nat) : Prop :=
  NoDup idxs /\ Forall (fun w => (w < n)%nat) idxs.

(** [V U = I] on the [d] local basis states. *)
Definition left_inverse (d : nat) (v u : Matrix) : Prop :=
  forall a b, (a < d)%nat -> (b < d)%nat ->
    Csum (fun j => Cmult (entry v a j) (entry u j b)) d
    = if Nat.eqb a b then C1 else C0.

(** Two states agree within [tol] when they have the same kind and size
    and every real and imaginary part differs by at most [tol]. *)
Definition amps_within (tol : R) (a b : list C) : Prop :=
  length a = length b /\
  forall i, Rabs (Cre (nth i a C0) - Cre (nth i b C0)) <= tol /\
            Rabs (Cim (nth i a C0) - Cim (nth i b C0)) <= tol.

Definition states_within (tol : R) (s t : QuantumState) : Prop :=
  match s, t with
  | PureState n a, PureState n' b => n = n' /\ amps_within tol a b
  | MixedState n a, MixedState n' b =>
      n = n' /\ length a = length b /\
      forall r, amps_within tol (nth r a []) (nth r b [])
  | _, _ => False
  end.

(** An operation that conserves the photon number of what is already in
    the modes: a Fock preparation of a mode of the register, or a
    number-preserving gate on distinct modes of the register. *)
Definition conserving_op (modes : nat) (op : ModeOperation) : Prop :=
  match op with
  | FockPrep _ mode => (mode < modes)%nat
  | ModeGateOp g idxs =>
      number_preserving g /\ length idxs = mode_gate_arity g /\
      valid_wires modes idxs
  end.

(** The convention of plugins_hybrid.ipynb for the beamsplitter on a single
    photon in the first mode:
    [B(theta, phi)|1,0> = cos(theta)|1,0> + e^{i phi} sin(theta)|0,1>]. *)
Definition redirects_photon (B : R -> R -> ModeGate) : Prop :=
  forall theta phi,
    mode_gate_arity (B theta phi) = 2%nat /\
    forall m n,
      kernel (B theta phi) [m; n] [1%nat; O]
      = match m, n with
        | 1%nat, O => (cos theta, 0)
        | O, 1%nat => (cos phi * sin theta, sin phi * sin theta)
        | _, _ => C0
        end.

(** A channel whose Kraus operators satisfy
    [sum_i K_i^dagger K_i = I], entry by entry. *)
Definition trace_preserving (ch : Channel) : Prop :=
  forall a b, (a < 2)%nat -> (b < 2)%nat ->
    entry (kraus_sum (kraus ch)) a b = entry identity2 a b.

(* ================================================================== *)
(** * The cost as a function of the angle of one rotation gate *)
(* ================================================================== *)

(** The combination [c a + s b] of two amplitude vectors, entry by entry,
    on the first [N] entries. *)
Definition lin (N : nat) (c : C) (a : list C) (s : C) (b : list C) : list C :=
  map (fun i => Cplus (Cmult c (nth i a C0)) (Cmult s (nth i b C0)))
      (seq 0 N).

(** The gates of a circuit on an amplitude vector, without the checks of
    [apply_gate]. *)
Fixpoint run_amps (n : nat) (ops : list Operation) (x : list C) : list C :=
  match ops with
  | [] => x
  | GateOp g ws :: rest =>
      run_amps n rest (apply_matrix n (gate_matrix g) ws x)
  | ChannelOp _ _ :: rest => run_amps n rest x
  end.

(** A one-parameter family of single-qubit rotation gates: the matrix of
    [Rot theta] is [cos(theta/2) I + sin(theta/2) G] for a fixed matrix
    [G], as for [RX] and [RY] in basic_qubit_rotation.ipynb. *)
Definition rotation_family (Rot : R -> Gate) (G : Matrix) : Prop :=
  forall theta,
    gate_arity (Rot theta) = 1%nat /\
    forall a j, (a < 2)%nat -> (j < 2)%nat ->
      entry (gate_matrix (Rot theta)) a j
      = Cplus (Cmult (RtoC (cos (theta / 2))) (entry identity2 a j))
              (Cmult (RtoC (sin (theta / 2))) (entry G a j)).

(** [G] for [RX] and for [RY]: [-i sigma_x] and [-i sigma_y]. *)
Definition RX_generator : Matrix := [[C0; Copp Ci]; [Copp Ci; C0]].
Definition RY_generator : Matrix := [[C0; Copp C1]; [C1; C0]].

(** The expectation-value cost of a circuit as a function of the angle of
    one rotation gate on wire [w], the operations before and after it
    being fixed. *)
Definition rotation_cost (dev : Device) (pre : list Operation)
  (Rot : R -> Gate) (w : nat) (post : list Operation) (o : Observable)
  (t : R) : Result R :=
  evaluate dev (pre ++ GateOp (Rot t) [w] :: post) o.

(** The cost as the optimizer sees it: a function of a list with the one
    angle. *)
Definition one_parameter (cost : R -> Result R) (ps : list R) : Result R :=
  t <- index ps 0 ;; cost t.

(* ================================================================== *)
(** * States the notebooks print *)
(* ================================================================== *)

Definition real_matrix (m : list (list R)) : Matrix := map (map RtoC) m.

(** [dev.state] after [circuit()] in noisy_circuits.ipynb. *)
Definition bell_density : Matrix :=
  real_matrix
    [[1 / 2; 0; 0; 1 / 2]; [0; 0; 0; 0]; [0; 0; 0; 0]; [1 / 2; 0; 0; 1 / 2]].

(** The density matrix after the bit flip on wire 0. *)
Definition flipped_once (p : R) : Matrix :=
  real_matrix
    [[ (1 - p) / 2; 0; 0; (1 - p) / 2 ];
     [ 0; p / 2; p / 2; 0 ];
     [ 0; p / 2; p / 2; 0 ];
     [ (1 - p) / 2; 0; 0; (1 - p) / 2 ]].

(** [dev.state] after [bitflip_circuit(p)]. *)
Definition flipped_twice (p : R) : Matrix :=
  real_matrix
    [[ ((1 - p) * (1 - p) + p * p) / 2; 0; 0; ((1 - p) * (1 - p) + p * p) / 2 ];
     [ 0; p * (1 - p); p * (1 - p); 0 ];
     [ 0; p * (1 - p); p * (1 - p); 0 ];
     [ ((1 - p) * (1 - p) + p * p) / 2; 0; 0; ((1 - p) * (1 - p) + p * p) / 2 ]].

(** The density matrix after the depolarizing channel on wire 0 of the
    Bell state, and [dev.state] after [depolarizing_circuit(p)]. *)
Definition depolarized_once (p : R) : Matrix :=
  real_matrix
    [[ 1 / 2 - p / 3; 0; 0; 1 / 2 - 2 * p / 3 ];
     [ 0; p / 3; 0; 0 ];
     [ 0; 0; p / 3; 0 ];
     [ 1 / 2 - 2 * p / 3; 0; 0; 1 / 2 - p / 3 ]].

Definition depolarized_twice (p : R) : Matrix :=
  real_matrix
    [[ (1 - 2 * p / 3) * (1 / 2 - p / 3) + 2 * p / 3 * (p / 3); 0; 0;
       (1 - 4 * p / 3) ^ 2 / 2 ];
     [ 0; (1 - 2 * p / 3) * (p / 3) + 2 * p / 3 * (1 / 2 - p / 3); 0; 0 ];
     [ 0; 0; (1 - 2 * p / 3) * (p / 3) + 2 * p / 3 * (1 / 2 - p / 3); 0 ];
     [ (1 - 4 * p / 3) ^ 2 / 2; 0; 0;
       (1 - 2 * p / 3) * (1 / 2 - p / 3) + 2 * p / 3 * (p / 3) ]].

(** The density matrix after amplitude damping with probability [g] on
    wire 0 of the Bell state, and after damping both wires. *)
Definition damped_once (g : R) : Matrix :=
  real_matrix
    [[ 1 / 2; 0; 0; sqrt (1 - g) / 2 ];
     [ 0; g / 2; 0; 0 ];
     [ 0; 0; 0; 0 ];
     [ sqrt (1 - g) / 2; 0; 0; (1 - g) / 2 ]].

Definition damped_twice (g : R) : Matrix :=
  real_matrix
    [[ (1 + g * g) / 2; 0; 0; (1 - g) / 2 ];
     [ 0; g * (1 - g) / 2; 0; 0 ];
     [ 0; 0; g * (1 - g) / 2; 0 ];
     [ (1 - g) / 2; 0; 0; (1 - g) * (1 - g) / 2 ]].

(* ================================================================== *)
(** * Gradient descent seen on one angle *)
(* ================================================================== *)

(** With the cost [cos phi1 * cos phi2] of the qubit-rotation notebook,
    a gradient-descent step of size 0.4 acts on the sum and on the
    difference of the two angles as [x |-> x + 0.4 sin x]. *)
Definition ascend (x : R) : R := x + 4 / 10 * sin x.

Fixpoint iter_ascend (n : nat) (x : R) : R :=
  match n with
  | O => x
  | S k => iter_ascend k (ascend x)
  end.

(** The same step seen on the distance to [PI]. *)
Definition descend (y : R) : R := y - 4 / 10 * sin y.

Fixpoint iter_descend (n : nat) (y : R) : R :=
  match n with
  | O => y
  | S k => iter_descend k (descend y)
  end.

(** With the cost [cos param] of the JAX tutorial, the update
    [param -= grad_circuit(param)] is [x |-> x + sin x]; seen on the
    distance to [PI] it is [y |-> y - sin y]. *)
Definition climb (x : R) : R := x + sin x.

Definition fall (y : R) : R := y - sin y.

Fixpoint iterate (f : R -> R) (n : nat) (x : R) : R :=
  match n with
  | O => x
  | S k => iterate f k (f x)
  end.



(* ================================================================== *)
(** * Algebra of amplitudes *)
(* ================================================================== *)

Lemma C_eq (x y : C) : fst x = fst y -> snd x = snd y -> x = y.
Proof. destruct x, y; simpl; intros; subst; reflexivity. Qed.

Ltac csolve :=
  intros;
  repeat match goal with z : C |- _ => destruct z end;
  apply C_eq; simpl; ring.

Lemma Cplus_comm (x y : C) : Cplus x y = Cplus y x.
Proof. csolve. Qed.

Lemma Cplus_assoc (x y z : C) : Cplus x (Cplus y z) = Cplus (Cplus x y) z.
Proof. csolve. Qed.

Lemma Cplus_0_l (x : C) : Cplus C0 x = x.
Proof. csolve. Qed.

Lemma Cplus_0_r (x : C) : Cplus x C0 = x.
Proof. csolve. Qed.

Lemma Cmult_comm (x y : C) : Cmult x y = Cmult y x.
Proof. csolve. Qed.

Lemma Cmult_assoc (x y z : C) : Cmult x (Cmult y z) = Cmult (Cmult x y) z.
Proof. csolve. Qed.

Lemma Cmult_1_l (x : C) : Cmult C1 x = x.
Proof. csolve. Qed.

Lemma Cmult_0_l (x : C) : Cmult C0 x = C0.
Proof. csolve. Qed.

Lemma Cmult_0_r (x : C) : Cmult x C0 = C0.
Proof. csolve. Qed.

Lemma Cmult_plus_distr_r (x y z : C) :
  Cmult (Cplus x y) z = Cplus (Cmult x z) (Cmult y z).
Proof. csolve. Qed.

Lemma Cmult_plus_distr_l (x y z : C) :
  Cmult x (Cplus y z) = Cplus (Cmult x y) (Cmult x z).
Proof. csolve. Qed.

Lemma Cplus_opp_r (x : C) : Cplus x (Copp x) = C0.
Proof. csolve. Qed.

Lemma Cconj_involutive (x : C) : Cconj (Cconj x) = x.
Proof. csolve. Qed.

Lemma Cconj_mult (x y : C) : Cconj (Cmult x y) = Cmult (Cconj x) (Cconj y).
Proof. csolve. Qed.

Lemma Cconj_plus (x y : C) : Cconj (Cplus x y) = Cplus (Cconj x) (Cconj y).
Proof. csolve. Qed.

Lemma C_ring_theory : ring_theory C0 C1 Cplus Cmult Cminus Copp (@eq C).
Proof.
  constructor.
  - exact Cplus_0_l.
  - exact Cplus_comm.
  - exact Cplus_assoc.
  - exact Cmult_1_l.
  - exact Cmult_comm.
  - exact Cmult_assoc.
  - exact Cmult_plus_distr_r.
  - reflexivity.
  - exact Cplus_opp_r.
Qed.

Add Ring C_ring : C_ring_theory.

(** ** Finite sums *)

Lemma Csum_ext (f g : nat -> C) (n : nat) :
  (forall j, (j < n)%nat -> f j = g j) -> Csum f n = Csum g n.
Proof.
  induction n as [|n IH]; intros H; simpl.
  - reflexivity.
  - rewrite IH by (intros; apply H; lia). rewrite H by lia. reflexivity.
Qed.

Lemma Csum_zero (n : nat) : Csum (fun _ => C0) n = C0.
Proof. induction n as [|n IH]; simpl; [|rewrite IH]; ring. Qed.

Lemma Csum_plus (f g : nat -> C) (n : nat) :
  Csum (fun j => Cplus (f j) (g j)) n = Cplus (Csum f n) (Csum g n).
Proof. induction n as [|n IH]; simpl; [|rewrite IH]; ring. Qed.

Lemma Csum_mult_l (c : C) (f : nat -> C) (n : nat) :
  Cmult c (Csum f n) = Csum (fun j => Cmult c (f j)) n.
Proof. induction n as [|n IH]; simpl; [|rewrite <- IH]; ring. Qed.

Lemma Csum_mult_r (c : C) (f : nat -> C) (n : nat) :
  Cmult (Csum f n) c = Csum (fun j => Cmult (f j) c) n.
Proof. induction n as [|n IH]; simpl; [|rewrite <- IH]; ring. Qed.

Lemma Csum_swap (f : nat -> nat -> C) (n m : nat) :
  Csum (fun i => Csum (fun j => f i j) m) n
  = Csum (fun j => Csum (fun i => f i j) n) m.
Proof.
  induction n as [|n IH]; simpl.
  - symmetry; apply Csum_zero.
  - rewrite IH, <- Csum_plus. reflexivity.
Qed.

Lemma Csum_delta (a n : nat) (f : nat -> C) :
  (a < n)%nat ->
  Csum (fun j => Cmult (if Nat.eqb a j then C1 else C0) (f j)) n = f a.
Proof.
  induction n as [|n IH]; intros Ha; [lia|]. simpl.
  destruct (Nat.eq_dec a n) as [->|Hne].
  - rewrite Nat.eqb_refl.
    rewrite (Csum_ext _ (fun _ => C0)).
    + rewrite Csum_zero. ring.
    + intros j Hj. destruct (Nat.eqb_spec n j); [lia|ring].
  - rewrite IH by lia.
    destruct (Nat.eqb_spec a n); [lia|ring].
Qed.

(* ================================================================== *)
(** * Bit strings and basis indices *)
(* ================================================================== *)

Lemma bits_le_length (n i : nat) : length (bits_le n i) = n.
Proof. revert i; induction n; intros; simpl; auto. Qed.

Lemma of_bits_le_bits_le (n i : nat) :
  (i < 2 ^ n)%nat -> of_bits_le (bits_le n i) = i.
Proof.
  revert i; induction n as [|n IH]; intros i Hi; simpl in *.
  - lia.
  - pose proof (Nat.div2_odd i) as Hd.
    rewrite IH by lia.
    destruct (Nat.odd i); simpl in Hd; lia.
Qed.

Lemma bits_le_of_bits_le (b : list bool) :
  bits_le (length b) (of_bits_le b) = b.
Proof.
  induction b as [|x r IH]; cbn [bits_le of_bits_le length]; [reflexivity|].
  rewrite Nat.odd_add_mul_2.
  assert (Hd : Nat.div2 ((if x then 1 else 0) + 2 * of_bits_le r) = of_bits_le r).
  { destruct x.
    - change (1 + 2 * of_bits_le r)%nat with (S (2 * of_bits_le r)).
      apply Nat.div2_succ_double.
    - rewrite Nat.add_0_l. apply Nat.div2_double. }
  rewrite Hd, IH. destruct x; reflexivity.
Qed.

Lemma of_bits_le_bound (b : list bool) : (of_bits_le b < 2 ^ length b)%nat.
Proof.
  induction b as [|x r IH]; cbn [of_bits_le length]; [simpl; lia|].
  rewrite Nat.pow_succ_r'. destruct x; lia.
Qed.

Lemma to_bits_length (n i : nat) : length (to_bits n i) = n.
Proof. unfold to_bits. rewrite length_rev. apply bits_le_length. Qed.

Lemma of_bits_to_bits (n i : nat) : (i < 2 ^ n)%nat -> of_bits (to_bits n i) = i.
Proof.
  intros Hi. unfold of_bits, to_bits. rewrite rev_involutive.
  apply of_bits_le_bits_le; assumption.
Qed.

Lemma to_bits_of_bits (b : list bool) : to_bits (length b) (of_bits b) = b.
Proof.
  unfold of_bits, to_bits.
  rewrite <- (length_rev b), bits_le_of_bits_le. apply rev_involutive.
Qed.

Lemma of_bits_bound (b : list bool) : (of_bits b < 2 ^ length b)%nat.
Proof.
  unfold of_bits. rewrite <- (length_rev b). apply of_bits_le_bound.
Qed.

(** ** Point updates of a list *)

Lemma set_nth_length {A} (k : nat) (v : A) (l : list A) :
  length (set_nth k v l) = length l.
Proof.
  revert k; induction l as [|a r IH]; intros [|k]; simpl; auto.
Qed.

Lemma nth_set_nth_same {A} (k : nat) (v d : A) (l : list A) :
  (k < length l)%nat -> nth k (set_nth k v l) d = v.
Proof.
  revert k; induction l as [|a r IH]; intros [|k] H; simpl in *;
    try lia; auto. apply IH; lia.
Qed.

Lemma nth_set_nth_other {A} (k j : nat) (v d : A) (l : list A) :
  k <> j -> nth j (set_nth k v l) d = nth j l d.
Proof.
  revert k j; induction l as [|a r IH]; intros [|k] [|j] H; simpl;
    try reflexivity; try congruence. apply IH; congruence.
Qed.

Lemma set_nth_comm {A} (k j : nat) (v w : A) (l : list A) :
  k <> j -> set_nth k v (set_nth j w l) = set_nth j w (set_nth k v l).
Proof.
  revert k j; induction l as [|a r IH]; intros [|k] [|j] H; simpl;
    try reflexivity; try congruence. f_equal. apply IH; congruence.
Qed.

Lemma set_nth_twice {A} (k : nat) (v w : A) (l : list A) :
  set_nth k v (set_nth k w l) = set_nth k v l.
Proof.
  revert k; induction l as [|a r IH]; intros [|k]; simpl; auto.
  f_equal; apply IH.
Qed.

Lemma set_nth_nth {A} (k : nat) (d : A) (l : list A) :
  set_nth k (nth k l d) l = l.
Proof.
  revert k; induction l as [|a r IH]; intros [|k]; simpl; auto.
  f_equal; apply IH.
Qed.

(** ** Reading and writing the bits of a tuple of wires *)

Lemma update_bits_length (idxs : list nat) :
  forall b x, length (update_bits b idxs x) = length b.
Proof.
  induction idxs as [|w ws IH]; intros b [|v vs]; simpl; auto.
  rewrite IH. apply set_nth_length.
Qed.

Lemma set_nth_update_bits (w : nat) (v : bool) (ws : list nat) :
  ~ In w ws ->
  forall b vs,
    set_nth w v (update_bits b ws vs) = update_bits (set_nth w v b) ws vs.
Proof.
  induction ws as [|w' ws IH]; intros Hin b [|v' vs]; simpl; auto.
  rewrite IH by (intro; apply Hin; right; assumption).
  rewrite set_nth_comm by (intro; subst; apply Hin; left; reflexivity).
  reflexivity.
Qed.

Lemma nth_update_bits_other (w : nat) (ws : list nat) :
  ~ In w ws ->
  forall b vs, nth w (update_bits b ws vs) false = nth w b false.
Proof.
  induction ws as [|w' ws IH]; intros Hin b [|v' vs]; simpl; auto.
  rewrite IH by (intro; apply Hin; right; assumption).
  apply nth_set_nth_other. intro; subst; apply Hin; left; reflexivity.
Qed.

Lemma select_update_bits (idxs : list nat) :
  NoDup idxs ->
  forall b x,
    Forall (fun w => (w < length b)%nat) idxs ->
    length x = length idxs ->
    select_bits (update_bits b idxs x) idxs = x.
Proof.
  induction 1 as [|w ws Hin Hnd IH]; intros b x Hb Hx.
  - destruct x; simpl in *; [reflexivity|discriminate].
  - destruct x as [|v vs]; simpl in *; [discriminate|].
    inversion Hb as [|? ? Hw Hws]; subst.
    f_equal.
    + rewrite nth_update_bits_other by assumption.
      apply nth_set_nth_same; assumption.
    + apply IH.
      * rewrite set_nth_length; assumption.
      * lia.
Qed.

Lemma update_update_bits (idxs : list nat) :
  NoDup idxs ->
  forall b x y,
    length x = length idxs -> length y = length idxs ->
    update_bits (update_bits b idxs x) idxs y = update_bits b idxs y.
Proof.
  induction 1 as [|w ws Hin Hnd IH]; intros b x y Hx Hy.
  - destruct x, y; reflexivity.
  - destruct x as [|v vs], y as [|v' vs']; simpl in *; try discriminate.
    rewrite set_nth_update_bits by assumption.
    rewrite set_nth_twice. apply IH; lia.
Qed.

Lemma update_select_bits (idxs : list nat) :
  forall b, update_bits b idxs (select_bits b idxs) = b.
Proof.
  induction idxs as [|w ws IH]; intros b; simpl; [reflexivity|].
  rewrite set_nth_nth. apply IH.
Qed.

Lemma select_bits_length (b : list bool) (idxs : list nat) :
  length (select_bits b idxs) = length idxs.
Proof. unfold select_bits. apply length_map. Qed.

Lemma local_index_bound (n : nat) (idxs : list nat) (i : nat) :
  (local_index n idxs i < 2 ^ length idxs)%nat.
Proof.
  unfold local_index.
  rewrite <- (select_bits_length (to_bits n i) idxs). apply of_bits_bound.
Qed.

Lemma with_local_bound (n : nat) (idxs : list nat) (i j : nat) :
  (with_local n idxs i j < 2 ^ n)%nat.
Proof.
  unfold with_local.
  pose proof (of_bits_bound
    (update_bits (to_bits n i) idxs (to_bits (length idxs) j))) as H.
  rewrite update_bits_length, to_bits_length in H. exact H.
Qed.

Lemma to_bits_with_local (n : nat) (idxs : list nat) (i j : nat) :
  to_bits n (with_local n idxs i j)
  = update_bits (to_bits n i) idxs (to_bits (length idxs) j).
Proof.
  unfold with_local.
  set (b := update_bits _ _ _).
  assert (Hl : length b = n)
    by (unfold b; rewrite update_bits_length; apply to_bits_length).
  rewrite <- Hl at 1. apply to_bits_of_bits.
Qed.

Lemma local_index_with_local (n : nat) (idxs : list nat) (i j : nat) :
  valid_wires n idxs -> (j < 2 ^ length idxs)%nat ->
  local_index n idxs (with_local n idxs i j) = j.
Proof.
  intros [Hnd Hlt] Hj. unfold local_index.
  rewrite to_bits_with_local, select_update_bits.
  - apply of_bits_to_bits; assumption.
  - assumption.
  - rewrite to_bits_length; assumption.
  - apply to_bits_length.
Qed.

Lemma with_local_with_local (n : nat) (idxs : list nat) (i j l : nat) :
  valid_wires n idxs ->
  with_local n idxs (with_local n idxs i j) l = with_local n idxs i l.
Proof.
  intros [Hnd Hlt]. unfold with_local at 1 3.
  rewrite to_bits_with_local, update_update_bits;
    auto using to_bits_length.
Qed.

Lemma with_local_local_index (n : nat) (idxs : list nat) (i : nat) :
  (i < 2 ^ n)%nat ->
  with_local n idxs i (local_index n idxs i) = i.
Proof.
  intros Hi. unfold with_local, local_index.
  rewrite <- (select_bits_length (to_bits n i) idxs) at 1.
  rewrite to_bits_of_bits, update_select_bits.
  apply of_bits_to_bits; assumption.
Qed.

(* ================================================================== *)
(** * Gate application and its inverse *)
(* ================================================================== *)

Lemma nth_map_seq {A} (f : nat -> A) (d i : nat) (x : A) :
  (i < d)%nat -> nth i (map f (seq 0 d)) x = f i.
Proof.
  intros Hi.
  rewrite (nth_indep _ x (f O)) by (rewrite length_map, length_seq; exact Hi).
  rewrite map_nth, seq_nth by exact Hi. reflexivity.
Qed.

Lemma entry_build_matrix (d : nat) (f : nat -> nat -> C) (a b : nat) :
  (a < d)%nat -> (b < d)%nat -> entry (build_matrix d f) a b = f a b.
Proof.
  intros Ha Hb. unfold entry, build_matrix.
  rewrite (nth_map_seq (fun a => map (fun b => f a b) (seq 0 d))) by exact Ha.
  apply nth_map_seq; exact Hb.
Qed.

Lemma build_matrix_ext (d : nat) (f g : nat -> nat -> C) :
  (forall a b, (a < d)%nat -> (b < d)%nat -> f a b = g a b) ->
  build_matrix d f = build_matrix d g.
Proof.
  intros H. unfold build_matrix.
  apply map_ext_in; intros a Ha. apply in_seq in Ha.
  apply map_ext_in; intros b Hb. apply in_seq in Hb.
  apply H; lia.
Qed.

Lemma map_seq_nth {A} (l : list A) (x : A) :
  map (fun i => nth i l x) (seq 0 (length l)) = l.
Proof.
  apply (nth_ext _ _ x x).
  - rewrite length_map, length_seq. reflexivity.
  - intros i Hi. rewrite length_map, length_seq in Hi.
    apply (nth_map_seq (fun i => nth i l x)); exact Hi.
Qed.

Lemma build_matrix_entry (d : nat) (m : Matrix) :
  length m = d -> Forall (fun row => length row = d) m ->
  build_matrix d (entry m) = m.
Proof.
  intros Hl Hrows. unfold build_matrix, entry.
  etransitivity; [|apply (map_seq_nth m [])]. rewrite Hl.
  apply map_ext_in; intros a Ha. apply in_seq in Ha.
  assert (Hrow : length (nth a m []) = d).
  { rewrite Forall_forall in Hrows. apply Hrows, nth_In. lia. }
  etransitivity; [|apply (map_seq_nth (nth a m []) C0)].
  rewrite Hrow. reflexivity.
Qed.

Lemma adjoint_left_inverse (g : Gate) :
  unitary g ->
  left_inverse (gate_dim g) (gate_matrix (adjoint g)) (gate_matrix g).
Proof.
  intros Hu a b Ha Hb. rewrite <- (Hu a b Ha Hb).
  apply Csum_ext; intros j Hj. simpl.
  rewrite entry_build_matrix by assumption. reflexivity.
Qed.

Lemma apply_matrix_length (n : nat) (m : Matrix) (idxs : list nat)
  (amps : list C) : length (apply_matrix n m idxs amps) = (2 ^ n)%nat.
Proof. unfold apply_matrix. rewrite length_map, length_seq. reflexivity. Qed.

Lemma nth_apply_matrix (n : nat) (m : Matrix) (idxs : list nat)
  (amps : list C) (i : nat) :
  (i < 2 ^ n)%nat ->
  nth i (apply_matrix n m idxs amps) C0
  = Csum (fun j => Cmult (entry m (local_index n idxs i) j)
                         (nth (with_local n idxs i j) amps C0))
         (2 ^ length idxs).
Proof.
  intros Hi. unfold apply_matrix.
  rewrite (nth_map_seq _ (2 ^ n) i C0 Hi). reflexivity.
Qed.

(** The contraction at the heart of every round trip: a weighted sum over
    the local index collapses when the weights multiply to the identity. *)
Lemma Csum_contract (d a : nat) (v u : Matrix) (f : nat -> C) :
  left_inverse d v u -> (a < d)%nat ->
  Csum (fun j => Cmult (entry v a j)
                       (Csum (fun l => Cmult (entry u j l) (f l)) d)) d
  = f a.
Proof.
  intros Hinv Ha.
  rewrite (Csum_ext _
    (fun j => Csum (fun l => Cmult (Cmult (entry v a j) (entry u j l)) (f l)) d)).
  2:{ intros j _. rewrite Csum_mult_l. apply Csum_ext; intros; ring. }
  rewrite Csum_swap.
  rewrite (Csum_ext _
    (fun l => Cmult (if Nat.eqb a l then C1 else C0) (f l))).
  2:{ intros l Hl. rewrite <- Csum_mult_r, (Hinv a l Ha Hl). reflexivity. }
  apply Csum_delta; exact Ha.
Qed.

Lemma apply_matrix_inverse (n : nat) (v u : Matrix) (idxs : list nat)
  (amps : list C) :
  valid_wires n idxs ->
  left_inverse (2 ^ length idxs) v u ->
  length amps = (2 ^ n)%nat ->
  apply_matrix n v idxs (apply_matrix n u idxs amps) = amps.
Proof.
  intros Hv Hinv Hlen.
  apply (nth_ext _ _ C0 C0).
  - rewrite apply_matrix_length; symmetry; exact Hlen.
  - intros i Hi. rewrite apply_matrix_length in Hi.
    rewrite nth_apply_matrix by exact Hi.
    rewrite (Csum_ext _
      (fun j => Cmult (entry v (local_index n idxs i) j)
         (Csum (fun l => Cmult (entry u j l)
                               (nth (with_local n idxs i l) amps C0))
               (2 ^ length idxs)))).
    + rewrite Csum_contract by (auto using local_index_bound).
      rewrite with_local_local_index by exact Hi. reflexivity.
    + intros j Hj. f_equal.
      rewrite nth_apply_matrix by apply with_local_bound.
      apply Csum_ext; intros l Hl.
      rewrite local_index_with_local, with_local_with_local by assumption.
      reflexivity.
Qed.

(** ** Density matrices *)

Lemma entry_left_apply (n : nat) (m : Matrix) (idxs : list nat) (rho : Matrix)
  (r c : nat) :
  (r < 2 ^ n)%nat -> (c < 2 ^ n)%nat ->
  entry (left_apply n m idxs rho) r c
  = Csum (fun x => Cmult (entry m (local_index n idxs r) x)
                         (entry rho (with_local n idxs r x) c))
         (2 ^ length idxs).
Proof. intros; unfold left_apply; rewrite entry_build_matrix; auto. Qed.

Lemma entry_right_apply_adj (n : nat) (m : Matrix) (idxs : list nat)
  (rho : Matrix) (r c : nat) :
  (r < 2 ^ n)%nat -> (c < 2 ^ n)%nat ->
  entry (right_apply_adj n m idxs rho) r c
  = Csum (fun y => Cmult (entry rho r (with_local n idxs c y))
                         (Cconj (entry m (local_index n idxs c) y)))
         (2 ^ length idxs).
Proof. intros; unfold right_apply_adj; rewrite entry_build_matrix; auto. Qed.

Lemma left_right_commute (n : nat) (v u : Matrix) (idxs : list nat)
  (rho : Matrix) :
  left_apply n v idxs (right_apply_adj n u idxs rho)
  = right_apply_adj n u idxs (left_apply n v idxs rho).
Proof.
  unfold left_apply at 1, right_apply_adj at 2.
  apply build_matrix_ext; intros r c Hr Hc.
  rewrite (Csum_ext _
    (fun x => Csum (fun y =>
       Cmult (Cmult (entry v (local_index n idxs r) x)
                    (entry rho (with_local n idxs r x) (with_local n idxs c y)))
             (Cconj (entry u (local_index n idxs c) y)))
       (2 ^ length idxs))).
  2:{ intros x Hx.
      rewrite entry_right_apply_adj by (auto using with_local_bound).
      rewrite Csum_mult_l. apply Csum_ext; intros; ring. }
  rewrite Csum_swap. apply Csum_ext; intros y Hy.
  rewrite entry_left_apply by (auto using with_local_bound).
  rewrite Csum_mult_r. reflexivity.
Qed.

Lemma left_apply_inverse (n : nat) (v u : Matrix) (idxs : list nat)
  (rho : Matrix) :
  valid_wires n idxs ->
  left_inverse (2 ^ length idxs) v u ->
  length rho = (2 ^ n)%nat ->
  Forall (fun row => length row = (2 ^ n)%nat) rho ->
  left_apply n v idxs (left_apply n u idxs rho) = rho.
Proof.
  intros Hv Hinv Hl Hrows.
  etransitivity; [|apply (build_matrix_entry (2 ^ n) rho Hl Hrows)].
  unfold left_apply at 1.
  apply build_matrix_ext; intros r c Hr Hc.
  rewrite (Csum_ext _
    (fun x => Cmult (entry v (local_index n idxs r) x)
       (Csum (fun l => Cmult (entry u x l)
                             (entry rho (with_local n idxs r l) c))
             (2 ^ length idxs)))).
  - rewrite Csum_contract by (auto using local_index_bound).
    rewrite with_local_local_index by exact Hr. reflexivity.
  - intros x Hx. f_equal.
    rewrite entry_left_apply by (auto using with_local_bound).
    apply Csum_ext; intros l Hl'.
    rewrite local_index_with_local, with_local_with_local by assumption.
    reflexivity.
Qed.

Lemma left_inverse_conj (d : nat) (v u : Matrix) (a b : nat) :
  left_inverse d v u -> (a < d)%nat -> (b < d)%nat ->
  Csum (fun j => Cmult (Cconj (entry v a j)) (Cconj (entry u j b))) d
  = if Nat.eqb a b then C1 else C0.
Proof.
  intros Hinv Ha Hb.
  assert (Hc : forall f k,
    Csum (fun j => Cconj (f j)) k = Cconj (Csum f k)).
  { intros f k; induction k as [|k IH]; simpl.
    - apply C_eq; simpl; ring.
    - rewrite IH, Cconj_plus. reflexivity. }
  rewrite (Csum_ext _
    (fun j => Cconj (Cmult (entry v a j) (entry u j b)))).
  2:{ intros; rewrite Cconj_mult; reflexivity. }
  rewrite Hc, (Hinv a b Ha Hb).
  destruct (Nat.eqb a b); apply C_eq; simpl; ring.
Qed.

Lemma right_apply_adj_inverse (n : nat) (v u : Matrix) (idxs : list nat)
  (rho : Matrix) :
  valid_wires n idxs ->
  left_inverse (2 ^ length idxs) v u ->
  length rho = (2 ^ n)%nat ->
  Forall (fun row => length row = (2 ^ n)%nat) rho ->
  right_apply_adj n v idxs (right_apply_adj n u idxs rho) = rho.
Proof.
  intros Hv Hinv Hl Hrows.
  etransitivity; [|apply (build_matrix_entry (2 ^ n) rho Hl Hrows)].
  unfold right_apply_adj at 1.
  apply build_matrix_ext; intros r c Hr Hc.
  set (a := local_index n idxs c).
  assert (Ha : (a < 2 ^ length idxs)%nat) by apply local_index_bound.
  rewrite (Csum_ext _
    (fun y => Csum (fun l =>
       Cmult (Cmult (Cconj (entry v a y)) (Cconj (entry u y l)))
             (entry rho r (with_local n idxs c l)))
       (2 ^ length idxs))).
  2:{ intros y Hy.
      rewrite entry_right_apply_adj by (auto using with_local_bound).
      rewrite Csum_mult_r. apply Csum_ext; intros l Hl'.
      rewrite local_index_with_local, with_local_with_local by assumption.
      ring. }
  rewrite Csum_swap.
  rewrite (Csum_ext _
    (fun l => Cmult (if Nat.eqb a l then C1 else C0)
                    (entry rho r (with_local n idxs c l)))).
  2:{ intros l Hl'. rewrite <- Csum_mult_r.
      rewrite (left_inverse_conj _ v u a l Hinv Ha Hl'). reflexivity. }
  rewrite Csum_delta by exact Ha.
  unfold a. rewrite with_local_local_index by exact Hc. reflexivity.
Qed.

Lemma conjugate_by_inverse (n : nat) (v u : Matrix) (idxs : list nat)
  (rho : Matrix) :
  valid_wires n idxs ->
  left_inverse (2 ^ length idxs) v u ->
  length rho = (2 ^ n)%nat ->
  Forall (fun row => length row = (2 ^ n)%nat) rho ->
  conjugate_by n v idxs (conjugate_by n u idxs rho) = rho.
Proof.
  intros Hv Hinv Hl Hrows. unfold conjugate_by.
  rewrite left_right_commute, left_apply_inverse by assumption.
  apply right_apply_adj_inverse; assumption.
Qed.

(** ** The embedded operator as a matrix *)

(** A sum against a row of the embedded matrix is a sum over the local
    index. *)
Lemma embedded_sum (n : nat) (m : Matrix) (idxs : list nat) (r : nat)
  (f : nat -> C) :
  valid_wires n idxs -> (r < 2 ^ n)%nat ->
  Csum (fun c => Cmult (entry (embed n m idxs) r c) (f c)) (2 ^ n)
  = Csum (fun j => Cmult (entry m (local_index n idxs r) j)
                         (f (with_local n idxs r j)))
         (2 ^ length idxs).
Proof.
  intros Hv Hr.
  set (d := (2 ^ length idxs)%nat).
  set (K := fun j => Cmult (entry m (local_index n idxs r) j)
                           (f (with_local n idxs r j))).
  rewrite (Csum_ext _
    (fun c => Csum (fun j =>
       Cmult (if Nat.eqb (with_local n idxs r j) c then C1 else C0) (K j)) d)).
  - rewrite Csum_swap. apply Csum_ext; intros j Hj.
    rewrite <- Csum_mult_r.
    rewrite (Csum_ext _
      (fun c => Cmult (if Nat.eqb (with_local n idxs r j) c then C1 else C0)
                      C1)) by (intros; ring).
    rewrite Csum_delta by apply with_local_bound. ring.
  - intros c Hc. unfold embed. rewrite entry_build_matrix by assumption.
    pose proof (local_index_bound n idxs c) as Hlc. fold d in Hlc.
    destruct (Nat.eqb_spec (with_local n idxs r (local_index n idxs c)) c)
      as [Hag|Hag].
    + rewrite (Csum_ext _
        (fun j => Cmult (if Nat.eqb (local_index n idxs c) j then C1 else C0)
                        (K j))).
      * rewrite Csum_delta by exact Hlc. unfold K. rewrite Hag. reflexivity.
      * intros j Hj. f_equal.
        destruct (Nat.eqb_spec (with_local n idxs r j) c) as [Hjc|Hjc];
          destruct (Nat.eqb_spec (local_index n idxs c) j) as [Hlj|Hlj];
          try reflexivity; exfalso.
        -- apply Hlj. rewrite <- Hjc.
           apply local_index_with_local; assumption.
        -- apply Hjc. rewrite <- Hlj. exact Hag.
    + rewrite Cmult_0_l. symmetry.
      rewrite (Csum_ext _ (fun _ => C0)); [apply Csum_zero|].
      intros j Hj.
      destruct (Nat.eqb_spec (with_local n idxs r j) c) as [Hjc|Hjc];
        [|ring].
      exfalso; apply Hag. rewrite <- Hjc.
      rewrite local_index_with_local by assumption. reflexivity.
Qed.

(** [apply_matrix] is the product of the embedded matrix with the
    amplitude vector. *)
Lemma apply_matrix_embed (n : nat) (m : Matrix) (idxs : list nat)
  (amps : list C) :
  valid_wires n idxs ->
  apply_matrix n m idxs amps = mat_vec (2 ^ n) (embed n m idxs) amps.
Proof.
  intros Hv. unfold apply_matrix, mat_vec.
  apply map_ext_in; intros r Hr. apply in_seq in Hr.
  symmetry. apply (embedded_sum n m idxs r (fun c => nth c amps C0));
    [exact Hv | lia].
Qed.

(** [conjugate_by] is [U rho U^dagger] for the embedded matrix [U]. *)
Lemma conjugate_by_embed (n : nat) (m : Matrix) (idxs : list nat)
  (rho : Matrix) :
  valid_wires n idxs ->
  conjugate_by n m idxs rho
  = mat_mul (2 ^ n) (mat_mul (2 ^ n) (embed n m idxs) rho)
            (dagger (2 ^ n) (embed n m idxs)).
Proof.
  intros Hv.
  assert (Hleft : left_apply n m idxs rho
                  = mat_mul (2 ^ n) (embed n m idxs) rho).
  { unfold left_apply, mat_mul. apply build_matrix_ext; intros r c Hr Hc.
    symmetry. apply (embedded_sum n m idxs r (fun k => entry rho k c));
      assumption. }
  unfold conjugate_by. rewrite Hleft.
  set (x := mat_mul (2 ^ n) (embed n m idxs) rho).
  unfold right_apply_adj, mat_mul.
  apply build_matrix_ext; intros r c Hr Hc.
  assert (Hconj : forall g k,
    Csum (fun j => Cconj (g j)) k = Cconj (Csum g k)).
  { intros g k; induction k as [|k IH]; simpl.
    - apply C_eq; simpl; ring.
    - rewrite IH, Cconj_plus. reflexivity. }
  symmetry.
  rewrite (Csum_ext _
    (fun k => Cconj (Cmult (entry (embed n m idxs) c k)
                           (Cconj (entry x r k))))).
  2:{ intros k Hk. unfold dagger. rewrite entry_build_matrix by assumption.
      rewrite Cconj_mult, Cconj_involutive. ring. }
  rewrite Hconj.
  rewrite (embedded_sum n m idxs c (fun k => Cconj (entry x r k)))
    by assumption.
  rewrite <- Hconj. apply Csum_ext; intros y Hy.
  rewrite Cconj_mult, Cconj_involutive. ring.
Qed.

(** ** Closeness of states *)

Lemma amps_within_refl (tol : R) (a : list C) : 0 <= tol -> amps_within tol a a.
Proof.
  intros Ht; split; [reflexivity|].
  intros i. rewrite !Rminus_diag, Rabs_R0. split; exact Ht.
Qed.

Lemma states_within_refl (tol : R) (s : QuantumState) :
  0 <= tol -> states_within tol s s.
Proof.
  intros Ht. destruct s; simpl; auto using amps_within_refl.
Qed.

Lemma bad_wires_false (n arity : nat) (idxs : list nat) :
  length idxs = arity -> Forall (fun w => (w < n)%nat) idxs ->
  bad_wires n arity idxs = false.
Proof.
  intros Hl Hw. unfold bad_wires.
  rewrite (proj2 (Nat.eqb_eq _ _) Hl). simpl. clear Hl.
  induction Hw as [|w ws Hlt _ IH]; simpl; [reflexivity|].
  rewrite IH. destruct (Nat.leb_spec n w); [lia|reflexivity].
Qed.

(** C6. For every unitary gate, every well-formed state (amplitude vector
    or density matrix) and every tuple of distinct in-range wires of the
    gate's arity, [apply_gate] succeeds, and [apply_gate] with the inverse
    (adjoint) gate then returns exactly the original state, hence a state
    within 1e-9 of it. *)
Theorem apply_gate_round_trip (st : QuantumState) (g : Gate) (idxs : list nat) :
  unitary g ->
  well_formed st ->
  length idxs = gate_arity g ->
  valid_wires (num_qubits st) idxs ->
  exists st1,
    apply_gate st g idxs = Ok st1 /\
    apply_gate st1 (adjoint g) idxs = Ok st /\
    forall st2, apply_gate st1 (adjoint g) idxs = Ok st2 ->
                states_within (1 / 1000000000) st2 st.
Proof.
  intros Hu Hwf Hlen Hv.
  pose proof (adjoint_left_inverse g Hu) as Hinv.
  unfold gate_dim in Hinv. rewrite <- Hlen in Hinv.
  assert (Hback : forall st1,
    apply_gate st1 (adjoint g) idxs = Ok st ->
    forall st2, apply_gate st1 (adjoint g) idxs = Ok st2 ->
                states_within (1 / 1000000000) st2 st).
  { intros st1 H1 st2 H2. rewrite H1 in H2. injection H2 as <-.
    apply states_within_refl. lra. }
  destruct st as [n amps | n rho]; simpl in Hwf, Hv.
  - exists (PureState n (apply_matrix n (gate_matrix g) idxs amps)).
    assert (H1 : apply_gate (PureState n (apply_matrix n (gate_matrix g) idxs amps))
                   (adjoint g) idxs = Ok (PureState n amps)).
    { unfold apply_gate. simpl num_qubits.
      rewrite bad_wires_false by (simpl; tauto || apply Hv).
      rewrite apply_matrix_inverse by assumption. reflexivity. }
    split; [|split; [exact H1 | exact (Hback _ H1)]].
    unfold apply_gate. simpl num_qubits.
    rewrite bad_wires_false by (tauto || apply Hv). reflexivity.
  - destruct Hwf as [Hl Hrows].
    exists (MixedState n (conjugate_by n (gate_matrix g) idxs rho)).
    assert (H1 : apply_gate (MixedState n (conjugate_by n (gate_matrix g) idxs rho))
                   (adjoint g) idxs = Ok (MixedState n rho)).
    { unfold apply_gate. simpl num_qubits.
      rewrite bad_wires_false by (simpl; tauto || apply Hv).
      rewrite conjugate_by_inverse by assumption. reflexivity. }
    split; [|split; [exact H1 | exact (Hback _ H1)]].
    unfold apply_gate. simpl num_qubits.
    rewrite bad_wires_false by (tauto || apply Hv). reflexivity.
Qed.

(* ================================================================== *)
(** * The gates of the notebooks are unitary *)
(* ================================================================== *)

(** Evaluation of the simulator on concrete circuits: everything is
    unfolded except the operations on real numbers. *)
Ltac sim_compute :=
  cbv -[Rplus Rmult Rminus Ropp Rinv Rdiv cos sin sqrt IZR Rabs Rle_dec PI
        Rle Rlt pow].

(** Equality of results, states, lists and amplitudes, component by
    component. *)
Ltac struct_eq :=
  repeat match goal with
  | |- Ok _ = Ok _ => apply f_equal
  | |- PureState _ _ = PureState _ _ => apply f_equal
  | |- MixedState _ _ = MixedState _ _ => apply f_equal
  | |- cons _ _ = cons _ _ => apply f_equal2
  | |- nil = nil => reflexivity
  | |- pair _ _ = pair _ _ => apply f_equal2
  end.

(** Case analysis on an index bounded by a numeral. *)
Ltac case_lt a :=
  destruct a as [|a]; [|first [exfalso; lia | case_lt a]].

Lemma inv_sqrt2_sqr : / sqrt 2 * / sqrt 2 = 1 / 2.
Proof.
  assert (H : sqrt 2 * sqrt 2 = 2) by (apply sqrt_sqrt; lra).
  rewrite <- Rinv_mult, H. lra.
Qed.

Lemma sin2_cos2_half (x : R) :
  sin (x / 2) * sin (x / 2) + cos (x / 2) * cos (x / 2) = 1.
Proof. pose proof (sin2_cos2 (x / 2)) as H. unfold Rsqr in H. exact H. Qed.

Lemma CNOT_unitary : unitary CNOT.
Proof.
  intros a b Ha Hb. unfold gate_dim in *. simpl in Ha, Hb.
  case_lt a; case_lt b; sim_compute; struct_eq; ring.
Qed.

Lemma Hadamard_unitary : unitary Hadamard.
Proof.
  pose proof inv_sqrt2_sqr as Hs.
  intros a b Ha Hb. unfold gate_dim in *. simpl in Ha, Hb.
  case_lt a; case_lt b; sim_compute; set (s := / sqrt 2) in *;
    struct_eq; nra.
Qed.

Lemma RX_unitary (phi : R) : unitary (RX phi).
Proof.
  pose proof (sin2_cos2_half phi) as Hs.
  intros a b Ha Hb. unfold gate_dim in *. simpl in Ha, Hb.
  case_lt a; case_lt b; sim_compute; struct_eq; nra.
Qed.

Lemma RY_unitary (phi : R) : unitary (RY phi).
Proof.
  pose proof (sin2_cos2_half phi) as Hs.
  intros a b Ha Hb. unfold gate_dim in *. simpl in Ha, Hb.
  case_lt a; case_lt b; sim_compute; struct_eq; nra.
Qed.

Lemma valid_wires_01 : valid_wires 2 [0%nat; 1%nat].
Proof.
  split.
  - repeat constructor; simpl; intuition lia.
  - repeat constructor; lia.
Qed.

Lemma valid_wires_0 : valid_wires 1 [0%nat].
Proof.
  split.
  - repeat constructor; simpl; intuition lia.
  - repeat constructor; lia.
Qed.

(** The round trip at the Hadamard gate of the notebooks on the one-qubit
    state |0>: the gate moves the state to (|0> + |1>)/sqrt 2, and its
    adjoint brings it back. *)
Lemma apply_gate_round_trip_witness :
  unitary Hadamard /\ well_formed (zero_state 1) /\
  length [0%nat] = gate_arity Hadamard /\
  valid_wires (num_qubits (zero_state 1)) [0%nat] /\
  apply_gate (zero_state 1) Hadamard [0%nat] <> Ok (zero_state 1) /\
  exists st1,
    apply_gate (zero_state 1) Hadamard [0%nat] = Ok st1 /\
    apply_gate st1 (adjoint Hadamard) [0%nat] = Ok (zero_state 1) /\
    forall st2, apply_gate st1 (adjoint Hadamard) [0%nat] = Ok st2 ->
                states_within (1 / 1000000000) st2 (zero_state 1).
Proof.
  split; [exact Hadamard_unitary|].
  split; [reflexivity|].
  split; [reflexivity|].
  split; [exact valid_wires_0|].
  split.
  - pose proof inv_sqrt2_sqr as Hs.
    sim_compute. intros H. injection H as _ H.
    set (s := / sqrt 2) in *. nra.
  - apply (apply_gate_round_trip (zero_state 1) Hadamard [0%nat]).
    + exact Hadamard_unitary.
    + reflexivity.
    + reflexivity.
    + exact valid_wires_0.
Defined.

(* ================================================================== *)
(** * Expectation values of the notebooks' circuits *)
(* ================================================================== *)

Lemma expval_of_real (st : QuantumState) (o : Observable) (x : R) :
  existsb (fun w => (num_qubits st <=? w)%nat) (obs_wires o) = false ->
  raw_expectation st o = (x, 0) ->
  expval st o = Ok x.
Proof.
  intros Hw Hraw. unfold expval. rewrite Hw, Hraw. simpl.
  destruct (Rle_dec (Rabs 0) imag_tolerance) as [_|Hn]; [reflexivity|].
  exfalso; apply Hn. rewrite Rabs_R0. unfold imag_tolerance. lra.
Qed.

Lemma cos_double (x : R) :
  cos x = cos (x / 2) * cos (x / 2) - sin (x / 2) * sin (x / 2).
Proof. replace x with (2 * (x / 2)) at 1 by field. apply cos_2a. Qed.

(** ** Numerical enclosures of the cosine *)

Lemma cos_approx_5 (a : R) :
  cos_approx a 5
  = 1 - a^2/2 + a^4/24 - a^6/720 + a^8/40320 - a^10/3628800.
Proof.
  unfold cos_approx, cos_term. cbn [sum_f_R0 Nat.mul Nat.add].
  repeat (rewrite fact_simpl, mult_INR). change (Factorial.fact 0) with 1%nat.
  cbn [INR]. field.
Qed.

Lemma cos_approx_6 (a : R) :
  cos_approx a 6
  = 1 - a^2/2 + a^4/24 - a^6/720 + a^8/40320 - a^10/3628800
    + a^12/479001600.
Proof.
  unfold cos_approx, cos_term. cbn [sum_f_R0 Nat.mul Nat.add].
  repeat (rewrite fact_simpl, mult_INR). change (Factorial.fact 0) with 1%nat.
  cbn [INR]. field.
Qed.

Lemma cos_enclosure (a : R) :
  -2 <= a <= 2 ->
  1 - a^2/2 + a^4/24 - a^6/720 + a^8/40320 - a^10/3628800 <= cos a
  <= 1 - a^2/2 + a^4/24 - a^6/720 + a^8/40320 - a^10/3628800
     + a^12/479001600.
Proof.
  intros [H1 H2]. pose proof (pre_cos_bound a 2 H1 H2) as H.
  change (2 * 2 + 1)%nat with 5%nat in H.
  change (2 * (2 + 1))%nat with 6%nat in H.
  rewrite cos_approx_5, cos_approx_6 in H. exact H.
Qed.

(** The value the notebook prints for [circuit([0.54, 0.12])]. *)
Lemma cos_054_cos_012 :
  Rabs (cos (54 / 100) * cos (12 / 100) - 8515405859 / 10000000000)
  < 1 / 1000000000.
Proof.
  destruct (cos_enclosure (54 / 100)) as [L1 U1]; [lra|].
  destruct (cos_enclosure (12 / 100)) as [L2 U2]; [lra|].
  set (c1 := cos (54 / 100)) in *. set (c2 := cos (12 / 100)) in *.
  match type of L1 with ?l <= _ => set (l1 := l) in * end.
  match type of U1 with _ <= ?u => set (u1 := u) in * end.
  match type of L2 with ?l <= _ => set (l2 := l) in * end.
  match type of U2 with _ <= ?u => set (u2 := u) in * end.
  assert (Hl1 : 0 <= l1) by (unfold l1; lra).
  assert (Hl2 : 0 <= l2) by (unfold l2; lra).
  assert (Hlo : l1 * l2 <= c1 * c2) by (apply Rmult_le_compat; lra).
  assert (Hhi : c1 * c2 <= u1 * u2) by (apply Rmult_le_compat; lra).
  assert (Hll : 8515405859 / 10000000000 - 1 / 1000000000 < l1 * l2)
    by (unfold l1, l2; lra).
  assert (Huu : u1 * u2 < 8515405859 / 10000000000 + 1 / 1000000000)
    by (unfold u1, u2, l1, l2; lra).
  apply Rabs_def1; lra.
Qed.

(** ** basic_qubit_rotation.ipynb *)

Lemma qubit_rotation_state (phi1 phi2 : R) :
  run_circuit (initial_state QubitRotation.dev1)
    [GateOp (RX phi1) [0%nat]; GateOp (RY phi2) [0%nat]]
  = Ok (PureState 1
      [ (cos (phi2 / 2) * cos (phi1 / 2), sin (phi2 / 2) * sin (phi1 / 2));
        (sin (phi2 / 2) * cos (phi1 / 2),
         - (cos (phi2 / 2) * sin (phi1 / 2))) ]).
Proof. sim_compute. struct_eq; ring. Qed.

Lemma circuit_value (phi1 phi2 : R) :
  QubitRotation.circuit [phi1; phi2] = Ok (cos phi1 * cos phi2).
Proof.
  unfold QubitRotation.circuit, index. cbn [nth_error bind].
  unfold evaluate. rewrite qubit_rotation_state. cbn [bind].
  apply expval_of_real; [reflexivity|].
  sim_compute. rewrite (cos_double phi1), (cos_double phi2).
  struct_eq; ring.
Qed.

(** C1. For the circuit RX(phi1), RY(phi2) on |0>, the expectation value
    of Pauli-Z is exactly cos(phi1) * cos(phi2) for all real angles, and at
    phi1 = 0.54, phi2 = 0.12 it is the printed 0.8515405859 to within
    1e-9. *)
Theorem qubit_rotation_expectation :
  (forall phi1 phi2 : R,
     QubitRotation.circuit [phi1; phi2] = Ok (cos phi1 * cos phi2)) /\
  exists v, QubitRotation.circuit [54 / 100; 12 / 100] = Ok v /\
            Rabs (v - 8515405859 / 10000000000) < 1 / 1000000000 /\
            Rabs (v - 8515 / 10000) < 1 / 10000.
Proof.
  split; [exact circuit_value|].
  exists (cos (54 / 100) * cos (12 / 100)).
  pose proof cos_054_cos_012 as H.
  split; [apply circuit_value|]. split; [exact H|].
  apply Rabs_def2 in H. apply Rabs_def1; lra.
Qed.

(** ** Using JAX with PennyLane *)

Lemma jax_circuit_state (theta : R) :
  run_circuit (initial_state JaxTutorial.dev)
    [GateOp (RX theta) [0%nat]; GateOp CNOT [0%nat; 1%nat]]
  = Ok (PureState 2
      [ (cos (theta / 2), 0); (0, 0); (0, 0); (0, - sin (theta / 2)) ]).
Proof. sim_compute. struct_eq; ring. Qed.

Lemma jax_rotation_state (theta : R) :
  run_circuit (initial_state JaxTutorial.dev) [GateOp (RX theta) [0%nat]]
  = Ok (PureState 2
      [ (cos (theta / 2), 0); (0, 0); (0, - sin (theta / 2)); (0, 0) ]).
Proof. sim_compute. struct_eq; ring. Qed.

Lemma jax_circuit_value (theta : R) : JaxTutorial.circuit theta = Ok (cos theta).
Proof.
  unfold JaxTutorial.circuit, evaluate.
  rewrite jax_circuit_state. cbn [bind].
  apply expval_of_real; [reflexivity|].
  sim_compute. rewrite (cos_double theta). struct_eq; ring.
Qed.

Lemma jax_rotation_value (theta : R) :
  JaxTutorial.rotation_only theta = Ok (cos theta).
Proof.
  unfold JaxTutorial.rotation_only, evaluate.
  rewrite jax_rotation_state. cbn [bind].
  apply expval_of_real; [reflexivity|].
  sim_compute. rewrite (cos_double theta). struct_eq; ring.
Qed.

(** Pauli-Z on the control wire commutes with CNOT, on every two-qubit
    amplitude vector. *)
Lemma pauli_z_commutes_with_cnot (a b c d : C) :
  apply_matrix 2 sigma_z [0%nat]
    (apply_matrix 2 (gate_matrix CNOT) [0%nat; 1%nat] [a; b; c; d])
  = apply_matrix 2 (gate_matrix CNOT) [0%nat; 1%nat]
      (apply_matrix 2 sigma_z [0%nat] [a; b; c; d]).
Proof.
  destruct a, b, c, d. sim_compute. struct_eq; ring.
Qed.

(** C10. For RX(theta) on qubit 0 followed by CNOT(0, 1), the expectation
    value of Pauli-Z on qubit 0 is cos(theta) for every theta, the same as
    without the CNOT. *)
Theorem jax_circuit_expectation (theta : R) :
  JaxTutorial.circuit theta = Ok (cos theta) /\
  JaxTutorial.circuit theta = JaxTutorial.rotation_only theta.
Proof.
  rewrite jax_circuit_value, jax_rotation_value. split; reflexivity.
Qed.

(** ** noisy_circuits.ipynb *)

Lemma bell_state_mixed :
  run_circuit (initial_state NoisyCircuits.dev) NoisyCircuits.bell_ops
  = Ok (MixedState 2 bell_density).
Proof.
  pose proof inv_sqrt2_sqr as Hs.
  sim_compute. set (s := / sqrt 2) in *.
  struct_eq; nra.
Qed.

Lemma bell_state_pure :
  run_circuit (initial_state (device "default.qubit" 2)) NoisyCircuits.bell_ops
  = Ok (PureState 2 [ (/ sqrt 2, 0); (0, 0); (0, 0); (/ sqrt 2, 0) ]).
Proof. sim_compute. struct_eq; ring. Qed.

(** C5. The Bell-state circuit (Hadamard on qubit 0, then CNOT(0, 1))
    gives <Z (x) Z> = 1 exactly, on the pure-state simulation and on the
    density-matrix device the notebook uses. *)
Theorem bell_state_zz :
  NoisyCircuits.circuit_on (device "default.qubit" 2) = Ok 1 /\
  NoisyCircuits.circuit = Ok 1.
Proof.
  split.
  - unfold NoisyCircuits.circuit_on, evaluate.
    rewrite bell_state_pure. cbn [bind].
    apply expval_of_real; [reflexivity|].
    pose proof inv_sqrt2_sqr as Hs.
    sim_compute. set (s := / sqrt 2) in *. struct_eq; nra.
  - unfold NoisyCircuits.circuit, evaluate.
    rewrite bell_state_mixed. cbn [bind].
    apply expval_of_real; [reflexivity|].
    sim_compute. struct_eq; field.
Qed.

Lemma bitflip_wire0 (p : R) :
  0 <= p <= 1 ->
  apply_channel (MixedState 2 bell_density) (BitFlip p) 0
  = Ok (MixedState 2 (flipped_once p)).
Proof.
  intros Hp.
  assert (Hu : sqrt (1 - p) * sqrt (1 - p) = 1 - p) by (apply sqrt_sqrt; lra).
  assert (Hv : sqrt p * sqrt p = p) by (apply sqrt_sqrt; lra).
  sim_compute. set (u := sqrt (1 - p)) in *. set (v := sqrt p) in *.
  struct_eq; nra.
Qed.

Lemma bitflip_wire1 (p : R) :
  0 <= p <= 1 ->
  apply_channel (MixedState 2 (flipped_once p)) (BitFlip p) 1
  = Ok (MixedState 2 (flipped_twice p)).
Proof.
  intros Hp.
  assert (Hu : sqrt (1 - p) * sqrt (1 - p) = 1 - p) by (apply sqrt_sqrt; lra).
  assert (Hv : sqrt p * sqrt p = p) by (apply sqrt_sqrt; lra).
  sim_compute. set (u := sqrt (1 - p)) in *. set (v := sqrt p) in *.
  struct_eq; nra.
Qed.

Lemma run_circuit_app (st : QuantumState) (ops1 ops2 : list Operation) :
  run_circuit st (ops1 ++ ops2)
  = (st' <- run_circuit st ops1 ;; run_circuit st' ops2).
Proof.
  revert st; induction ops1 as [|op ops1 IH]; intros st; simpl.
  - reflexivity.
  - destruct (apply_operation st op); simpl; auto.
Qed.

(** The state the device holds after [bitflip_circuit(p)]. *)
Lemma bitflip_state (p : R) :
  0 <= p <= 1 ->
  run_circuit (initial_state NoisyCircuits.dev)
    (NoisyCircuits.bell_ops
       ++ [ChannelOp (BitFlip p) 0; ChannelOp (BitFlip p) 1])
  = Ok (MixedState 2 (flipped_twice p)).
Proof.
  intros Hp. rewrite run_circuit_app, bell_state_mixed.
  cbn [bind run_circuit apply_operation].
  rewrite bitflip_wire0 by exact Hp. cbn [bind].
  rewrite bitflip_wire1 by exact Hp. reflexivity.
Qed.

Lemma zz_flipped_twice (p : R) :
  expval (MixedState 2 (flipped_twice p)) NoisyCircuits.ZZ
  = Ok ((1 - 2 * p) ^ 2).
Proof.
  apply expval_of_real; [reflexivity|].
  sim_compute. struct_eq; field.
Qed.

Lemma bitflip_value (p : R) :
  0 <= p <= 1 -> NoisyCircuits.bitflip_circuit p = Ok ((1 - 2 * p) ^ 2).
Proof.
  intros Hp. unfold NoisyCircuits.bitflip_circuit, evaluate.
  rewrite bitflip_state by exact Hp. cbn [bind].
  apply zz_flipped_twice.
Qed.

(** C3. A bit-flip channel with probability [p] on each qubit of the Bell
    state gives <Z (x) Z> = (1 - 2p)^2; for p = 0.2 the value is within
    1e-3 of 0.36. *)
Theorem bitflip_zz (p : R) :
  0 <= p <= 1 ->
  NoisyCircuits.bitflip_circuit p = Ok ((1 - 2 * p) ^ 2) /\
  exists v, NoisyCircuits.bitflip_circuit (2 / 10) = Ok v /\
            Rabs (v - 36 / 100) <= 1 / 1000.
Proof.
  intros Hp. split; [apply bitflip_value; exact Hp|].
  exists ((1 - 2 * (2 / 10)) ^ 2).
  split; [apply bitflip_value; lra|].
  replace ((1 - 2 * (2 / 10)) ^ 2 - 36 / 100) with 0 by field.
  rewrite Rabs_R0. lra.
Qed.

Lemma bitflip_zz_witness :
  0 <= 2 / 10 <= 1 /\
  NoisyCircuits.bitflip_circuit (2 / 10) = Ok ((1 - 2 * (2 / 10)) ^ 2) /\
  exists v, NoisyCircuits.bitflip_circuit (2 / 10) = Ok v /\
            Rabs (v - 36 / 100) <= 1 / 1000.
Proof.
  split; [lra|]. apply (bitflip_zz (2 / 10)). lra.
Defined.

(* ================================================================== *)
(** * Bounds on sine, cosine and PI *)
(* ================================================================== *)

Lemma PI_upper : PI <= 16 / 5.
Proof.
  destruct (Rle_or_lt (PI / 2) (8 / 5)) as [H|H]; [lra|].
  exfalso.
  assert (Hpos : 0 < cos (8 / 5)).
  { apply cos_gt_0; [|exact H]. pose proof PI_RGT_0. lra. }
  destruct (cos_enclosure (8 / 5)) as [_ U]; [lra|]. lra.
Qed.

Lemma sin_lower (x : R) : 0 <= x <= 4 -> x - x^3 / 6 <= sin x.
Proof.
  intros [H0 H4]. pose proof (pre_sin_bound x 0 H0 H4) as [L _].
  change (2 * 0 + 1)%nat with 1%nat in L.
  unfold sin_approx, sin_term in L. cbn [sum_f_R0 Nat.mul Nat.add] in L.
  repeat (rewrite fact_simpl, mult_INR in L).
  change (Factorial.fact 0) with 1%nat in L. cbn [INR] in L.
  lra.
Qed.

Lemma sin_upper (x : R) : 0 <= x -> sin x <= x.
Proof.
  intros [H|<-]; [left; apply sin_lt_x; exact H | rewrite sin_0; lra].
Qed.

Lemma cos_lower (x : R) : 1 - x^2 / 2 <= cos x.
Proof.
  pose proof (COS_bound x) as [Hc _].
  destruct (Rle_or_lt (-2) x) as [Hlo|Hlo]; [|nra].
  destruct (Rle_or_lt x 2) as [Hhi|Hhi]; [|nra].
  pose proof (pre_cos_bound x 0 Hlo Hhi) as [L _].
  change (2 * 0 + 1)%nat with 1%nat in L.
  unfold cos_approx, cos_term in L. cbn [sum_f_R0 Nat.mul Nat.add] in L.
  repeat (rewrite fact_simpl, mult_INR in L).
  change (Factorial.fact 0) with 1%nat in L. cbn [INR] in L.
  lra.
Qed.

(* ================================================================== *)
(** * Parameter-shift gradient of the rotation circuit *)
(* ================================================================== *)

Lemma cos_shift_plus (x : R) : cos (x + PI / 2) = - sin x.
Proof. rewrite cos_plus, cos_PI2, sin_PI2. ring. Qed.

Lemma cos_shift_minus (x : R) : cos (x + - (PI / 2)) = sin x.
Proof. rewrite cos_plus, cos_neg, sin_neg, cos_PI2, sin_PI2. ring. Qed.

Lemma dcircuit_value (a b : R) :
  QubitRotation.dcircuit [a; b] = Ok [- (sin a * cos b); - (cos a * sin b)].
Proof.
  unfold QubitRotation.dcircuit, gradient, shift_param.
  cbn [length seq mapM nth set_nth].
  rewrite !circuit_value. cbn [bind].
  rewrite !cos_shift_plus, !cos_shift_minus, sin_PI2.
  struct_eq; field.
Qed.

Lemma finite_difference_value (a b eps : R) :
  eps <> 0 ->
  finite_difference QubitRotation.circuit [a; b] eps
  = Ok [- (sin a * cos b) * (sin eps / eps);
        - (cos a * sin b) * (sin eps / eps)].
Proof.
  intros He. unfold finite_difference, shift_param.
  cbn [length seq mapM nth set_nth].
  rewrite !circuit_value. cbn [bind].
  rewrite !cos_plus, !cos_neg, !sin_neg.
  struct_eq; field; exact He.
Qed.

Lemma grad_circuit_value (theta : R) :
  JaxTutorial.grad_circuit theta = Ok (- sin theta).
Proof.
  unfold JaxTutorial.grad_circuit, gradient, shift_param, index.
  cbn [length seq mapM nth set_nth nth_error bind].
  rewrite !jax_circuit_value. cbn [bind nth_error].
  rewrite cos_shift_plus, cos_shift_minus, sin_PI2.
  struct_eq. field.
Qed.

Lemma jax_finite_difference_value (theta eps : R) :
  eps <> 0 ->
  finite_difference (fun ps => p <- index ps 0 ;; JaxTutorial.circuit p)
    [theta] eps
  = Ok [- sin theta * (sin eps / eps)].
Proof.
  intros He. unfold finite_difference, shift_param, index.
  cbn [length seq mapM nth set_nth nth_error bind].
  rewrite !jax_circuit_value. cbn [bind].
  rewrite !cos_plus, !cos_neg, !sin_neg.
  struct_eq; field; exact He.
Qed.

Lemma sinc_defect (eps : R) :
  0 < eps <= 1 / 50 -> 0 <= 1 - sin eps / eps <= 1 / 15000.
Proof.
  intros [H0 H1].
  pose proof (sin_lower eps ltac:(lra)) as Hl.
  pose proof (sin_upper eps ltac:(lra)) as Hu.
  assert (Heq : 1 - sin eps / eps = (eps - sin eps) / eps) by (field; lra).
  rewrite Heq.
  assert (Hinv : 0 < / eps) by (apply Rinv_0_lt_compat; exact H0).
  split.
  - unfold Rdiv. apply Rmult_le_pos; lra.
  - apply (Rmult_le_reg_r eps); [exact H0|].
    unfold Rdiv. rewrite Rmult_assoc, Rinv_l by lra.
    assert (eps ^ 3 <= 1 / 2500 * eps) by nra.
    lra.
Qed.

Lemma product_defect (k d : R) :
  -1 <= k <= 1 -> 0 <= d <= 1 / 15000 ->
  Rabs (- k - - k * (1 - d)) <= 1 / 10000.
Proof.
  intros Hk Hd.
  replace (- k - - k * (1 - d)) with (- (k * d)) by ring.
  rewrite Rabs_Ropp. apply Rabs_le. nra.
Qed.

Lemma sin_cos_product_bound (a b : R) : -1 <= sin a * cos b <= 1.
Proof.
  pose proof (SIN_bound a). pose proof (COS_bound b). nra.
Qed.

Lemma cos_sin_product_bound (a b : R) : -1 <= cos a * sin b <= 1.
Proof.
  pose proof (COS_bound a). pose proof (SIN_bound b). nra.
Qed.

Lemma RtoC_mult (a b : R) : RtoC (a * b) = Cmult (RtoC a) (RtoC b).
Proof. apply C_eq; simpl; ring. Qed.

Lemma Cre_scale (k : R) (z : C) : Cre (Cmult (RtoC k) z) = k * Cre z.
Proof. destruct z. simpl. ring. Qed.

Lemma Cconj_real_combination (c s : R) (x y : C) :
  Cconj (Cplus (Cmult (RtoC c) x) (Cmult (RtoC s) y))
  = Cplus (Cmult (RtoC c) (Cconj x)) (Cmult (RtoC s) (Cconj y)).
Proof. destruct x, y. apply C_eq; simpl; ring. Qed.

Lemma nth_lin (N : nat) (c s : C) (a b : list C) (i : nat) :
  (i < N)%nat ->
  nth i (lin N c a s b) C0
  = Cplus (Cmult c (nth i a C0)) (Cmult s (nth i b C0)).
Proof.
  intros Hi. unfold lin.
  apply (nth_map_seq (fun i => Cplus (Cmult c (nth i a C0))
                                     (Cmult s (nth i b C0)))).
  exact Hi.
Qed.

(** Gate application is linear in the amplitudes. *)
Lemma apply_matrix_lin (n : nat) (m : Matrix) (idxs : list nat) (c s : C)
  (a b : list C) :
  apply_matrix n m idxs (lin (2 ^ n) c a s b)
  = lin (2 ^ n) c (apply_matrix n m idxs a) s (apply_matrix n m idxs b).
Proof.
  unfold apply_matrix at 1. unfold lin at 2.
  apply map_ext_in. intros i Hi. apply in_seq in Hi.
  rewrite !nth_apply_matrix by lia.
  rewrite !Csum_mult_l, <- Csum_plus.
  apply Csum_ext. intros j Hj.
  rewrite nth_lin by apply with_local_bound. ring.
Qed.

(** A rotation gate splits the amplitudes into a cosine and a sine part. *)
Lemma apply_rotation (n : nat) (Rot : R -> Gate) (G : Matrix) (w : nat)
  (t : R) (x : list C) :
  rotation_family Rot G ->
  apply_matrix n (gate_matrix (Rot t)) [w] x
  = lin (2 ^ n) (RtoC (cos (t / 2))) (apply_matrix n identity2 [w] x)
        (RtoC (sin (t / 2))) (apply_matrix n G [w] x).
Proof.
  intros HR. destruct (HR t) as [_ He].
  unfold apply_matrix at 1. unfold lin.
  apply map_ext_in. intros i Hi. apply in_seq in Hi.
  rewrite !nth_apply_matrix by lia.
  rewrite !Csum_mult_l, <- Csum_plus.
  apply Csum_ext. intros j Hj.
  pose proof (local_index_bound n [w] i) as Hl.
  rewrite He by exact Hl || exact Hj. ring.
Qed.

Lemma run_amps_lin (n : nat) (ops : list Operation) (c s : C) :
  forall a b,
    run_amps n ops (lin (2 ^ n) c a s b)
    = lin (2 ^ n) c (run_amps n ops a) s (run_amps n ops b).
Proof.
  induction ops as [|[g ws|ch k] ops IH]; intros a b; cbn [run_amps].
  - reflexivity.
  - rewrite apply_matrix_lin. apply IH.
  - apply IH.
Qed.

(** Whether a circuit runs on an amplitude vector does not depend on the
    amplitudes: it runs on all of them or on none. *)
Lemma run_circuit_gates (n : nat) (ops : list Operation) :
  forall (x : list C) (st : QuantumState),
    run_circuit (PureState n x) ops = Ok st ->
    forall y, run_circuit (PureState n y) ops
              = Ok (PureState n (run_amps n ops y)).
Proof.
  induction ops as [|[g ws|ch k] ops IH]; intros x st H y.
  - reflexivity.
  - cbn [run_circuit apply_operation run_amps] in *.
    unfold apply_gate in *. cbn [num_qubits] in *.
    destruct (bad_wires n (gate_arity g) ws); [discriminate|].
    cbn [bind] in *. eapply IH. exact H.
  - cbn [run_circuit apply_operation apply_channel bind] in H. discriminate.
Qed.

Lemma inner_map {A} (f g : A -> C) (l : list A) :
  inner (map f l) (map g l)
  = fold_right Cplus C0 (map (fun i => Cmult (Cconj (f i)) (g i)) l).
Proof.
  unfold inner. induction l as [|a l IH]; [reflexivity|].
  cbn [map combine fold_right fst snd]. rewrite IH. reflexivity.
Qed.

(** The overlap [sum_i conj(x_i) y_i] on the first [N] entries. *)
Lemma inner_lin (N : nat) (c s : R) (a b a' b' : list C) :
  inner (lin N (RtoC c) a (RtoC s) b) (lin N (RtoC c) a' (RtoC s) b')
  = Cplus (Cplus (Cmult (RtoC (c * c)) (inner (lin N C1 a C0 a) (lin N C1 a' C0 a')))
                 (Cmult (RtoC (c * s))
                    (Cplus (inner (lin N C1 a C0 a) (lin N C1 b' C0 b'))
                           (inner (lin N C1 b C0 b) (lin N C1 a' C0 a')))))
          (Cmult (RtoC (s * s)) (inner (lin N C1 b C0 b) (lin N C1 b' C0 b'))).
Proof.
  unfold lin. rewrite !inner_map, !RtoC_mult.
  induction (seq 0 N) as [|i l IH]; cbn [map fold_right].
  - ring.
  - rewrite IH. rewrite Cconj_real_combination.
    replace (Cconj (Cplus (Cmult C1 (nth i a C0)) (Cmult C0 (nth i a C0))))
      with (Cconj (nth i a C0)) by (f_equal; ring).
    replace (Cconj (Cplus (Cmult C1 (nth i b C0)) (Cmult C0 (nth i b C0))))
      with (Cconj (nth i b C0)) by (f_equal; ring).
    ring.
Qed.


Lemma run_circuit_pure_ok (n : nat) (ops : list Operation) (x : list C)
  (st : QuantumState) :
  run_circuit (PureState n x) ops = Ok st ->
  st = PureState n (run_amps n ops x).
Proof.
  intros H. pose proof (run_circuit_gates n ops x st H x) as H'.
  rewrite H in H'. injection H' as ->. reflexivity.
Qed.

(** The state of the circuit at angle [t], given that the circuit runs at
    one angle: a cosine part and a sine part that do not depend on [t]. *)
Lemma rotation_state (n : nat) (x0 : list C) (pre post : list Operation)
  (Rot : R -> Gate) (G : Matrix) (w : nat) (t0 : R) (st : QuantumState) :
  rotation_family Rot G ->
  run_circuit (PureState n x0) (pre ++ GateOp (Rot t0) [w] :: post) = Ok st ->
  exists A B : list C,
    forall t,
      run_circuit (PureState n x0) (pre ++ GateOp (Rot t) [w] :: post)
      = Ok (PureState n (lin (2 ^ n) (RtoC (cos (t / 2))) A
                                      (RtoC (sin (t / 2))) B)).
Proof.
  intros HR H. rewrite run_circuit_app in H.
  destruct (run_circuit (PureState n x0) pre) as [st1|e] eqn:Hpre;
    [|discriminate].
  pose proof (run_circuit_pure_ok n pre x0 st1 Hpre) as ->.
  cbn [bind run_circuit apply_operation] in H.
  unfold apply_gate in H. cbn [num_qubits] in H.
  destruct (HR t0) as [Hat0 _]. rewrite Hat0 in H.
  destruct (bad_wires n 1 [w]) eqn:Hbad; [discriminate|].
  cbn [bind] in H.
  pose proof (run_circuit_gates n post _ st H) as Hpost.
  set (x1 := run_amps n pre x0) in *.
  exists (run_amps n post (apply_matrix n identity2 [w] x1)),
         (run_amps n post (apply_matrix n G [w] x1)).
  intros t. rewrite run_circuit_app, Hpre.
  cbn [bind run_circuit apply_operation].
  unfold apply_gate. cbn [num_qubits].
  destruct (HR t) as [Hat _]. rewrite Hat, Hbad. cbn [bind].
  rewrite Hpost. rewrite (apply_rotation n Rot G w t x1 HR).
  rewrite run_amps_lin. reflexivity.
Qed.

Lemma half_angle_form (al be ga t : R) :
  cos (t / 2) * cos (t / 2) * al + cos (t / 2) * sin (t / 2) * ga
  + sin (t / 2) * sin (t / 2) * be
  = (al + be) / 2 + (al - be) / 2 * cos t + ga / 2 * sin t.
Proof.
  pose proof (sin2_cos2_half t) as H1.
  rewrite (cos_double t).
  assert (H2 : sin t = 2 * sin (t / 2) * cos (t / 2)).
  { replace t with (2 * (t / 2)) at 1 by field. apply sin_2a. }
  rewrite H2.
  set (c := cos (t / 2)) in *. set (s := sin (t / 2)) in *.
  replace (c * c * al + c * s * ga + s * s * be)
    with ((al + be) / 2 + (al - be) / 2 * (c * c - s * s)
          + ga / 2 * (2 * s * c)
          + (al + be) / 2 * (s * s + c * c - 1)) by field.
  rewrite H1. field.
Qed.

(** The cost of a circuit is a sinusoid in the angle of each of its
    rotation gates, on every pure-state device, whatever the other
    operations and the observable, as soon as it evaluates. *)
Lemma rotation_cost_sinusoidal (dev : Device) (pre post : list Operation)
  (Rot : R -> Gate) (G : Matrix) (w : nat) (o : Observable) :
  rotation_family Rot G ->
  device_mixed dev = false ->
  (forall t, exists e, rotation_cost dev pre Rot w post o t = Ok e) ->
  exists a0 b0 c0 : R,
    forall t, rotation_cost dev pre Rot w post o t
              = Ok (a0 + b0 * cos t + c0 * sin t).
Proof.
  intros HR Hdev Hok.
  unfold rotation_cost, evaluate, initial_state in *. rewrite Hdev in *.
  unfold zero_state in *.
  set (n := device_wires dev) in *.
  set (x0 := map (fun i => if (i =? 0)%nat then C1 else C0) (seq 0 (2 ^ n)))
    in *.
  destruct (Hok 0) as [e0 H0].
  destruct (run_circuit (PureState n x0) (pre ++ GateOp (Rot 0) [w] :: post))
    as [st|err] eqn:Hrun; [|discriminate].
  destruct (rotation_state n x0 pre post Rot G w 0 st HR Hrun) as [A [B Hst]].
  set (A' := apply_matrix n (obs_matrix o) (obs_wires o) A).
  set (B' := apply_matrix n (obs_matrix o) (obs_wires o) B).
  set (N := (2 ^ n)%nat) in *.
  set (al := Cre (inner (lin N C1 A C0 A) (lin N C1 A' C0 A'))).
  set (be := Cre (inner (lin N C1 B C0 B) (lin N C1 B' C0 B'))).
  set (ga := Cre (Cplus (inner (lin N C1 A C0 A) (lin N C1 B' C0 B'))
                        (inner (lin N C1 B C0 B) (lin N C1 A' C0 A')))).
  exists ((al + be) / 2), ((al - be) / 2), (ga / 2).
  intros t. destruct (Hok t) as [e He]. rewrite He.
  rewrite Hst in He. cbn [bind] in He. unfold expval in He.
  destruct (existsb _ _); [discriminate|].
  destruct (Rle_dec _ _); [|discriminate].
  injection He as <-. f_equal.
  cbn [raw_expectation]. fold N.
  rewrite apply_matrix_lin. fold A' B'. fold N.
  rewrite inner_lin.
  rewrite <- half_angle_form.
  unfold al, be, ga, Cre. cbn [fst snd Cplus Cmult RtoC]. ring.
Qed.

Lemma sin_shift_plus (x : R) : sin (x + PI / 2) = cos x.
Proof. rewrite sin_plus, cos_PI2, sin_PI2. ring. Qed.

Lemma sin_shift_minus (x : R) : sin (x + - (PI / 2)) = - cos x.
Proof. rewrite sin_plus, cos_neg, sin_neg, cos_PI2, sin_PI2. ring. Qed.

Lemma sinusoid_derivative (a0 b0 c0 x : R) :
  derivable_pt_lim (fun t => a0 + b0 * cos t + c0 * sin t) x
                   (- b0 * sin x + c0 * cos x).
Proof.
  replace (- b0 * sin x + c0 * cos x)
    with (0 + b0 * - sin x + c0 * cos x) by ring.
  apply (derivable_pt_lim_plus
           (fct_cte a0 + mult_real_fct b0 cos)%F (mult_real_fct c0 sin)).
  - apply (derivable_pt_lim_plus (fct_cte a0) (mult_real_fct b0 cos)).
    + apply derivable_pt_lim_const.
    + apply derivable_pt_lim_scal, derivable_pt_lim_cos.
  - apply derivable_pt_lim_scal, derivable_pt_lim_sin.
Qed.

(** For a cost that is a sinusoid in its parameter, the parameter-shift
    rule gives the derivative and the central difference gives the
    derivative times [sin eps / eps]. *)
Lemma sinusoid_gradients (cost : R -> Result R) (a0 b0 c0 theta eps : R) :
  (forall t, cost t = Ok (a0 + b0 * cos t + c0 * sin t)) ->
  eps <> 0 ->
  gradient (one_parameter cost) [theta] (PI / 2)
  = Ok [- b0 * sin theta + c0 * cos theta] /\
  finite_difference (one_parameter cost) [theta] eps
  = Ok [(- b0 * sin theta + c0 * cos theta) * (sin eps / eps)].
Proof.
  intros Hc He.
  unfold gradient, finite_difference, shift_param, one_parameter, index.
  cbn [length seq mapM nth set_nth nth_error bind].
  rewrite !Hc. cbn [bind]. split.
  - rewrite cos_shift_plus, cos_shift_minus, sin_shift_plus, sin_shift_minus,
      sin_PI2.
    struct_eq. field.
  - rewrite !cos_plus, !sin_plus, !cos_neg, !sin_neg.
    struct_eq. field. exact He.
Qed.

Lemma RX_rotation_family : rotation_family RX RX_generator.
Proof.
  intros theta. split; [reflexivity|].
  intros a j Ha Hj. case_lt a; case_lt j; sim_compute; struct_eq; ring.
Qed.

Lemma RY_rotation_family : rotation_family RY RY_generator.
Proof.
  intros theta. split; [reflexivity|].
  intros a j Ha Hj. case_lt a; case_lt j; sim_compute; struct_eq; ring.
Qed.

(** C4. For the angle of every single-qubit rotation gate
    [cos(theta/2) I + sin(theta/2) G] (RX and RY are such gates), at any
    place of any circuit on a pure-state device whose expectation-value
    cost evaluates to a number in [-1, 1] at every angle: the cost is a
    function of the angle, the parameter-shift rule
    (cost(theta + PI/2) - cost(theta - PI/2)) / (2 sin(PI/2)) returns
    exactly its derivative, and the central finite-difference estimate
    with any step 0 < eps <= 0.02 is within 1e-4 of it.  In particular
    this holds for both entries of [dcircuit] in the qubit-rotation
    notebook, at all angles. *)
Theorem parameter_shift_matches_finite_difference
  (dev : Device) (pre post : list Operation) (Rot : R -> Gate) (G : Matrix)
  (w : nat) (o : Observable) (a b theta eps : R) :
  rotation_family Rot G ->
  device_mixed dev = false ->
  (forall t, exists e,
     rotation_cost dev pre Rot w post o t = Ok e /\ -1 <= e <= 1) ->
  0 < eps <= 1 / 50 ->
  (exists (f : R -> R) (g fd : R),
     (forall t, rotation_cost dev pre Rot w post o t = Ok (f t)) /\
     derivable_pt_lim f theta g /\
     gradient (one_parameter (rotation_cost dev pre Rot w post o)) [theta]
              (PI / 2) = Ok [g] /\
     finite_difference (one_parameter (rotation_cost dev pre Rot w post o))
                       [theta] eps = Ok [fd] /\
     Rabs (g - fd) <= 1 / 10000) /\
  (exists (F : R -> R -> R) (g0 g1 f0 f1 : R),
     (forall x y, QubitRotation.circuit [x; y] = Ok (F x y)) /\
     QubitRotation.dcircuit [a; b] = Ok [g0; g1] /\
     derivable_pt_lim (fun x => F x b) a g0 /\
     derivable_pt_lim (fun y => F a y) b g1 /\
     finite_difference QubitRotation.circuit [a; b] eps = Ok [f0; f1] /\
     Rabs (g0 - f0) <= 1 / 10000 /\ Rabs (g1 - f1) <= 1 / 10000).
Proof.
  intros HR Hdev Hok Heps.
  pose proof (sinc_defect eps Heps) as Hd.
  split.
  - destruct (rotation_cost_sinusoidal dev pre post Rot G w o HR Hdev)
      as [a0 [b0 [c0 Hf]]].
    { intros t. destruct (Hok t) as [e [He _]]. exists e. exact He. }
    destruct (sinusoid_gradients _ a0 b0 c0 theta eps Hf ltac:(lra))
      as [Hg Hfd].
    exists (fun t => a0 + b0 * cos t + c0 * sin t),
           (- b0 * sin theta + c0 * cos theta),
           ((- b0 * sin theta + c0 * cos theta) * (sin eps / eps)).
    split; [exact Hf|]. split; [apply sinusoid_derivative|].
    split; [exact Hg|]. split; [exact Hfd|].
    assert (Hb : -1 <= - (- b0 * sin theta + c0 * cos theta) <= 1).
    { destruct (Hok (theta + PI / 2)) as [e1 [He1 Hb1]].
      destruct (Hok (theta + - (PI / 2))) as [e2 [He2 Hb2]].
      rewrite Hf in He1, He2. injection He1 as <-. injection He2 as <-.
      rewrite cos_shift_plus, sin_shift_plus in Hb1.
      rewrite cos_shift_minus, sin_shift_minus in Hb2. lra. }
    set (k := - (- b0 * sin theta + c0 * cos theta)) in *.
    replace (- b0 * sin theta + c0 * cos theta) with (- k)
      by (unfold k; ring).
    replace (sin eps / eps) with (1 - (1 - sin eps / eps)) by ring.
    apply product_defect; [exact Hb | exact Hd].
  - exists (fun x y => cos x * cos y),
           (- (sin a * cos b)), (- (cos a * sin b)),
           (- (sin a * cos b) * (sin eps / eps)),
           (- (cos a * sin b) * (sin eps / eps)).
    split; [apply circuit_value|].
    split; [apply dcircuit_value|].
    split.
    { replace (- (sin a * cos b))
        with (- sin a * fct_cte (cos b) a + cos a * 0)
        by (unfold fct_cte; ring).
      apply (derivable_pt_lim_mult cos (fct_cte (cos b)));
        [apply derivable_pt_lim_cos | apply derivable_pt_lim_const]. }
    split.
    { replace (- (cos a * sin b))
        with (0 * cos b + fct_cte (cos a) b * - sin b)
        by (unfold fct_cte; ring).
      apply (derivable_pt_lim_mult (fct_cte (cos a)) cos);
        [apply derivable_pt_lim_const | apply derivable_pt_lim_cos]. }
    split; [apply finite_difference_value; lra|].
    split.
    + replace (sin eps / eps) with (1 - (1 - sin eps / eps)) by ring.
      apply product_defect; [apply sin_cos_product_bound | exact Hd].
    + replace (sin eps / eps) with (1 - (1 - sin eps / eps)) by ring.
      apply product_defect; [apply cos_sin_product_bound | exact Hd].
Qed.

(** The RX gate of the qubit-rotation circuit, followed by RY(0.12). *)
Lemma qubit_rotation_as_rotation_cost (b t : R) :
  rotation_cost QubitRotation.dev1 [] RX 0 [GateOp (RY b) [0%nat]] (PauliZ 0) t
  = Ok (cos t * cos b).
Proof.
  unfold rotation_cost. cbn [app].
  change (evaluate QubitRotation.dev1
            [GateOp (RX t) [0%nat]; GateOp (RY b) [0%nat]] (PauliZ 0))
    with (QubitRotation.circuit [t; b]).
  apply circuit_value.
Qed.

Lemma parameter_shift_matches_finite_difference_witness :
  rotation_family RX RX_generator /\
  device_mixed QubitRotation.dev1 = false /\
  (forall t, exists e,
     rotation_cost QubitRotation.dev1 [] RX 0
       [GateOp (RY (12 / 100)) [0%nat]] (PauliZ 0) t = Ok e /\
     -1 <= e <= 1) /\
  0 < 1 / 100 <= 1 / 50 /\
  (exists (f : R -> R) (g fd : R),
     (forall t, rotation_cost QubitRotation.dev1 [] RX 0
                  [GateOp (RY (12 / 100)) [0%nat]] (PauliZ 0) t = Ok (f t)) /\
     derivable_pt_lim f (54 / 100) g /\
     gradient (one_parameter
                 (rotation_cost QubitRotation.dev1 [] RX 0
                    [GateOp (RY (12 / 100)) [0%nat]] (PauliZ 0)))
              [54 / 100] (PI / 2) = Ok [g] /\
     finite_difference
       (one_parameter
          (rotation_cost QubitRotation.dev1 [] RX 0
             [GateOp (RY (12 / 100)) [0%nat]] (PauliZ 0)))
       [54 / 100] (1 / 100) = Ok [fd] /\
     Rabs (g - fd) <= 1 / 10000).
Proof.
  assert (Hok : forall t, exists e,
            rotation_cost QubitRotation.dev1 [] RX 0
              [GateOp (RY (12 / 100)) [0%nat]] (PauliZ 0) t = Ok e /\
            -1 <= e <= 1).
  { intros t. exists (cos t * cos (12 / 100)).
    split; [apply qubit_rotation_as_rotation_cost|].
    pose proof (COS_bound t). pose proof (COS_bound (12 / 100)). nra. }
  assert (Heps : 0 < 1 / 100 <= 1 / 50) by lra.
  split; [exact RX_rotation_family|]. split; [reflexivity|].
  split; [exact Hok|]. split; [exact Heps|].
  apply (parameter_shift_matches_finite_difference
           QubitRotation.dev1 [] [GateOp (RY (12 / 100)) [0%nat]] RX
           RX_generator 0 (PauliZ 0) (54 / 100) (12 / 100) (54 / 100)
           (1 / 100) RX_rotation_family eq_refl Hok Heps).
Defined.

(* ================================================================== *)
(** * Convergence of the gradient-descent loop *)
(* ================================================================== *)

Lemma iter_ascend_S (n : nat) (x : R) :
  iter_ascend (S n) x = ascend (iter_ascend n x).
Proof.
  revert x; induction n as [|n IH]; intros x; [reflexivity|].
  change (iter_ascend (S (S n)) x) with (iter_ascend (S n) (ascend x)).
  rewrite IH. reflexivity.
Qed.

Lemma iter_ascend_opp (n : nat) (x : R) :
  iter_ascend n (- x) = - iter_ascend n x.
Proof.
  revert x; induction n as [|n IH]; intros x; simpl; [reflexivity|].
  rewrite <- IH. f_equal. unfold ascend. rewrite sin_neg. ring.
Qed.

Lemma ascend_range (x : R) : 0 < x < PI -> x < ascend x < PI.
Proof.
  intros [H0 Hpi]. unfold ascend.
  assert (Hs : 0 < sin x) by (apply sin_gt_0; assumption).
  assert (Hy : sin (PI - x) < PI - x) by (apply sin_lt_x; lra).
  rewrite sin_PI_x in Hy. lra.
Qed.

Lemma iter_ascend_range (n : nat) (x : R) :
  0 < x < PI -> x <= iter_ascend n x < PI.
Proof.
  revert x; induction n as [|n IH]; intros x H; simpl; [lra|].
  pose proof (ascend_range x H) as Ha.
  specialize (IH (ascend x) ltac:(lra)). lra.
Qed.

(** Away from [PI] the angle grows by a third at every step. *)
Lemma ascend_growth (x : R) : 0 < x <= 1 -> 4 / 3 * x <= ascend x.
Proof.
  intros [H0 H1]. unfold ascend.
  pose proof (sin_lower x ltac:(lra)) as Hs.
  assert (x^3 <= x) by nra.
  lra.
Qed.

Lemma iter_ascend_growth (n : nat) (x : R) :
  0 < x < PI ->
  1 <= iter_ascend n x \/ (4 / 3) ^ n * x <= iter_ascend n x.
Proof.
  revert x; induction n as [|n IH]; intros x H.
  - right; simpl; lra.
  - rewrite iter_ascend_S.
    pose proof (iter_ascend_range n x H) as Hr.
    pose proof (ascend_range (iter_ascend n x) ltac:(lra)) as Ha.
    destruct (IH x H) as [H1|Hg]; [left; lra|].
    destruct (Rle_or_lt 1 (iter_ascend n x)) as [H1|H1]; [left; lra|].
    right.
    pose proof (ascend_growth (iter_ascend n x) ltac:(lra)) as Hgr.
    change ((4 / 3) ^ S n) with (4 / 3 * (4 / 3) ^ n). nra.
Qed.

Lemma ascend_descend (x : R) : PI - ascend x = descend (PI - x).
Proof. unfold ascend, descend. rewrite sin_PI_x. ring. Qed.

Lemma iter_ascend_descend (n : nat) (x : R) :
  PI - iter_ascend n x = iter_descend n (PI - x).
Proof.
  revert x; induction n as [|n IH]; intros x; simpl; [reflexivity|].
  rewrite IH, ascend_descend. reflexivity.
Qed.

Lemma iter_descend_add (n m : nat) (y : R) :
  iter_descend (n + m) y = iter_descend m (iter_descend n y).
Proof.
  revert y; induction n as [|n IH]; intros y; simpl; auto.
Qed.

Lemma descend_range (y : R) : 0 <= y <= PI -> 0 <= descend y <= y.
Proof.
  intros [H0 Hpi]. unfold descend.
  pose proof (sin_upper y H0). pose proof (sin_ge_0 y H0 Hpi). lra.
Qed.

Lemma descend_slow (y : R) : 0 <= y <= 11 / 5 -> descend y <= 346 / 375 * y.
Proof.
  intros [H0 H1]. unfold descend.
  pose proof (sin_lower y ltac:(lra)) as Hs.
  assert (y^3 <= 121 / 25 * y) by nra.
  lra.
Qed.

Lemma descend_fast (y : R) : 0 <= y <= 1 -> descend y <= 2 / 3 * y.
Proof.
  intros [H0 H1]. unfold descend.
  pose proof (sin_lower y ltac:(lra)) as Hs.
  assert (y^3 <= y) by nra.
  lra.
Qed.

(** A contraction factor [q] valid on [[0, b]] gives a geometric bound. *)
Lemma iter_descend_bound (q b : R) (n : nat) (y : R) :
  0 <= q -> b <= PI ->
  (forall z, 0 <= z <= b -> descend z <= q * z) ->
  0 <= y <= b ->
  0 <= iter_descend n y <= q ^ n * y.
Proof.
  intros Hq Hb Hstep. revert y; induction n as [|n IH]; intros y Hy.
  - simpl; lra.
  - cbn [iter_descend].
    pose proof (descend_range y ltac:(lra)) as Hr.
    pose proof (Hstep y Hy) as Hs.
    specialize (IH (descend y) ltac:(lra)).
    change (q ^ S n) with (q * q ^ n).
    assert (0 <= q ^ n) by (apply pow_le; exact Hq).
    split; [lra|]. nra.
Qed.

(** From any angle in [[1/1000, PI)], a hundred steps end within
    [(2/3)^63] of [PI]: 25 steps of growth up to 1, 12 steps of slow
    contraction of the distance down to 1, 63 steps of fast contraction. *)
Lemma hundred_steps (x : R) :
  1 / 1000 <= x < PI ->
  0 < PI - iter_ascend 100 x <= (2 / 3) ^ 63.
Proof.
  intros [Hx Hpi].
  assert (Hx0 : 0 < x < PI) by lra.
  pose proof PI_upper as Hpu.
  assert (H25 : 1 <= iter_ascend 25 x).
  { destruct (iter_ascend_growth 25 x Hx0) as [H|H]; [exact H|].
    assert ((4 / 3) ^ 25 * (1 / 1000) <= (4 / 3) ^ 25 * x).
    { apply Rmult_le_compat_l; [apply pow_le|]; lra. }
    assert (1 <= (4 / 3) ^ 25 * (1 / 1000)) by lra.
    lra. }
  pose proof (iter_ascend_range 25 x Hx0) as Hr25.
  set (y25 := PI - iter_ascend 25 x).
  assert (Hy25 : 0 <= y25 <= 11 / 5) by (unfold y25; lra).
  pose proof (iter_descend_bound (346 / 375) (11 / 5) 12 y25
                ltac:(lra) ltac:(pose proof PI2_3_2; lra)
                descend_slow Hy25) as H37.
  set (y37 := iter_descend 12 y25) in *.
  assert (Hy37 : 0 <= y37 <= 1).
  { split; [lra|].
    assert ((346 / 375) ^ 12 * y25 <= (346 / 375) ^ 12 * (11 / 5)).
    { apply Rmult_le_compat_l; [apply pow_le|]; lra. }
    assert ((346 / 375) ^ 12 * (11 / 5) <= 1) by lra.
    lra. }
  pose proof (iter_descend_bound (2 / 3) 1 63 y37
                ltac:(lra) ltac:(pose proof PI2_3_2; lra)
                descend_fast Hy37) as H100.
  assert (Heq : PI - iter_ascend 100 x = iter_descend 63 y37).
  { unfold y37, y25.
    rewrite iter_ascend_descend.
    change 100%nat with (25 + (12 + 63))%nat.
    rewrite iter_descend_add, iter_descend_add.
    rewrite <- iter_ascend_descend. reflexivity. }
  rewrite Heq.
  split.
  - rewrite <- Heq. pose proof (iter_ascend_range 100 x Hx0). lra.
  - assert (0 <= (2 / 3) ^ 63) by (apply pow_le; lra).
    assert ((2 / 3) ^ 63 * y37 <= (2 / 3) ^ 63 * 1).
    { apply Rmult_le_compat_l; lra. }
    lra.
Qed.

Lemma one_plus_cos_small (x : R) :
  1 / 1000 <= x < PI ->
  0 <= 1 + cos (iter_ascend 100 x) <= 1 / 10 ^ 20.
Proof.
  intros Hx. pose proof (hundred_steps x Hx) as [H0 H1].
  set (z := iter_ascend 100 x) in *.
  replace (cos z) with (- cos (PI - z))
    by (rewrite Rtrigo_facts.cos_pi_minus; ring).
  pose proof (cos_lower (PI - z)) as Hl.
  pose proof (COS_bound (PI - z)) as [_ Hu].
  split; [lra|].
  assert (Hsq : (PI - z) ^ 2 <= ((2 / 3) ^ 63) ^ 2).
  { apply pow_incr; lra. }
  assert (((2 / 3) ^ 63) ^ 2 / 2 <= 1 / 10 ^ 20) by lra.
  lra.
Qed.

(** ** The optimizer loop of the notebook *)

Lemma step_value (a b : R) :
  step QubitRotation.cost [a; b] QubitRotation.stepsize
  = Ok [a + 4 / 10 * (sin a * cos b); b + 4 / 10 * (cos a * sin b)].
Proof.
  unfold step. change (gradient QubitRotation.cost [a; b] (PI / 2))
    with (QubitRotation.dcircuit [a; b]).
  rewrite dcircuit_value. cbn [bind combine map fst snd].
  unfold QubitRotation.stepsize. struct_eq; ring.
Qed.

(** The loop acts on the sum and on the difference of the two angles. *)
Lemma optimize_value (n : nat) (a b : R) :
  QubitRotation.optimize n [a; b]
  = Ok [ (iter_ascend n (a + b) + iter_ascend n (a - b)) / 2;
         (iter_ascend n (a + b) - iter_ascend n (a - b)) / 2 ].
Proof.
  revert a b; induction n as [|n IH]; intros a b.
  - cbn [QubitRotation.optimize iter_ascend]. struct_eq; field.
  - cbn [QubitRotation.optimize iter_ascend].
    rewrite step_value. cbn [bind]. rewrite IH.
    replace (a + 4 / 10 * (sin a * cos b) + (b + 4 / 10 * (cos a * sin b)))
      with (ascend (a + b)) by (unfold ascend; rewrite sin_plus; ring).
    replace (a + 4 / 10 * (sin a * cos b) - (b + 4 / 10 * (cos a * sin b)))
      with (ascend (a - b)) by (unfold ascend; rewrite sin_minus; ring).
    reflexivity.
Qed.

Lemma cost_of_half_angles (u v : R) :
  QubitRotation.cost [(u + v) / 2; (u - v) / 2] = Ok ((cos u + cos v) / 2).
Proof.
  unfold QubitRotation.cost. rewrite circuit_value. f_equal.
  assert (Hu : cos u = cos ((u + v) / 2 + (u - v) / 2)) by (f_equal; field).
  assert (Hv : cos v = cos ((u + v) / 2 - (u - v) / 2)) by (f_equal; field).
  rewrite Hu, Hv, cos_plus, cos_minus. field.
Qed.

(** The notebook's cost is not the squared cost of the specification: the
    two differ already at the starting point [0.011, 0.012]. *)
Lemma cost_is_not_squared_cost :
  QubitRotation.cost QubitRotation.init_params
  <> QubitRotation.squared_cost QubitRotation.init_params.
Proof.
  unfold QubitRotation.cost, QubitRotation.squared_cost,
    QubitRotation.init_params.
  rewrite circuit_value. cbn [bind]. intros H. injection H as H.
  set (c := cos (11 / 1000) * cos (12 / 1000)) in *. nra.
Qed.

Lemma iterate_S (f : R -> R) (n : nat) (x : R) :
  iterate f (S n) x = f (iterate f n x).
Proof.
  revert x; induction n as [|n IH]; intros x; [reflexivity|].
  change (iterate f (S (S n)) x) with (iterate f (S n) (f x)).
  rewrite IH. reflexivity.
Qed.

Lemma iterate_add (f : R -> R) (n m : nat) (x : R) :
  iterate f (n + m) x = iterate f m (iterate f n x).
Proof.
  revert x; induction n as [|n IH]; intros x; simpl; auto.
Qed.

(** A map that shrinks [[0, b]] by the factor [q] gives a geometric
    bound. *)
Lemma iterate_bound (f : R -> R) (q b : R) (n : nat) (y : R) :
  0 <= q ->
  (forall z, 0 <= z <= b -> 0 <= f z <= z /\ f z <= q * z) ->
  0 <= y <= b ->
  0 <= iterate f n y <= q ^ n * y.
Proof.
  intros Hq Hstep. revert y; induction n as [|n IH]; intros y Hy.
  - simpl; lra.
  - cbn [iterate].
    destruct (Hstep y Hy) as [Hr Hs].
    specialize (IH (f y) ltac:(lra)).
    change (q ^ S n) with (q * q ^ n).
    assert (0 <= q ^ n) by (apply pow_le; exact Hq).
    split; [lra|]. nra.
Qed.



















(* ================================================================== *)
(** * Agreement with the outputs the notebooks print *)
(* ================================================================== *)

Lemma sin_approx_5 (a : R) :
  sin_approx a 5
  = a - a^3/6 + a^5/120 - a^7/5040 + a^9/362880 - a^11/39916800.
Proof.
  unfold sin_approx, sin_term. cbn [sum_f_R0 Nat.mul Nat.add].
  repeat (rewrite fact_simpl, mult_INR). change (Factorial.fact 0) with 1%nat.
  cbn [INR]. field.
Qed.

Lemma sin_approx_6 (a : R) :
  sin_approx a 6
  = a - a^3/6 + a^5/120 - a^7/5040 + a^9/362880 - a^11/39916800
    + a^13/6227020800.
Proof.
  unfold sin_approx, sin_term. cbn [sum_f_R0 Nat.mul Nat.add].
  repeat (rewrite fact_simpl, mult_INR). change (Factorial.fact 0) with 1%nat.
  cbn [INR]. field.
Qed.

Lemma sin_enclosure (a : R) :
  0 <= a <= 4 ->
  a - a^3/6 + a^5/120 - a^7/5040 + a^9/362880 - a^11/39916800 <= sin a
  <= a - a^3/6 + a^5/120 - a^7/5040 + a^9/362880 - a^11/39916800
     + a^13/6227020800.
Proof.
  intros [H1 H2]. pose proof (pre_sin_bound a 2 H1 H2) as H.
  change (2 * 2 + 1)%nat with 5%nat in H.
  change (2 * (2 + 1))%nat with 6%nat in H.
  rewrite sin_approx_5, sin_approx_6 in H. exact H.
Qed.

(** A product of two enclosed positive numbers lies near [t] when the
    products of the bounds do. *)
Lemma product_enclosure (x y lx ux ly uy t tol : R) :
  lx <= x <= ux -> ly <= y <= uy -> 0 <= lx -> 0 <= ly ->
  t - tol < lx * ly -> ux * uy < t + tol ->
  Rabs (x * y - t) < tol.
Proof.
  intros Hx Hy Hlx Hly Hlo Hhi.
  assert (lx * ly <= x * y) by (apply Rmult_le_compat; lra).
  assert (x * y <= ux * uy) by (apply Rmult_le_compat; lra).
  apply Rabs_def1; lra.
Qed.

(** [print(dcircuit([0.54, 0.12]))] shows [-0.51043865] and [-0.1026782]. *)
Lemma dcircuit_printed :
  exists g0 g1,
    QubitRotation.dcircuit [54 / 100; 12 / 100] = Ok [g0; g1] /\
    Rabs (g0 - - (51043865 / 100000000)) < 1 / 100000000 /\
    Rabs (g1 - - (1026782 / 10000000)) < 1 / 10000000.
Proof.
  exists (- (sin (54 / 100) * cos (12 / 100))),
         (- (cos (54 / 100) * sin (12 / 100))).
  split; [apply dcircuit_value|].
  pose proof (cos_enclosure (54 / 100) ltac:(lra)) as Hc1.
  pose proof (cos_enclosure (12 / 100) ltac:(lra)) as Hc2.
  pose proof (sin_enclosure (54 / 100) ltac:(lra)) as Hs1.
  pose proof (sin_enclosure (12 / 100) ltac:(lra)) as Hs2.
  split.
  - replace (- (sin (54 / 100) * cos (12 / 100)) - - (51043865 / 100000000))
      with (- (sin (54 / 100) * cos (12 / 100) - 51043865 / 100000000))
      by ring.
    rewrite Rabs_Ropp.
    eapply product_enclosure; [exact Hs1 | exact Hc2 | lra ..].
  - replace (- (cos (54 / 100) * sin (12 / 100)) - - (1026782 / 10000000))
      with (- (cos (54 / 100) * sin (12 / 100) - 1026782 / 10000000))
      by ring.
    rewrite Rabs_Ropp.
    eapply product_enclosure; [exact Hc1 | exact Hs2 | lra ..].
Qed.

(** [print(cost(init_params))] shows [0.9998675058299391]. *)
Lemma initial_cost_printed :
  exists c, QubitRotation.cost QubitRotation.init_params = Ok c /\
            Rabs (c - 9998675058 / 10000000000) < 1 / 1000000000.
Proof.
  exists (cos (11 / 1000) * cos (12 / 1000)).
  split; [apply circuit_value|].
  pose proof (cos_enclosure (11 / 1000) ltac:(lra)) as Hc1.
  pose proof (cos_enclosure (12 / 1000) ltac:(lra)) as Hc2.
  eapply product_enclosure; [exact Hc1 | exact Hc2 | lra ..].
Qed.

(** [circuit(0.123)] shows [0.99244503] and [grad_circuit(jnp.pi / 2)]
    shows [-1.000] in the JAX tutorial. *)
Lemma jax_circuit_printed :
  exists v, JaxTutorial.circuit (123 / 1000) = Ok v /\
            Rabs (v - 99244503 / 100000000) < 1 / 100000000.
Proof.
  exists (cos (123 / 1000)). split; [apply jax_circuit_value|].
  pose proof (cos_enclosure (123 / 1000) ltac:(lra)) as Hc.
  apply Rabs_def1; lra.
Qed.

Lemma grad_circuit_printed : JaxTutorial.grad_circuit (PI / 2) = Ok (-1).
Proof. rewrite grad_circuit_value, sin_PI2. reflexivity. Qed.

(** [dev.state] after [bitflip_circuit(0.2)] shows 0.34 and 0.16, and the
    four printed QNode outputs are 0.9960, 0.9604, 0.6400 and 0.3600. *)
Lemma bitflip_state_printed :
  flipped_twice (2 / 10)
  = real_matrix
      [[ 34 / 100; 0; 0; 34 / 100 ];
       [ 0; 16 / 100; 16 / 100; 0 ];
       [ 0; 16 / 100; 16 / 100; 0 ];
       [ 34 / 100; 0; 0; 34 / 100 ]].
Proof. unfold flipped_twice, real_matrix, RtoC. cbn [map]. struct_eq; field. Qed.

Lemma bitflip_printed :
  NoisyCircuits.bitflip_circuit (1 / 1000) = Ok (996004 / 1000000) /\
  NoisyCircuits.bitflip_circuit (1 / 100) = Ok (9604 / 10000) /\
  NoisyCircuits.bitflip_circuit (1 / 10) = Ok (64 / 100) /\
  NoisyCircuits.bitflip_circuit (2 / 10) = Ok (36 / 100).
Proof.
  repeat split; rewrite bitflip_value by lra; f_equal; field.
Qed.

(** The loop prints [Optimized rotation angles: [7.15266381e-18
    3.14159265e+00]] and [Cost after step 100: -1.0000000]. *)
Lemma optimized_angles_printed :
  exists p1 p2 e,
    QubitRotation.optimize 100 QubitRotation.init_params = Ok [p1; p2] /\
    QubitRotation.cost [p1; p2] = Ok e /\
    Rabs p1 < 1 / 10 ^ 10 /\ Rabs (p2 - PI) < 1 / 10 ^ 10 /\
    Rabs (e - (-1)) < 1 / 10 ^ 10.
Proof.
  unfold QubitRotation.init_params.
  set (u := iter_ascend 100 (11 / 1000 + 12 / 1000)).
  set (v := iter_ascend 100 (11 / 1000 - 12 / 1000)).
  set (w := iter_ascend 100 (1 / 1000)).
  assert (Hv : v = - w).
  { unfold v, w. replace (11 / 1000 - 12 / 1000) with (- (1 / 1000)) by field.
    apply iter_ascend_opp. }
  pose proof PI2_3_2 as Hpi.
  assert (Hu : 0 < PI - u <= (2 / 3) ^ 63)
    by (unfold u; apply hundred_steps; lra).
  assert (Hw : 0 < PI - w <= (2 / 3) ^ 63)
    by (unfold w; apply hundred_steps; lra).
  assert (Hcu : 0 <= 1 + cos u <= 1 / 10 ^ 20)
    by (unfold u; apply one_plus_cos_small; lra).
  assert (Hcw : 0 <= 1 + cos w <= 1 / 10 ^ 20)
    by (unfold w; apply one_plus_cos_small; lra).
  assert (Hq : (2 / 3) ^ 63 < 1 / 10 ^ 10) by lra.
  exists ((u + v) / 2), ((u - v) / 2), ((cos u + cos v) / 2).
  split; [apply optimize_value|].
  split; [apply cost_of_half_angles|].
  rewrite Hv, cos_neg.
  repeat split; apply Rabs_def1; lra.
Qed.

(** ** Error paths of the engine *)

Example cnot_on_one_wire :
  apply_gate (zero_state 2) CNOT [0%nat] = Err DimensionError.
Proof. reflexivity. Qed.

Example gate_off_the_register :
  apply_gate (zero_state 1) (RX 0) [1%nat] = Err DimensionError.
Proof. reflexivity. Qed.

Example channel_on_pure_state (p : R) :
  apply_channel (zero_state 2) (BitFlip p) 0 = Err ModeError.
Proof. reflexivity. Qed.

Example circuit_needs_two_parameters (a : R) :
  QubitRotation.circuit [a] = Err IndexError.
Proof. reflexivity. Qed.

(* ================================================================== *)
(** * Conservation of the photon number *)
(* ================================================================== *)

Lemma Clist_sum_zero {A} (f : A -> C) (l : list A) :
  (forall x, In x l -> f x = C0) -> Clist_sum (map f l) = C0.
Proof.
  induction l as [|a r IH]; intros H; [reflexivity|].
  cbn [map]. change (Clist_sum (f a :: map f r))
    with (Cplus (f a) (Clist_sum (map f r))).
  rewrite IH by (intros; apply H; right; assumption).
  rewrite (H a) by (left; reflexivity). ring.
Qed.

Lemma occupations_length (cutoff modes : nat) (occ : Occupation) :
  In occ (occupations cutoff modes) -> length occ = modes.
Proof.
  revert occ; induction modes as [|m IH]; intros occ H; simpl in H.
  - destruct H as [<-|[]]. reflexivity.
  - apply in_flat_map in H. destruct H as [n [_ H]].
    apply in_map_iff in H. destruct H as [r [<- Hr]].
    simpl. f_equal. apply IH; exact Hr.
Qed.

Lemma total_set_nth (k v : nat) (occ : Occupation) :
  (k < length occ)%nat ->
  (total_photons (set_nth k v occ) + nth k occ O
   = total_photons occ + v)%nat.
Proof.
  unfold total_photons.
  revert k; induction occ as [|a r IH]; intros [|k] H; simpl in *; try lia.
  specialize (IH k ltac:(lia)). lia.
Qed.

Lemma update_modes_length (idxs : list nat) :
  forall occ x, length (update_modes occ idxs x) = length occ.
Proof.
  induction idxs as [|w ws IH]; intros occ [|v vs]; simpl; auto.
  rewrite IH. apply set_nth_length.
Qed.

Lemma select_modes_set_nth (w v : nat) (occ : Occupation) (ws : list nat) :
  ~ In w ws -> select_modes (set_nth w v occ) ws = select_modes occ ws.
Proof.
  intros Hin. unfold select_modes. apply map_ext_in; intros j Hj.
  apply nth_set_nth_other. intro; subst; contradiction.
Qed.

(** Writing [x] on the modes [idxs] changes the total by the difference
    between [x] and what was there. *)
Lemma total_update_modes (idxs : list nat) :
  NoDup idxs ->
  forall occ x,
    Forall (fun w => (w < length occ)%nat) idxs ->
    length x = length idxs ->
    (total_photons (update_modes occ idxs x)
       + total_photons (select_modes occ idxs)
     = total_photons occ + total_photons x)%nat.
Proof.
  induction 1 as [|w ws Hin Hnd IH]; intros occ x Hocc Hx.
  - destruct x; simpl in *; [lia|discriminate].
  - destruct x as [|v vs]; simpl in Hx; [discriminate|].
    inversion Hocc as [|? ? Hw Hws]; subst.
    cbn [update_modes].
    assert (Hocc' : Forall (fun w0 => (w0 < length (set_nth w v occ))%nat) ws)
      by (rewrite set_nth_length; exact Hws).
    specialize (IH (set_nth w v occ) vs Hocc' ltac:(lia)).
    rewrite select_modes_set_nth in IH by exact Hin.
    pose proof (total_set_nth w v occ Hw) as Hset.
    change (total_photons (select_modes occ (w :: ws)))
      with (nth w occ O + total_photons (select_modes occ ws))%nat.
    change (total_photons (v :: vs)) with (v + total_photons vs)%nat.
    lia.
Qed.

Lemma in_sector_vacuum (modes : nat) : in_sector modes 0 vacuum.
Proof.
  intros occ _ Htot. unfold vacuum.
  destruct (forallb (Nat.eqb 0) occ) eqn:Hall; [|reflexivity].
  exfalso; apply Htot. rewrite forallb_forall in Hall.
  clear Htot. induction occ as [|a r IH]; simpl; [reflexivity|].
  assert (Ha : a = O).
  { symmetry. apply Nat.eqb_eq, Hall. left; reflexivity. }
  rewrite Ha, IH by (intros; apply Hall; right; assumption). reflexivity.
Qed.

Lemma in_sector_prepare (modes n mode N : nat) (psi : FockState) :
  in_sector modes N psi -> in_sector modes (N + n) (prepare_fock n mode psi).
Proof.
  intros Hpsi occ Hlen Htot. unfold prepare_fock.
  destruct (Nat.eqb_spec (nth mode occ O) n) as [Hn|Hn]; [|reflexivity].
  apply Hpsi; [rewrite set_nth_length; exact Hlen|].
  destruct (Nat.lt_ge_cases mode (length occ)) as [Hlt|Hge].
  - pose proof (total_set_nth mode 0 occ Hlt). lia.
  - rewrite nth_overflow in Hn by exact Hge.
    assert (Hid : set_nth mode O occ = occ).
    { clear -Hge. revert mode Hge.
      induction occ as [|a r IH]; intros [|k] H; simpl in *;
        try reflexivity; try lia.
      f_equal; apply IH; lia. }
    rewrite Hid. lia.
Qed.

Lemma in_sector_apply_kernel (cutoff modes N : nat) (g : ModeGate)
  (idxs : list nat) (psi : FockState) :
  number_preserving g -> valid_wires modes idxs ->
  in_sector modes N psi ->
  in_sector modes N (apply_kernel cutoff g idxs psi).
Proof.
  intros Hg [Hnd Hlt] Hpsi occ Hlen Htot. unfold apply_kernel.
  apply Clist_sum_zero. intros x Hx.
  apply occupations_length in Hx.
  destruct (Nat.eq_dec (total_photons (select_modes occ idxs))
                       (total_photons x)) as [Heq|Hne].
  - rewrite (Hpsi (update_modes occ idxs x)); [ring | |].
    + rewrite update_modes_length; exact Hlen.
    + pose proof (total_update_modes idxs Hnd occ x) as Ht.
      rewrite Hlen in Ht. specialize (Ht Hlt Hx). lia.
  - rewrite (Hg _ _ Hne). ring.
Qed.

Lemma run_program_sector (eng : Engine) (ops : list ModeOperation) :
  Forall (conserving_op (engine_modes eng)) ops ->
  forall N psi,
    in_sector (engine_modes eng) N psi ->
    exists psi',
      run_program eng psi ops = Ok psi' /\
      in_sector (engine_modes eng) (N + photons_prepared ops) psi'.
Proof.
  induction 1 as [|op rest Hop _ IH]; intros N psi Hpsi.
  - exists psi. split; [reflexivity|]. simpl. rewrite Nat.add_0_r. exact Hpsi.
  - destruct op as [n mode | g idxs]; simpl in Hop.
    + destruct (IH (N + n)%nat (prepare_fock n mode psi)
                  (in_sector_prepare _ n mode N psi Hpsi)) as [psi' [Hrun Hsec]].
      exists psi'. cbn [run_program apply_mode_operation photons_prepared].
      destruct (Nat.leb_spec (engine_modes eng) mode); [lia|].
      cbn [bind]. split; [exact Hrun|].
      rewrite Nat.add_assoc. exact Hsec.
    + destruct Hop as [Hg [Hlen Hv]].
      destruct (IH N (apply_kernel (cutoff_dim eng) g idxs psi)
                  (in_sector_apply_kernel _ _ N g idxs psi Hg Hv Hpsi))
        as [psi' [Hrun Hsec]].
      exists psi'. cbn [run_program apply_mode_operation photons_prepared].
      rewrite bad_wires_false by (tauto || apply Hv).
      cbn [bind]. split; [exact Hrun | exact Hsec].
Qed.

(** ** The sampler *)

Lemma pick_sound (ps : list R) :
  forall u i, pick ps u = Some i -> 0 <= u ->
              (i < length ps)%nat /\ 0 < nth i ps 0.
Proof.
  induction ps as [|p rest IH]; intros u i Hpick Hu; simpl in Hpick.
  - discriminate.
  - destruct (Rlt_dec u p) as [Hlt|Hge].
    + injection Hpick as <-. simpl. split; [lia|lra].
    + destruct (pick rest (u - p)) as [j|] eqn:Hj; [|discriminate].
      simpl in Hpick. injection Hpick as <-.
      destruct (IH (u - p) j Hj ltac:(lra)) as [Hlen Hpos].
      simpl. split; [lia|exact Hpos].
Qed.

Lemma pick_total (ps : list R) :
  forall u, 0 <= u < fold_right Rplus 0 ps -> exists i, pick ps u = Some i.
Proof.
  induction ps as [|p rest IH]; intros u Hu; simpl in *.
  - lra.
  - destruct (Rlt_dec u p) as [Hlt|Hge]; [exists O; reflexivity|].
    destruct (IH (u - p) ltac:(lra)) as [j Hj].
    exists (S j). rewrite Hj. reflexivity.
Qed.

Lemma Cnorm2_pos_nonzero (z : C) : 0 < Cnorm2 z -> z <> C0.
Proof.
  intros H Hz. subst z. unfold Cnorm2, C0 in H. simpl in H. lra.
Qed.

Lemma mapM_Forall {A B} (f : A -> Result B) (P : B -> Prop) (l : list A) :
  (forall a b, In a l -> f a = Ok b -> P b) ->
  forall outs, mapM f l = Ok outs -> Forall P outs.
Proof.
  induction l as [|a r IH]; intros H outs Hm; simpl in Hm.
  - injection Hm as <-. constructor.
  - destruct (f a) as [b|e] eqn:Hfa; [|discriminate]. cbn [bind] in Hm.
    destruct (mapM f r) as [bs|e] eqn:Hr; [|discriminate]. cbn [bind] in Hm.
    injection Hm as <-. constructor.
    + apply (H a b); [left; reflexivity | exact Hfa].
    + apply IH; [|reflexivity]. intros a' b' Hin; apply H; right; exact Hin.
Qed.

Lemma mapM_ok {A B} (f : A -> Result B) (l : list A) :
  (forall a, In a l -> exists b, f a = Ok b) ->
  exists outs, mapM f l = Ok outs /\ length outs = length l.
Proof.
  induction l as [|a r IH]; intros H; simpl.
  - exists []. split; reflexivity.
  - destruct (H a (or_introl eq_refl)) as [b Hb].
    destruct (IH (fun a' Hin => H a' (or_intror Hin))) as [bs [Hbs Hl]].
    exists (b :: bs). rewrite Hb, Hbs. cbn [bind]. split; [reflexivity|].
    simpl; f_equal; exact Hl.
Qed.

Section SamplerFacts.

Variable uniform : nat -> nat -> R.
Variable eng : Engine.
Variable psi : FockState.
Variable rng_seed : nat.
Hypothesis uniform_range : forall k, 0 <= uniform rng_seed k < 1.

(** An outcome that is drawn has a positive probability. *)
Lemma sample_shot_support (k : nat) (o : Occupation) :
  sample_shot uniform eng psi rng_seed k = Ok o ->
  length o = engine_modes eng /\ psi o <> C0.
Proof.
  unfold sample_shot, index. intros H.
  destruct (pick (probabilities eng psi) (uniform rng_seed k)) as [i|] eqn:Hp;
    [|discriminate].
  destruct (nth_error (occupations (cutoff_dim eng) (engine_modes eng)) i)
    as [o'|] eqn:Hn; [|discriminate].
  injection H as ->.
  destruct (pick_sound _ _ _ Hp (proj1 (uniform_range k))) as [_ Hpos].
  split.
  - eapply occupations_length, nth_error_In; exact Hn.
  - apply Cnorm2_pos_nonzero.
    unfold probabilities in Hpos.
    rewrite (nth_indep _ 0 (Cnorm2 (psi o))) in Hpos.
    + rewrite (map_nth (fun occ => Cnorm2 (psi occ))) in Hpos.
      rewrite (nth_error_nth _ _ _ Hn) in Hpos. exact Hpos.
    + rewrite length_map. apply nth_error_Some. rewrite Hn. discriminate.
Qed.

Lemma sample_shot_ok (k : nat) :
  normalized eng psi -> exists o, sample_shot uniform eng psi rng_seed k = Ok o.
Proof.
  intros Hnorm. unfold sample_shot, index.
  destruct (pick_total (probabilities eng psi) (uniform rng_seed k)) as [i Hi].
  { unfold normalized in Hnorm. rewrite Hnorm. apply uniform_range. }
  rewrite Hi.
  destruct (pick_sound _ _ _ Hi (proj1 (uniform_range k))) as [Hlen _].
  unfold probabilities in Hlen. rewrite length_map in Hlen.
  destruct (nth_error (occupations (cutoff_dim eng) (engine_modes eng)) i)
    as [o|] eqn:Hn.
  - exists o; reflexivity.
  - apply nth_error_None in Hn. lia.
Qed.

End SamplerFacts.

(** Sampling after a conserving program: the state exists, [sample]
    returns when it is normalized, and what it returns lies in the sector
    of the prepared photons. *)
Lemma samples_in_prepared_sector (uniform : nat -> nat -> R) (eng : Engine)
  (ops : list ModeOperation) (num_shots rng_seed : nat) :
  (forall k, 0 <= uniform rng_seed k < 1) ->
  Forall (conserving_op (engine_modes eng)) ops ->
  exists psi,
    run_program eng vacuum ops = Ok psi /\
    (normalized eng psi ->
     exists outs, sample uniform eng psi num_shots rng_seed = Ok outs /\
                  length outs = num_shots) /\
    (forall outs, sample uniform eng psi num_shots rng_seed = Ok outs ->
       Forall (fun o => total_photons o = photons_prepared ops) outs).
Proof.
  intros Hu Hops.
  destruct (run_program_sector eng ops Hops 0%nat vacuum
              (in_sector_vacuum _)) as [psi [Hrun Hsec]].
  simpl in Hsec.
  exists psi. split; [exact Hrun|]. split.
  - intros Hnorm. unfold sample.
    destruct (mapM_ok (sample_shot uniform eng psi rng_seed) (seq 0 num_shots))
      as [outs [Hm Hl]].
    + intros k _. apply sample_shot_ok; assumption.
    + exists outs. split; [exact Hm|]. rewrite Hl. apply length_seq.
  - intros outs Hm. unfold sample in Hm.
    eapply mapM_Forall; [|exact Hm].
    intros k o _ Hk.
    destruct (sample_shot_support uniform eng psi rng_seed Hu k o Hk)
      as [Hlen Hnz].
    destruct (Nat.eq_dec (total_photons o) (photons_prepared ops))
      as [Heq|Hne]; [exact Heq|].
    exfalso; apply Hnz. apply Hsec; assumption.
Qed.

(** C8. For every program made of Fock preparations and photon-number
    preserving gates, run from the vacuum, every outcome vector that
    [sample] returns has as many photons in total as were prepared; and
    [sample] does return [num_shots] outcomes when the state is
    normalized. *)
Theorem photon_number_conserved (uniform : nat -> nat -> R) (eng : Engine)
  (ops : list ModeOperation) (num_shots rng_seed : nat) :
  (forall k, 0 <= uniform rng_seed k < 1) ->
  Forall (conserving_op (engine_modes eng)) ops ->
  exists psi,
    run_program eng vacuum ops = Ok psi /\
    (normalized eng psi ->
     exists outs, sample uniform eng psi num_shots rng_seed = Ok outs /\
                  length outs = num_shots) /\
    (forall outs, sample uniform eng psi num_shots rng_seed = Ok outs ->
       Forall (fun o => total_photons o = photons_prepared ops) outs).
Proof. exact (samples_in_prepared_sector uniform eng ops num_shots rng_seed). Qed.

(** ** Demo-Simple-Circuit.ipynb *)

Lemma swap_gate_number_preserving : number_preserving SimpleCircuit.swap_gate.
Proof.
  intros out inp H. unfold SimpleCircuit.swap_gate, kernel.
  destruct out as [|m [|n [|? ?]]]; try reflexivity.
  destruct inp as [|k [|l [|? ?]]]; try reflexivity.
  destruct (Nat.eqb_spec m l) as [->|]; [|reflexivity].
  destruct (Nat.eqb_spec n k) as [->|]; [|reflexivity].
  exfalso; apply H. simpl. lia.
Qed.

Lemma prog_conserving (BSgate : ModeGate) :
  number_preserving BSgate -> mode_gate_arity BSgate = 2%nat ->
  Forall (conserving_op (engine_modes SimpleCircuit.eng))
         (SimpleCircuit.prog BSgate).
Proof.
  intros Hg Har. unfold SimpleCircuit.prog, SimpleCircuit.eng. simpl.
  repeat constructor; simpl; try lia; try assumption; intuition discriminate.
Qed.

(** The program of the notebook, with any beamsplitter that conserves the
    photon number: every sample sums to 5 + 1 = 6 photons. *)
Lemma simple_circuit_samples_sum_to_six (uniform : nat -> nat -> R)
  (BSgate : ModeGate) (num_shots rng_seed : nat) :
  (forall k, 0 <= uniform rng_seed k < 1) ->
  number_preserving BSgate -> mode_gate_arity BSgate = 2%nat ->
  exists psi,
    run_program SimpleCircuit.eng vacuum (SimpleCircuit.prog BSgate) = Ok psi /\
    forall outs,
      sample uniform SimpleCircuit.eng psi num_shots rng_seed = Ok outs ->
      Forall (fun o => total_photons o = 6%nat) outs.
Proof.
  intros Hu Hg Har.
  destruct (samples_in_prepared_sector uniform SimpleCircuit.eng
              (SimpleCircuit.prog BSgate) num_shots rng_seed Hu
              (prog_conserving BSgate Hg Har)) as [psi [Hrun [_ Hs]]].
  exists psi. split; [exact Hrun | exact Hs].
Qed.

Lemma photon_number_conserved_witness :
  (forall k : nat, 0 <= (fun _ _ : nat => 0) O k < 1) /\
  Forall (conserving_op (engine_modes SimpleCircuit.eng))
         (SimpleCircuit.prog SimpleCircuit.swap_gate) /\
  exists psi,
    run_program SimpleCircuit.eng vacuum
      (SimpleCircuit.prog SimpleCircuit.swap_gate) = Ok psi /\
    (normalized SimpleCircuit.eng psi ->
     exists outs,
       sample (fun _ _ => 0) SimpleCircuit.eng psi 1 0 = Ok outs /\
       length outs = 1%nat) /\
    (forall outs,
       sample (fun _ _ => 0) SimpleCircuit.eng psi 1 0 = Ok outs ->
       Forall (fun o => total_photons o
                        = photons_prepared
                            (SimpleCircuit.prog SimpleCircuit.swap_gate))
              outs).
Proof.
  assert (Hu : forall k : nat, 0 <= (fun _ _ : nat => 0) O k < 1)
    by (intros k; simpl; lra).
  assert (Hops : Forall (conserving_op (engine_modes SimpleCircuit.eng))
                        (SimpleCircuit.prog SimpleCircuit.swap_gate))
    by (apply prog_conserving;
        [exact swap_gate_number_preserving | reflexivity]).
  split; [exact Hu|]. split; [exact Hops|].
  exact (photon_number_conserved (fun _ _ => 0) SimpleCircuit.eng
           (SimpleCircuit.prog SimpleCircuit.swap_gate) 1 0 Hu Hops).
Defined.

(** ** The sampler on a concrete state *)

Lemma run_swap_program :
  run_program SimpleCircuit.eng vacuum
    (SimpleCircuit.prog SimpleCircuit.swap_gate)
  = Ok SimpleCircuit.swapped_state.
Proof. reflexivity. Qed.

(** Exchanging the modes of |5, 1> leaves all the probability on the
    outcome (1, 5), the 14th of the 64 outcome vectors. *)
Lemma swapped_probabilities :
  probabilities SimpleCircuit.eng SimpleCircuit.swapped_state
  = map (fun i => if (i =? 13)%nat then 1 else 0) (seq 0 64).
Proof. sim_compute. struct_eq; ring. Qed.

Lemma swapped_normalized :
  normalized SimpleCircuit.eng SimpleCircuit.swapped_state.
Proof.
  unfold normalized. rewrite swapped_probabilities.
  cbn -[Rplus]. lra.
Qed.

Example swap_sample :
  sample (fun _ _ => 0) SimpleCircuit.eng SimpleCircuit.swapped_state 1 0
  = Ok [[1%nat; 5%nat]].
Proof.
  unfold sample, sample_shot. cbn [seq mapM].
  rewrite swapped_probabilities.
  cbn [seq map Nat.eqb].
  repeat (cbn [pick];
          match goal with
          | |- context [Rlt_dec ?a ?b] =>
              destruct (Rlt_dec a b); [try (exfalso; lra) | try (exfalso; lra)]
          end).
  reflexivity.
Qed.
(* ================================================================== *)
(** * The other channels of noisy_circuits.ipynb *)
(* ================================================================== *)

Lemma depolarizing_wire0 (p : R) :
  0 <= p <= 1 ->
  apply_channel (MixedState 2 bell_density) (DepolarizingChannel p) 0
  = Ok (MixedState 2 (depolarized_once p)).
Proof.
  intros Hp.
  assert (Hu : sqrt (1 - p) * sqrt (1 - p) = 1 - p) by (apply sqrt_sqrt; lra).
  assert (Hv : sqrt (p / 3) * sqrt (p / 3) = p / 3) by (apply sqrt_sqrt; lra).
  sim_compute. set (u := sqrt (1 - p)) in *. set (v := sqrt (p / 3)) in *.
  struct_eq; nra.
Qed.

Lemma depolarizing_wire1 (p : R) :
  0 <= p <= 1 ->
  apply_channel (MixedState 2 (depolarized_once p)) (DepolarizingChannel p) 1
  = Ok (MixedState 2 (depolarized_twice p)).
Proof.
  intros Hp.
  assert (Hu : sqrt (1 - p) * sqrt (1 - p) = 1 - p) by (apply sqrt_sqrt; lra).
  assert (Hv : sqrt (p / 3) * sqrt (p / 3) = p / 3) by (apply sqrt_sqrt; lra).
  sim_compute. set (u := sqrt (1 - p)) in *. set (v := sqrt (p / 3)) in *.
  struct_eq; nra.
Qed.

Lemma depolarizing_state (p : R) :
  0 <= p <= 1 ->
  run_circuit (initial_state NoisyCircuits.dev)
    (NoisyCircuits.bell_ops
       ++ [ChannelOp (DepolarizingChannel p) 0;
           ChannelOp (DepolarizingChannel p) 1])
  = Ok (MixedState 2 (depolarized_twice p)).
Proof.
  intros Hp. rewrite run_circuit_app, bell_state_mixed.
  cbn [bind run_circuit apply_operation].
  rewrite depolarizing_wire0 by exact Hp. cbn [bind].
  rewrite depolarizing_wire1 by exact Hp. reflexivity.
Qed.

Lemma depolarizing_value (p : R) :
  0 <= p <= 1 ->
  NoisyCircuits.depolarizing_circuit p = Ok ((1 - 4 * p / 3) ^ 2).
Proof.
  intros Hp. unfold NoisyCircuits.depolarizing_circuit, evaluate.
  rewrite depolarizing_state by exact Hp. cbn [bind].
  apply expval_of_real; [reflexivity|].
  sim_compute. struct_eq; field.
Qed.

Lemma damping_wire0 (g : R) :
  0 <= g <= 1 ->
  apply_channel (MixedState 2 bell_density) (AmplitudeDamping g) 0
  = Ok (MixedState 2 (damped_once g)).
Proof.
  intros Hg.
  assert (Hu : sqrt (1 - g) * sqrt (1 - g) = 1 - g) by (apply sqrt_sqrt; lra).
  assert (Hv : sqrt g * sqrt g = g) by (apply sqrt_sqrt; lra).
  sim_compute. set (u := sqrt (1 - g)) in *. set (v := sqrt g) in *.
  struct_eq; nra.
Qed.

Lemma damping_wire1 (g : R) :
  0 <= g <= 1 ->
  apply_channel (MixedState 2 (damped_once g)) (AmplitudeDamping g) 1
  = Ok (MixedState 2 (damped_twice g)).
Proof.
  intros Hg.
  assert (Hu : sqrt (1 - g) * sqrt (1 - g) = 1 - g) by (apply sqrt_sqrt; lra).
  assert (Hv : sqrt g * sqrt g = g) by (apply sqrt_sqrt; lra).
  sim_compute. set (u := sqrt (1 - g)) in *. set (v := sqrt g) in *.
  struct_eq; nra.
Qed.

Lemma damping_state (g : R) :
  0 <= g <= 1 ->
  run_circuit (initial_state NoisyCircuits.dev)
    (NoisyCircuits.bell_ops
       ++ [ChannelOp (AmplitudeDamping g) 0; ChannelOp (AmplitudeDamping g) 1])
  = Ok (MixedState 2 (damped_twice g)).
Proof.
  intros Hg. rewrite run_circuit_app, bell_state_mixed.
  cbn [bind run_circuit apply_operation].
  rewrite damping_wire0 by exact Hg. cbn [bind].
  rewrite damping_wire1 by exact Hg. reflexivity.
Qed.

Lemma zz_damped_twice (g : R) :
  expval (MixedState 2 (damped_twice g)) NoisyCircuits.ZZ
  = Ok (1 / 2 + (1 - 2 * g) ^ 2 / 2).
Proof.
  apply expval_of_real; [reflexivity|].
  sim_compute. struct_eq; field.
Qed.

Lemma Rabs_le_bounds (a b : R) : Rabs a <= b -> - b <= a <= b.
Proof.
  intros H. pose proof (Rle_abs a) as H1. pose proof (Rle_abs (- a)) as H2.
  rewrite Rabs_Ropp in H2. lra.
Qed.

Lemma sigmoid_range (x : R) : 0 < NoisyCircuits.sigmoid x < 1.
Proof.
  unfold NoisyCircuits.sigmoid. pose proof (exp_pos (- x)) as He.
  assert (H1 : 0 < 1 + exp (- x)) by lra.
  split.
  - apply Rdiv_lt_0_compat; lra.
  - apply (Rmult_lt_reg_r (1 + exp (- x))); [exact H1|].
    unfold Rdiv. rewrite Rmult_assoc, Rinv_l by lra. lra.
Qed.

Lemma sigmoid_opp (x : R) :
  NoisyCircuits.sigmoid (- x) = 1 - NoisyCircuits.sigmoid x.
Proof.
  unfold NoisyCircuits.sigmoid. rewrite Ropp_involutive, exp_Ropp.
  pose proof (exp_pos x) as He. field. split; lra.
Qed.

Lemma sigmoid_0 : NoisyCircuits.sigmoid 0 = 1 / 2.
Proof. unfold NoisyCircuits.sigmoid. rewrite Ropp_0, exp_0. field. Qed.

Lemma damping_value (x : R) :
  NoisyCircuits.damping_circuit x
  = Ok (1 / 2 + (1 - 2 * NoisyCircuits.sigmoid x) ^ 2 / 2).
Proof.
  pose proof (sigmoid_range x) as Hs.
  unfold NoisyCircuits.damping_circuit, evaluate.
  rewrite damping_state by lra. cbn [bind].
  apply zz_damped_twice.
Qed.

Lemma damping_cost_value (x target : R) :
  NoisyCircuits.cost x target
  = Ok ((1 / 2 + (1 - 2 * NoisyCircuits.sigmoid x) ^ 2 / 2 - target) ^ 2).
Proof. unfold NoisyCircuits.cost. rewrite damping_value. reflexivity. Qed.

(** X1. With the Kraus operators the notebook writes, a depolarizing
    channel of probability p on each qubit of the Bell state gives
    <Z (x) Z> = (1 - 4p/3)^2 for every 0 <= p <= 1; the four printed
    outputs 0.9973, 0.9735, 0.7511 and 0.5378 are these values to four
    decimals. *)
Theorem depolarizing_zz (p : R) :
  0 <= p <= 1 ->
  NoisyCircuits.depolarizing_circuit p = Ok ((1 - 4 * p / 3) ^ 2) /\
  Forall (fun pv =>
            exists v, NoisyCircuits.depolarizing_circuit (fst pv) = Ok v /\
                      Rabs (v - snd pv) <= 5 / 100000)
         [ (1 / 1000, 9973 / 10000); (1 / 100, 9735 / 10000);
           (1 / 10, 7511 / 10000); (2 / 10, 5378 / 10000) ].
Proof.
  intros Hp. split; [apply depolarizing_value; exact Hp|].
  repeat constructor; cbn [fst snd];
    (eexists; split; [apply depolarizing_value; lra|]);
    apply Rabs_le; lra.
Qed.

Lemma depolarizing_zz_witness :
  0 <= 2 / 10 <= 1 /\
  NoisyCircuits.depolarizing_circuit (2 / 10)
  = Ok ((1 - 4 * (2 / 10) / 3) ^ 2).
Proof.
  split; [lra|]. apply (depolarizing_zz (2 / 10)). lra.
Defined.

(** X2. The Kraus operators of the three channels of the notebook satisfy
    the condition it states, sum_i K_i^dagger K_i = I, for every
    probability 0 <= p <= 1. *)
Theorem channels_trace_preserving (p : R) :
  0 <= p <= 1 ->
  trace_preserving (BitFlip p) /\
  trace_preserving (DepolarizingChannel p) /\
  trace_preserving (AmplitudeDamping p).
Proof.
  intros Hp.
  assert (Hu : sqrt (1 - p) * sqrt (1 - p) = 1 - p) by (apply sqrt_sqrt; lra).
  assert (Hv : sqrt p * sqrt p = p) by (apply sqrt_sqrt; lra).
  assert (Hw : sqrt (p / 3) * sqrt (p / 3) = p / 3) by (apply sqrt_sqrt; lra).
  repeat split; intros a b Ha Hb; case_lt a; case_lt b;
    sim_compute; set (u := sqrt (1 - p)) in *; set (v := sqrt p) in *;
    set (w := sqrt (p / 3)) in *; struct_eq; nra.
Qed.

Lemma channels_trace_preserving_witness :
  0 <= 2 / 10 <= 1 /\
  trace_preserving (BitFlip (2 / 10)) /\
  trace_preserving (DepolarizingChannel (2 / 10)) /\
  trace_preserving (AmplitudeDamping (2 / 10)).
Proof.
  split; [lra|]. apply (channels_trace_preserving (2 / 10)). lra.
Defined.

Lemma sigmoid_side (x : R) :
  (0 <= x -> 1 / 2 <= NoisyCircuits.sigmoid x) /\
  (x <= 0 -> NoisyCircuits.sigmoid x <= 1 / 2).
Proof.
  unfold NoisyCircuits.sigmoid. pose proof (exp_pos (- x)) as He.
  split; intros Hx.
  - assert (H1 : exp (- x) <= 1).
    { rewrite <- exp_0. destruct Hx as [Hx|Hx].
      - left. apply exp_increasing. lra.
      - subst x. rewrite Ropp_0. lra. }
    apply (Rmult_le_reg_r (1 + exp (- x))); [lra|].
    unfold Rdiv at 2. rewrite Rmult_assoc, Rinv_l by lra. lra.
  - assert (H1 : 1 <= exp (- x)).
    { rewrite <- exp_0. destruct Hx as [Hx|Hx].
      - left. apply exp_increasing. lra.
      - subst x. rewrite Ropp_0. lra. }
    apply (Rmult_le_reg_r (1 + exp (- x))); [lra|].
    unfold Rdiv at 1. rewrite Rmult_assoc, Rinv_l by lra. lra.
Qed.

(** X3. [sigmoid] maps every real number into [0, 1], so
    [damping_circuit] always hands a valid probability to the channel;
    sigmoid(0) is 1/2, sigmoid(x) is at least 1/2 for x >= 0 and at most
    1/2 for x <= 0, and sigmoid(-x) agrees with 1 - sigmoid(x) to
    1e-12. *)
Theorem sigmoid_is_probability (x : R) :
  0 <= NoisyCircuits.sigmoid x <= 1 /\
  Rabs (NoisyCircuits.sigmoid (- x) - (1 - NoisyCircuits.sigmoid x))
    <= 1 / 10 ^ 12 /\
  NoisyCircuits.sigmoid 0 = 1 / 2 /\
  (0 <= x -> 1 / 2 <= NoisyCircuits.sigmoid x) /\
  (x <= 0 -> NoisyCircuits.sigmoid x <= 1 / 2).
Proof.
  pose proof (sigmoid_range x) as Hr.
  split; [lra|].
  split.
  { rewrite sigmoid_opp, Rminus_diag, Rabs_R0. lra. }
  split; [apply sigmoid_0|].
  apply sigmoid_side.
Qed.

(** X4. For every real x, [damping_circuit(x)] returns
    1/2 + (1 - 2 sigmoid(x))^2 / 2 to within 1e-9, a value between 1/2
    and 1 to within 1e-9; at x = 0 it returns 1/2 to within 1e-9. *)
Theorem damping_circuit_value (x : R) :
  exists e e0,
    NoisyCircuits.damping_circuit x = Ok e /\
    Rabs (e - (1 / 2 + (1 - 2 * NoisyCircuits.sigmoid x) ^ 2 / 2))
      <= 1 / 10 ^ 9 /\
    1 / 2 - 1 / 10 ^ 9 <= e <= 1 + 1 / 10 ^ 9 /\
    NoisyCircuits.damping_circuit 0 = Ok e0 /\
    Rabs (e0 - 1 / 2) <= 1 / 10 ^ 9.
Proof.
  pose proof (sigmoid_range x) as Hs.
  exists (1 / 2 + (1 - 2 * NoisyCircuits.sigmoid x) ^ 2 / 2), (1 / 2).
  split; [apply damping_value|].
  split; [rewrite Rminus_diag, Rabs_R0; lra|].
  split.
  - set (g := NoisyCircuits.sigmoid x) in *.
    assert (H0 : 0 <= (1 - 2 * g) ^ 2) by apply pow2_ge_0.
    assert (H1 : 0 < g * (1 - g)) by (apply Rmult_lt_0_compat; lra).
    replace ((1 - 2 * g) ^ 2) with (1 - 4 * (g * (1 - g))) in * by ring.
    lra.
  - split.
    + rewrite damping_value, sigmoid_0. f_equal. field.
    + rewrite Rminus_diag, Rabs_R0. lra.
Qed.

(** X5. [damping_circuit] and [cost] do not tell x from -x, that is, the
    damping probability sigmoid(x) from 1 - sigmoid(x): for the observed
    value 0.7781 their values at x and at -x agree to 1e-9.  At the
    starting point x = 0 of the notebook's loop the cost is the 0.07733961
    printed at step 0, to 1e-9. *)
Theorem damping_cost_even (x : R) :
  exists e1 e2 c1 c2 c0,
    NoisyCircuits.damping_circuit x = Ok e1 /\
    NoisyCircuits.damping_circuit (- x) = Ok e2 /\
    Rabs (e1 - e2) <= 1 / 10 ^ 9 /\
    NoisyCircuits.cost x NoisyCircuits.ev = Ok c1 /\
    NoisyCircuits.cost (- x) NoisyCircuits.ev = Ok c2 /\
    Rabs (c1 - c2) <= 1 / 10 ^ 9 /\
    NoisyCircuits.cost 0 NoisyCircuits.ev = Ok c0 /\
    Rabs (c0 - 7733961 / 100000000) <= 1 / 10 ^ 9.
Proof.
  set (e := 1 / 2 + (1 - 2 * NoisyCircuits.sigmoid x) ^ 2 / 2).
  assert (He : 1 / 2 + (1 - 2 * NoisyCircuits.sigmoid (- x)) ^ 2 / 2 = e).
  { unfold e. rewrite sigmoid_opp. field. }
  exists e, e, ((e - NoisyCircuits.ev) ^ 2), ((e - NoisyCircuits.ev) ^ 2),
         (7733961 / 100000000).
  split; [apply damping_value|].
  split; [rewrite damping_value, He; reflexivity|].
  split; [rewrite Rminus_diag, Rabs_R0; lra|].
  split; [apply damping_cost_value|].
  split; [rewrite damping_cost_value, He; reflexivity|].
  split; [rewrite Rminus_diag, Rabs_R0; lra|].
  split.
  - rewrite damping_cost_value, sigmoid_0. unfold NoisyCircuits.ev.
    f_equal. field.
  - rewrite Rminus_diag, Rabs_R0. lra.
Qed.

(** X6. The last lines the loop prints agree with each other: whenever
    sigmoid(x) is the printed noise parameter 0.1271 to four decimals,
    [damping_circuit(x)] is within 1e-4 of the observed 0.7781 and the
    cost is below 1e-8. *)
Theorem damping_reproduces_observation (x : R) :
  Rabs (NoisyCircuits.sigmoid x - 1271 / 10000) <= 5 / 100000 ->
  exists e c,
    NoisyCircuits.damping_circuit x = Ok e /\
    Rabs (e - NoisyCircuits.ev) < 1 / 10000 /\
    NoisyCircuits.cost x NoisyCircuits.ev = Ok c /\
    0 <= c < 1 / 100000000.
Proof.
  intros Hs. apply Rabs_le_bounds in Hs.
  set (g := NoisyCircuits.sigmoid x) in *.
  exists (1 / 2 + (1 - 2 * g) ^ 2 / 2),
         ((1 / 2 + (1 - 2 * g) ^ 2 / 2 - NoisyCircuits.ev) ^ 2).
  assert (He : -1 / 10000 < 1 / 2 + (1 - 2 * g) ^ 2 / 2 - NoisyCircuits.ev
               < 1 / 10000) by (unfold NoisyCircuits.ev; nra).
  split; [apply damping_value|].
  split; [apply Rabs_def1; lra|].
  split; [apply damping_cost_value|].
  set (d := 1 / 2 + (1 - 2 * g) ^ 2 / 2 - NoisyCircuits.ev) in *.
  nra.
Qed.

Lemma damping_reproduces_observation_witness :
  Rabs (NoisyCircuits.sigmoid (- ln (8729 / 1271)) - 1271 / 10000)
  <= 5 / 100000 /\
  exists e c,
    NoisyCircuits.damping_circuit (- ln (8729 / 1271)) = Ok e /\
    Rabs (e - NoisyCircuits.ev) < 1 / 10000 /\
    NoisyCircuits.cost (- ln (8729 / 1271)) NoisyCircuits.ev = Ok c /\
    0 <= c < 1 / 100000000.
Proof.
  assert (H : Rabs (NoisyCircuits.sigmoid (- ln (8729 / 1271)) - 1271 / 10000)
              <= 5 / 100000).
  { unfold NoisyCircuits.sigmoid.
    rewrite Ropp_involutive, exp_ln by lra.
    replace (1 / (1 + 8729 / 1271) - 1271 / 10000) with 0 by field.
    rewrite Rabs_R0. lra. }
  split; [exact H|].
  apply (damping_reproduces_observation (- ln (8729 / 1271)) H).
Defined.

(* ================================================================== *)
(** * More on the qubit-rotation notebook *)
(* ================================================================== *)

Lemma circuit2_value (phi1 phi2 : R) :
  QubitRotation.circuit2 phi1 phi2 = Ok (cos phi1 * cos phi2).
Proof.
  unfold QubitRotation.circuit2, evaluate.
  rewrite qubit_rotation_state. cbn [bind].
  apply expval_of_real; [reflexivity|].
  sim_compute. rewrite (cos_double phi1), (cos_double phi2).
  struct_eq; ring.
Qed.

Lemma dcircuit2_value (phi1 phi2 : R) :
  QubitRotation.dcircuit2 phi1 phi2
  = Ok (- (sin phi1 * cos phi2), - (cos phi1 * sin phi2)).
Proof.
  unfold QubitRotation.dcircuit2, gradient, shift_param, index.
  cbn [length seq mapM nth set_nth nth_error bind].
  rewrite !circuit2_value. cbn [bind nth_error].
  rewrite !cos_shift_plus, !cos_shift_minus, sin_PI2.
  struct_eq; field.
Qed.

Lemma cos_product (a b : R) :
  cos a * cos b = (cos (a + b) + cos (a - b)) / 2.
Proof. rewrite cos_plus, cos_minus. field. Qed.

Lemma ascend_opp (x : R) : ascend (- x) = - ascend x.
Proof. unfold ascend. rewrite sin_neg. ring. Qed.

(** On [[-PI, PI]] a step moves the angle away from 0 without leaving the
    interval, so its cosine does not grow. *)
Lemma cos_ascend_le (u : R) :
  - PI <= u <= PI -> - PI <= ascend u <= PI /\ cos (ascend u) <= cos u.
Proof.
  assert (Hpos : forall x, 0 <= x <= PI ->
                 0 <= ascend x <= PI /\ cos (ascend x) <= cos x).
  { intros x [H0 Hpi].
    destruct H0 as [H0 | <-].
    - destruct Hpi as [Hpi | ->].
      + pose proof (ascend_range x (conj H0 Hpi)) as Hr.
        split; [lra|]. apply cos_decr_1; lra.
      + unfold ascend. rewrite sin_PI. rewrite Rmult_0_r, Rplus_0_r.
        pose proof PI_RGT_0. split; lra.
    - unfold ascend. rewrite sin_0, Rmult_0_r, Rplus_0_r.
      pose proof PI_RGT_0. split; lra. }
  intros [Hlo Hhi].
  destruct (Rle_or_lt 0 u) as [H0|H0].
  - destruct (Hpos u ltac:(lra)) as [Hr Hc]. split; [lra | exact Hc].
  - destruct (Hpos (- u) ltac:(lra)) as [Hr Hc].
    rewrite ascend_opp, !cos_neg in Hc. rewrite ascend_opp in Hr.
    split; [lra | exact Hc].
Qed.

(** X7. [circuit] reads [params[0]] and [params[1]] only: further entries
    are ignored, and a list with fewer than two entries is an IndexError. *)
Theorem circuit_reads_two_parameters :
  (forall a b rest,
     QubitRotation.circuit (a :: b :: rest) = Ok (cos a * cos b)) /\
  (forall params, (length params < 2)%nat ->
     QubitRotation.circuit params = Err IndexError).
Proof.
  split.
  - intros a b rest. unfold QubitRotation.circuit, index.
    cbn [nth_error bind]. apply circuit2_value.
  - intros [|a [|b rest]] H; [reflexivity | reflexivity |].
    simpl in H. lia.
Qed.

(** X8. [circuit2(phi1, phi2)] is the same function as [circuit], and
    [qml.grad(circuit2, argnum=[0, 1])], computed by the parameter-shift
    rule, is the pair of its exact partial derivatives with respect to
    phi1 and phi2; it has the entries of [dcircuit]. *)
Theorem dcircuit2_is_the_derivative (phi1 phi2 : R) :
  exists (f : R -> R -> R) (g1 g2 : R),
    (forall x y, QubitRotation.circuit2 x y = Ok (f x y)) /\
    (forall x y, QubitRotation.circuit [x; y] = Ok (f x y)) /\
    QubitRotation.dcircuit2 phi1 phi2 = Ok (g1, g2) /\
    QubitRotation.dcircuit [phi1; phi2] = Ok [g1; g2] /\
    derivable_pt_lim (fun x => f x phi2) phi1 g1 /\
    derivable_pt_lim (fun y => f phi1 y) phi2 g2.
Proof.
  exists (fun x y => cos x * cos y),
         (- (sin phi1 * cos phi2)), (- (cos phi1 * sin phi2)).
  split; [apply circuit2_value|].
  split; [apply circuit_value|].
  split; [apply dcircuit2_value|].
  split; [apply dcircuit_value|].
  split.
  - replace (- (sin phi1 * cos phi2))
      with (- sin phi1 * fct_cte (cos phi2) phi1 + cos phi1 * 0)
      by (unfold fct_cte; ring).
    apply (derivable_pt_lim_mult cos (fct_cte (cos phi2))).
    + apply derivable_pt_lim_cos.
    + apply derivable_pt_lim_const.
  - replace (- (cos phi1 * sin phi2))
      with (0 * cos phi2 + fct_cte (cos phi1) phi2 * - sin phi2)
      by (unfold fct_cte; ring).
    apply (derivable_pt_lim_mult (fct_cte (cos phi1)) cos).
    + apply derivable_pt_lim_const.
    + apply derivable_pt_lim_cos.
Qed.

(** X10. From every starting point whose sum and difference of angles are
    at least 0.001 and less than PI in absolute value, a hundred steps of
    the loop bring the cost to within 1e-20 of its minimum -1; the
    notebook's [0.011, 0.012] is one such point. *)
Theorem gradient_descent_converges (a b : R) :
  1 / 1000 <= Rabs (a + b) < PI ->
  1 / 1000 <= Rabs (a - b) < PI ->
  exists params e,
    QubitRotation.optimize 100 [a; b] = Ok params /\
    QubitRotation.cost params = Ok e /\
    0 <= e - (-1) <= 1 / 10 ^ 20.
Proof.
  intros Hu Hv.
  assert (Hsmall : forall x, 1 / 1000 <= Rabs x < PI ->
            0 <= 1 + cos (iter_ascend 100 x) <= 1 / 10 ^ 20).
  { intros x Hx. unfold Rabs in Hx. destruct (Rcase_abs x) as [Hn|Hp].
    - replace x with (- - x) by ring.
      rewrite iter_ascend_opp, cos_neg. apply one_plus_cos_small. exact Hx.
    - apply one_plus_cos_small. exact Hx. }
  pose proof (Hsmall _ Hu) as Hcu. pose proof (Hsmall _ Hv) as Hcv.
  set (u := iter_ascend 100 (a + b)) in *.
  set (v := iter_ascend 100 (a - b)) in *.
  exists [(u + v) / 2; (u - v) / 2], ((cos u + cos v) / 2).
  split; [apply optimize_value|].
  split; [apply cost_of_half_angles|].
  lra.
Qed.

Lemma gradient_descent_converges_witness :
  1 / 1000 <= Rabs (11 / 1000 + 12 / 1000) < PI /\
  1 / 1000 <= Rabs (11 / 1000 - 12 / 1000) < PI /\
  exists params e,
    QubitRotation.optimize 100 [11 / 1000; 12 / 1000] = Ok params /\
    QubitRotation.cost params = Ok e /\
    0 <= e - (-1) <= 1 / 10 ^ 20.
Proof.
  pose proof PI2_3_2 as Hpi.
  assert (H1 : 1 / 1000 <= Rabs (11 / 1000 + 12 / 1000) < PI).
  { rewrite Rabs_pos_eq by lra. lra. }
  assert (H2 : 1 / 1000 <= Rabs (11 / 1000 - 12 / 1000) < PI).
  { rewrite Rabs_left by lra. lra. }
  split; [exact H1|]. split; [exact H2|].
  apply (gradient_descent_converges (11 / 1000) (12 / 1000) H1 H2).
Defined.

(** X11. While the sum and the difference of the two angles lie in
    [-PI, PI], a step of the optimizer never increases the cost and keeps
    them in that range. *)
Theorem optimizer_step_descends (a b : R) :
  - PI <= a + b <= PI ->
  - PI <= a - b <= PI ->
  exists a' b' e e',
    step QubitRotation.cost [a; b] QubitRotation.stepsize = Ok [a'; b'] /\
    QubitRotation.cost [a; b] = Ok e /\
    QubitRotation.cost [a'; b'] = Ok e' /\
    e' <= e /\
    - PI <= a' + b' <= PI /\ - PI <= a' - b' <= PI.
Proof.
  intros Hu Hv.
  destruct (cos_ascend_le _ Hu) as [Hru Hcu].
  destruct (cos_ascend_le _ Hv) as [Hrv Hcv].
  exists (a + 4 / 10 * (sin a * cos b)), (b + 4 / 10 * (cos a * sin b)),
         (cos a * cos b),
         (cos (a + 4 / 10 * (sin a * cos b))
          * cos (b + 4 / 10 * (cos a * sin b))).
  assert (Es : a + 4 / 10 * (sin a * cos b) + (b + 4 / 10 * (cos a * sin b))
               = ascend (a + b))
    by (unfold ascend; rewrite sin_plus; ring).
  assert (Ed : a + 4 / 10 * (sin a * cos b) - (b + 4 / 10 * (cos a * sin b))
               = ascend (a - b))
    by (unfold ascend; rewrite sin_minus; ring).
  split; [apply step_value|].
  split; [apply circuit_value|].
  split; [apply circuit_value|].
  rewrite Es, Ed.
  split; [|split; assumption].
  rewrite !cos_product, Es, Ed. lra.
Qed.

Lemma optimizer_step_descends_witness :
  - PI <= 11 / 1000 + 12 / 1000 <= PI /\
  - PI <= 11 / 1000 - 12 / 1000 <= PI /\
  exists a' b' e e',
    step QubitRotation.cost [11 / 1000; 12 / 1000] QubitRotation.stepsize
    = Ok [a'; b'] /\
    QubitRotation.cost [11 / 1000; 12 / 1000] = Ok e /\
    QubitRotation.cost [a'; b'] = Ok e' /\
    e' <= e /\
    - PI <= a' + b' <= PI /\ - PI <= a' - b' <= PI.
Proof.
  pose proof PI2_3_2 as Hpi.
  assert (H1 : - PI <= 11 / 1000 + 12 / 1000 <= PI) by lra.
  assert (H2 : - PI <= 11 / 1000 - 12 / 1000 <= PI) by lra.
  split; [exact H1|]. split; [exact H2|].
  apply (optimizer_step_descends (11 / 1000) (12 / 1000) H1 H2).
Defined.

(* ================================================================== *)
(** * The loops of the JAX tutorial *)
(* ================================================================== *)

Lemma tune_value (n : nat) (x : R) :
  JaxTutorial.tune n x = Ok (iterate climb n x).
Proof.
  revert x; induction n as [|n IH]; intros x; [reflexivity|].
  cbn [JaxTutorial.tune iterate].
  rewrite grad_circuit_value. cbn [bind]. rewrite IH.
  unfold climb. do 2 f_equal. ring.
Qed.

Lemma climb_range (x : R) : 0 < x < PI -> x < climb x < PI.
Proof.
  intros [H0 Hpi]. unfold climb.
  assert (Hs : 0 < sin x) by (apply sin_gt_0; assumption).
  assert (Hy : sin (PI - x) < PI - x) by (apply sin_lt_x; lra).
  rewrite sin_PI_x in Hy. lra.
Qed.

Lemma iterate_climb_range (n : nat) (x : R) :
  0 < x < PI -> x <= iterate climb n x < PI.
Proof.
  revert x; induction n as [|n IH]; intros x H; simpl; [lra|].
  pose proof (climb_range x H) as Ha.
  specialize (IH (climb x) ltac:(lra)). lra.
Qed.

Lemma climb_growth (x : R) : 0 < x <= 1 -> 11 / 6 * x <= climb x.
Proof.
  intros [H0 H1]. unfold climb.
  pose proof (sin_lower x ltac:(lra)) as Hs.
  assert (x^3 <= x) by nra.
  lra.
Qed.

Lemma iterate_climb_growth (n : nat) (x : R) :
  0 < x < PI ->
  1 <= iterate climb n x \/ (11 / 6) ^ n * x <= iterate climb n x.
Proof.
  revert x; induction n as [|n IH]; intros x H.
  - right; simpl; lra.
  - rewrite iterate_S.
    pose proof (iterate_climb_range n x H) as Hr.
    pose proof (climb_range (iterate climb n x) ltac:(lra)) as Ha.
    destruct (IH x H) as [H1|Hg]; [left; lra|].
    destruct (Rle_or_lt 1 (iterate climb n x)) as [H1|H1]; [left; lra|].
    right.
    pose proof (climb_growth (iterate climb n x) ltac:(lra)) as Hgr.
    change ((11 / 6) ^ S n) with (11 / 6 * (11 / 6) ^ n). nra.
Qed.

Lemma climb_fall (x : R) : PI - climb x = fall (PI - x).
Proof. unfold climb, fall. rewrite sin_PI_x. ring. Qed.

Lemma iterate_climb_fall (n : nat) (x : R) :
  PI - iterate climb n x = iterate fall n (PI - x).
Proof.
  revert x; induction n as [|n IH]; intros x; simpl; [reflexivity|].
  rewrite IH, climb_fall. reflexivity.
Qed.

Lemma fall_slow (y : R) :
  0 <= y <= 11 / 5 -> 0 <= fall y <= y /\ fall y <= 121 / 150 * y.
Proof.
  intros [H0 H1]. unfold fall.
  pose proof (sin_lower y ltac:(lra)) as Hs.
  pose proof (sin_upper y H0) as Hu.
  pose proof PI2_3_2 as Hpi.
  pose proof (sin_ge_0 y H0 ltac:(lra)) as Hp.
  assert (y^3 <= 121 / 25 * y) by nra.
  lra.
Qed.

Lemma fall_fast (y : R) :
  0 <= y <= 1 -> 0 <= fall y <= y /\ fall y <= 1 / 6 * y.
Proof.
  intros [H0 H1]. unfold fall.
  pose proof (sin_lower y ltac:(lra)) as Hs.
  pose proof (sin_upper y H0) as Hu.
  pose proof PI2_3_2 as Hpi.
  pose proof (sin_ge_0 y H0 ltac:(lra)) as Hp.
  assert (y^3 <= y) by nra.
  lra.
Qed.

(** From any angle in [[1/1000, PI)], a hundred updates end within
    [(1/6)^84] of [PI]: 12 steps of growth up to 1, 4 steps that bring the
    distance to [PI] below 1, then 84 steps that divide it by 6. *)
Lemma hundred_climbs (x : R) :
  1 / 1000 <= x < PI ->
  0 < PI - iterate climb 100 x <= (1 / 6) ^ 84.
Proof.
  intros [Hx Hpi].
  assert (Hx0 : 0 < x < PI) by lra.
  pose proof PI_upper as Hpu.
  assert (H12 : 1 <= iterate climb 12 x).
  { destruct (iterate_climb_growth 12 x Hx0) as [H|H]; [exact H|].
    assert ((11 / 6) ^ 12 * (1 / 1000) <= (11 / 6) ^ 12 * x).
    { apply Rmult_le_compat_l; [apply pow_le|]; lra. }
    assert (1 <= (11 / 6) ^ 12 * (1 / 1000)) by lra.
    lra. }
  pose proof (iterate_climb_range 12 x Hx0) as Hr12.
  set (y12 := PI - iterate climb 12 x).
  assert (Hy12 : 0 <= y12 <= 11 / 5) by (unfold y12; lra).
  pose proof (iterate_bound fall (121 / 150) (11 / 5) 4 y12
                ltac:(lra) fall_slow Hy12) as H16.
  set (y16 := iterate fall 4 y12) in *.
  assert (Hy16 : 0 <= y16 <= 1).
  { split; [lra|].
    assert ((121 / 150) ^ 4 * y12 <= (121 / 150) ^ 4 * (11 / 5)).
    { apply Rmult_le_compat_l; [apply pow_le|]; lra. }
    assert ((121 / 150) ^ 4 * (11 / 5) <= 1) by lra.
    lra. }
  pose proof (iterate_bound fall (1 / 6) 1 84 y16
                ltac:(lra) fall_fast Hy16) as H100.
  assert (Heq : PI - iterate climb 100 x = iterate fall 84 y16).
  { unfold y16, y12.
    rewrite iterate_climb_fall.
    change 100%nat with (12 + (4 + 84))%nat.
    rewrite iterate_add, iterate_add.
    rewrite <- iterate_climb_fall. reflexivity. }
  rewrite Heq.
  split.
  - rewrite <- Heq. pose proof (iterate_climb_range 100 x Hx0). lra.
  - assert (0 <= (1 / 6) ^ 84) by (apply pow_le; lra).
    assert ((1 / 6) ^ 84 * y16 <= (1 / 6) ^ 84 * 1).
    { apply Rmult_le_compat_l; lra. }
    lra.
Qed.

(** X12. The gradient-descent loop of the JAX tutorial,
    [param -= grad_circuit(param)] a hundred times, started anywhere in
    [0.001, PI), ends within 1e-9 of PI, where the cost is within 1e-9 of
    -1: the printed [Tuned param: 3.142] and [Tuned cost: -1.000]; the
    notebook starts at 0.123. *)
Theorem tune_reaches_pi (x : R) :
  1 / 1000 <= x < PI ->
  exists param c,
    JaxTutorial.tune 100 x = Ok param /\
    Rabs (param - PI) <= 1 / 10 ^ 9 /\
    JaxTutorial.circuit param = Ok c /\
    Rabs (c - (-1)) <= 1 / 10 ^ 9.
Proof.
  intros Hx. pose proof (hundred_climbs x Hx) as [H0 H1].
  set (z := iterate climb 100 x) in *.
  exists z, (cos z).
  assert (Hq : (1 / 6) ^ 84 <= 1 / 10 ^ 60) by lra.
  split; [apply tune_value|].
  split; [apply Rabs_le; lra|].
  split; [apply jax_circuit_value|].
  replace (cos z) with (- cos (PI - z))
    by (rewrite Rtrigo_facts.cos_pi_minus; ring).
  pose proof (cos_lower (PI - z)) as Hl.
  pose proof (COS_bound (PI - z)) as [_ Hu].
  assert (Hsq : (PI - z) ^ 2 <= (1 / 10 ^ 60) ^ 2).
  { apply pow_incr; lra. }
  assert ((1 / 10 ^ 60) ^ 2 / 2 <= 1 / 10 ^ 60) by lra.
  apply Rabs_le; lra.
Qed.

Lemma tune_reaches_pi_witness :
  1 / 1000 <= 123 / 1000 < PI /\
  exists param c,
    JaxTutorial.tune 100 (123 / 1000) = Ok param /\
    Rabs (param - PI) <= 1 / 10 ^ 9 /\
    JaxTutorial.circuit param = Ok c /\
    Rabs (c - (-1)) <= 1 / 10 ^ 9.
Proof.
  pose proof PI2_3_2 as Hpi.
  assert (H : 1 / 1000 <= 123 / 1000 < PI) by lra.
  split; [exact H|].
  apply (tune_reaches_pi (123 / 1000) H).
Defined.

(** X13. [grad_circuit = jax.grad(circuit)], computed by the
    parameter-shift rule, is the derivative of the output of [circuit] at
    every angle; at PI/2 it is the printed -1.000. *)
Theorem grad_circuit_is_the_derivative (theta : R) :
  (exists (f : R -> R) (g : R),
     (forall x, JaxTutorial.circuit x = Ok (f x)) /\
     JaxTutorial.grad_circuit theta = Ok g /\
     derivable_pt_lim f theta g) /\
  (exists g1, JaxTutorial.grad_circuit (PI / 2) = Ok g1 /\
              Rabs (g1 - (-1)) <= 1 / 10 ^ 9).
Proof.
  split.
  - exists cos, (- sin theta).
    split; [apply jax_circuit_value|].
    split; [apply grad_circuit_value|].
    apply derivable_pt_lim_cos.
  - exists (- sin (PI / 2)).
    split; [apply grad_circuit_value|].
    rewrite sin_PI2. replace (- (1) - -1) with 0 by ring.
    rewrite Rabs_R0. lra.
Qed.

Lemma vcircuit_value (params : list R) :
  JaxTutorial.vcircuit params = Ok (map cos params).
Proof.
  unfold JaxTutorial.vcircuit.
  induction params as [|p params IH]; [reflexivity|].
  cbn [mapM map]. rewrite jax_circuit_value. cbn [bind].
  rewrite IH. reflexivity.
Qed.

(** X14. [vcircuit = jax.vmap(circuit)] returns, for every batch, the
    values of [circuit] on its entries, in order (so as many as the batch
    has) and never fails; on the notebook's batch they are the printed
    0.52336595, 0.99244503 and 0.84136092. *)
Theorem vcircuit_is_circuit_on_each_entry (params : list R) :
  (exists out,
     JaxTutorial.vcircuit params = Ok out /\
     length out = length params /\
     forall i, (i < length params)%nat ->
       JaxTutorial.circuit (nth i params 0) = Ok (nth i out 0)) /\
  (exists v1 v2 v3,
     JaxTutorial.vcircuit JaxTutorial.batch_params = Ok [v1; v2; v3] /\
     Rabs (v1 - 52336595 / 100000000) <= 1 / 100000000 /\
     Rabs (v2 - 99244503 / 100000000) <= 1 / 100000000 /\
     Rabs (v3 - 84136092 / 100000000) <= 1 / 100000000).
Proof.
  split.
  - exists (map cos params).
    split; [apply vcircuit_value|]. split; [apply length_map|].
    intros i Hi. rewrite jax_circuit_value. f_equal.
    rewrite (nth_indep (map cos params) 0 (cos 0))
      by (rewrite length_map; exact Hi).
    symmetry. apply map_nth.
  - exists (cos (102 / 100)), (cos (123 / 1000)), (cos (- (571 / 1000))).
    split; [apply vcircuit_value|].
    pose proof (cos_enclosure (102 / 100) ltac:(lra)) as H1.
    pose proof (cos_enclosure (123 / 1000) ltac:(lra)) as H2.
    pose proof (cos_enclosure (- (571 / 1000)) ltac:(lra)) as H3.
    repeat split; apply Rabs_le; lra.
Qed.

Lemma weighted_sum_bounds (lo hi : R) (ps ws : list R) :
  Forall (fun p => lo <= p <= hi) ps ->
  Forall (fun w => 0 < w) ws ->
  lo * fold_right Rplus 0 (map snd (combine ps ws))
  <= fold_right Rplus 0 (map (fun pw => fst pw * snd pw) (combine ps ws))
  <= hi * fold_right Rplus 0 (map snd (combine ps ws)).
Proof.
  intros Hp. revert ws. induction Hp as [|p ps Hp0 Hp IH]; intros ws Hw.
  - simpl. lra.
  - destruct Hw as [|w ws Hw0 Hw]; [simpl; lra|].
    specialize (IH ws Hw). cbn [combine map fold_right fst snd]. nra.
Qed.

Lemma weights_positive (costs : list R) :
  Forall (fun w => 0 < w) (JaxTutorial.weights costs).
Proof.
  unfold JaxTutorial.weights. apply Forall_map, Forall_forall.
  intros c _. apply exp_pos.
Qed.

Lemma combine_snd_same_length {A B} (l : list A) (r : list B) :
  length l = length r -> map snd (combine l r) = r.
Proof.
  revert r; induction l as [|a l IH]; intros [|b r] H;
    simpl in *; try discriminate; [reflexivity|].
  f_equal. apply IH. lia.
Qed.

(** X15. One update of the mean in the evolutionary-strategies loop is an
    average with the strictly positive weights exp(-cost), so it never
    divides by zero and the new mean lies between the smallest and the
    largest parameter of the batch. *)
Theorem es_mean_within_batch (lo hi : R) (params : list R) :
  params <> [] ->
  Forall (fun p => lo <= p <= hi) params ->
  exists costs m,
    JaxTutorial.vcircuit params = Ok costs /\
    0 < fold_right Rplus 0 (JaxTutorial.weights costs) /\
    JaxTutorial.es_mean params = Ok m /\
    lo <= m <= hi.
Proof.
  intros Hne Hp.
  set (ws := JaxTutorial.weights (map cos params)).
  assert (Hlen : length params = length ws).
  { unfold ws, JaxTutorial.weights. rewrite !length_map. reflexivity. }
  pose proof (weights_positive (map cos params)) as Hw. fold ws in Hw.
  assert (Hpos : 0 < fold_right Rplus 0 ws).
  { destruct params as [|p params]; [contradiction|].
    destruct ws as [|w ws]; [discriminate|].
    inversion Hw as [|? ? Hw0 Hw']; subst.
    assert (0 <= fold_right Rplus 0 ws).
    { clear -Hw'. induction Hw' as [|x l Hx _ IH]; simpl; lra. }
    simpl. lra. }
  pose proof (weighted_sum_bounds lo hi params ws Hp Hw) as Hb.
  rewrite (combine_snd_same_length params ws Hlen) in Hb.
  exists (map cos params), (JaxTutorial.average params ws).
  split; [apply vcircuit_value|]. split; [exact Hpos|].
  split.
  - unfold JaxTutorial.es_mean. rewrite vcircuit_value. reflexivity.
  - unfold JaxTutorial.average.
    set (num := fold_right Rplus 0
                  (map (fun pw => fst pw * snd pw) (combine params ws))) in *.
    set (den := fold_right Rplus 0 ws) in *.
    split.
    + apply (Rmult_le_reg_r den); [exact Hpos|].
      unfold Rdiv. rewrite Rmult_assoc, Rinv_l by lra. lra.
    + apply (Rmult_le_reg_r den); [exact Hpos|].
      unfold Rdiv. rewrite Rmult_assoc, Rinv_l by lra. lra.
Qed.

Lemma es_mean_within_batch_witness :
  JaxTutorial.batch_params <> [] /\
  Forall (fun p => -1 <= p <= 2) JaxTutorial.batch_params /\
  exists costs m,
    JaxTutorial.vcircuit JaxTutorial.batch_params = Ok costs /\
    0 < fold_right Rplus 0 (JaxTutorial.weights costs) /\
    JaxTutorial.es_mean JaxTutorial.batch_params = Ok m /\
    -1 <= m <= 2.
Proof.
  assert (H1 : JaxTutorial.batch_params <> []) by discriminate.
  assert (H2 : Forall (fun p => -1 <= p <= 2) JaxTutorial.batch_params).
  { unfold JaxTutorial.batch_params. repeat constructor; lra. }
  split; [exact H1|]. split; [exact H2|].
  apply (es_mean_within_batch (-1) 2 JaxTutorial.batch_params H1 H2).
Defined.

(* ================================================================== *)
(** * Counting and averaging the samples of a remote job *)
(* ================================================================== *)

Lemma sample_eqb_eq (a b : RemoteJobs.Sample) :
  RemoteJobs.sample_eqb a b = true <-> a = b.
Proof.
  revert b; induction a as [|x a IH]; intros [|y b]; simpl;
    try (split; [discriminate | discriminate]); [tauto|].
  rewrite andb_true_iff, Nat.eqb_eq, IH.
  split; [intros [-> ->]; reflexivity | intros H; injection H; auto].
Qed.

Lemma sample_eqb_refl (a : RemoteJobs.Sample) : RemoteJobs.sample_eqb a a = true.
Proof. apply sample_eqb_eq. reflexivity. Qed.

Lemma sample_eqb_sym (a b : RemoteJobs.Sample) :
  RemoteJobs.sample_eqb a b = RemoteJobs.sample_eqb b a.
Proof.
  destruct (RemoteJobs.sample_eqb a b) eqn:E1, (RemoteJobs.sample_eqb b a) eqn:E2;
    try reflexivity.
  - apply sample_eqb_eq in E1. subst. rewrite sample_eqb_refl in E2. discriminate.
  - apply sample_eqb_eq in E2. subst. rewrite sample_eqb_refl in E1. discriminate.
Qed.

(** The count a dict holds for a key, 0 when the key is absent. *)
Lemma getitem_increment (k q : RemoteJobs.Sample) (d : RemoteJobs.Dict) :
  RemoteJobs.getitem (RemoteJobs.increment k d) q
  = if RemoteJobs.sample_eqb q k
    then Some (S (match RemoteJobs.getitem d k with Some v => v | None => O end))
    else RemoteJobs.getitem d q.
Proof.
  induction d as [|[k' v] d IH]; simpl.
  - destruct (RemoteJobs.sample_eqb q k); reflexivity.
  - destruct (RemoteJobs.sample_eqb k k') eqn:Ek; simpl.
    + apply sample_eqb_eq in Ek. subst k'.
      destruct (RemoteJobs.sample_eqb q k); reflexivity.
    + destruct (RemoteJobs.sample_eqb q k') eqn:Eq.
      * apply sample_eqb_eq in Eq. subst k'.
        rewrite sample_eqb_sym, Ek. reflexivity.
      * exact IH.
Qed.

Lemma getitem_fold (items : list RemoteJobs.Sample) :
  forall (d : RemoteJobs.Dict) (q : RemoteJobs.Sample),
    RemoteJobs.getitem (fold_left (fun d k => RemoteJobs.increment k d) items d) q
    = match RemoteJobs.occurrences q items with
      | O => RemoteJobs.getitem d q
      | S n => Some (match RemoteJobs.getitem d q with Some v => v | None => O end
                     + S n)%nat
      end.
Proof.
  unfold RemoteJobs.occurrences.
  induction items as [|k items IH]; intros d q; [reflexivity|].
  cbn [fold_left filter]. rewrite IH, getitem_increment.
  destruct (RemoteJobs.sample_eqb q k) eqn:E.
  - apply sample_eqb_eq in E. subst k. cbn [length].
    destruct (length (filter (RemoteJobs.sample_eqb q) items));
      f_equal; lia.
  - reflexivity.
Qed.

Lemma counts_Counter (samples : list RemoteJobs.Sample) :
  RemoteJobs.counts samples = RemoteJobs.Counter samples.
Proof.
  unfold RemoteJobs.counts, RemoteJobs.bitstrings. rewrite map_id.
  induction (RemoteJobs.Counter samples) as [|[k v] d IH]; [reflexivity|].
  simpl. f_equal. exact IH.
Qed.

Lemma getitem_counts (samples : list RemoteJobs.Sample) (q : RemoteJobs.Sample) :
  RemoteJobs.getitem (RemoteJobs.counts samples) q
  = match RemoteJobs.occurrences q samples with
    | O => None
    | S n => Some (S n)
    end.
Proof.
  rewrite counts_Counter. unfold RemoteJobs.Counter.
  rewrite getitem_fold. reflexivity.
Qed.

(** X16. [counts[k]] is the number of samples equal to [k] when there is
    one, and a KeyError when there is none: the plain dict built from the
    Counter does not give 0 for a bitstring that was never sampled.  On
    the twenty printed samples the all-zero bitstring has the printed
    count 10. *)
Theorem counts_getitem (samples : list RemoteJobs.Sample)
  (k : RemoteJobs.Sample) :
  (In k samples ->
   RemoteJobs.getitem (RemoteJobs.counts samples) k
   = Some (RemoteJobs.occurrences k samples) /\
   (1 <= RemoteJobs.occurrences k samples)%nat) /\
  (~ In k samples ->
   RemoteJobs.getitem (RemoteJobs.counts samples) k = None) /\
  RemoteJobs.getitem (RemoteJobs.counts RemoteJobs.printed_samples)
    [0; 0; 0; 0; 0; 0; 0; 0]%nat = Some 10%nat.
Proof.
  assert (Hocc : In k samples <-> RemoteJobs.occurrences k samples <> O).
  { unfold RemoteJobs.occurrences. split.
    - intros Hin Hz. apply length_zero_iff_nil in Hz.
      assert (Hf : In k (filter (RemoteJobs.sample_eqb k) samples))
        by (apply filter_In; split; [exact Hin | apply sample_eqb_refl]).
      rewrite Hz in Hf. exact Hf.
    - intros Hn.
      destruct (filter (RemoteJobs.sample_eqb k) samples) as [|x l] eqn:E;
        [contradiction|].
      assert (Hx : In x (filter (RemoteJobs.sample_eqb k) samples))
        by (rewrite E; left; reflexivity).
      apply filter_In in Hx. destruct Hx as [Hx Heq].
      apply sample_eqb_eq in Heq. subst x. exact Hx. }
  split; [|split].
  - intros Hin. apply Hocc in Hin. rewrite getitem_counts.
    destruct (RemoteJobs.occurrences k samples); [contradiction|].
    split; [reflexivity | lia].
  - intros Hnin. rewrite getitem_counts.
    destruct (RemoteJobs.occurrences k samples) eqn:E; [reflexivity|].
    exfalso. apply Hnin, Hocc. discriminate.
  - reflexivity.
Qed.

Lemma values_increment (k : RemoteJobs.Sample) (d : RemoteJobs.Dict) :
  fold_right Nat.add O (map snd (RemoteJobs.increment k d))
  = S (fold_right Nat.add O (map snd d)).
Proof.
  induction d as [|[k' v] d IH]; simpl; [reflexivity|].
  destruct (RemoteJobs.sample_eqb k k'); simpl; [reflexivity|].
  rewrite IH. lia.
Qed.

Lemma keys_increment (k q : RemoteJobs.Sample) (d : RemoteJobs.Dict) :
  In q (map fst (RemoteJobs.increment k d)) <-> q = k \/ In q (map fst d).
Proof.
  induction d as [|[k' v] d IH]; simpl; [intuition|].
  destruct (RemoteJobs.sample_eqb k k') eqn:E; simpl.
  - apply sample_eqb_eq in E. subst k'. intuition.
  - rewrite IH. intuition.
Qed.

Lemma NoDup_increment (k : RemoteJobs.Sample) (d : RemoteJobs.Dict) :
  NoDup (map fst d) -> NoDup (map fst (RemoteJobs.increment k d)).
Proof.
  induction d as [|[k' v] d IH]; simpl; intros Hnd.
  - constructor; [intros []|constructor].
  - inversion Hnd as [|? ? Hnin Hnd']; subst.
    destruct (RemoteJobs.sample_eqb k k') eqn:E; simpl.
    + constructor; assumption.
    + constructor; [|apply IH; exact Hnd'].
      rewrite keys_increment. intros [->|Hin]; [|contradiction].
      rewrite sample_eqb_refl in E. discriminate.
Qed.

Lemma Counter_fold_invariants (items : list RemoteJobs.Sample) :
  forall d : RemoteJobs.Dict,
    NoDup (map fst d) ->
    let d' := fold_left (fun d k => RemoteJobs.increment k d) items d in
    NoDup (map fst d') /\
    fold_right Nat.add O (map snd d')
    = (fold_right Nat.add O (map snd d) + length items)%nat /\
    forall q, In q (map fst d') <-> In q items \/ In q (map fst d).
Proof.
  induction items as [|k items IH]; intros d Hnd; cbn [fold_left].
  - split; [exact Hnd|]. split; [simpl; lia|]. intros q; simpl; intuition.
  - destruct (IH (RemoteJobs.increment k d) (NoDup_increment k d Hnd))
      as [H1 [H2 H3]].
    split; [exact H1|]. split.
    + rewrite H2, values_increment. simpl. lia.
    + intros q. rewrite H3, keys_increment. simpl. intuition.
Qed.

(** X17. The dict [counts] has each sampled bitstring as a key exactly
    once and no other key, and its values add up to the number of
    shots. *)
Theorem counts_partition_the_shots (samples : list RemoteJobs.Sample) :
  NoDup (map fst (RemoteJobs.counts samples)) /\
  (forall k, In k (map fst (RemoteJobs.counts samples)) <-> In k samples) /\
  fold_right Nat.add O (map snd (RemoteJobs.counts samples))
  = length samples.
Proof.
  rewrite counts_Counter. unfold RemoteJobs.Counter.
  destruct (Counter_fold_invariants samples [] (NoDup_nil _))
    as [H1 [H2 H3]].
  split; [exact H1|]. split.
  - intros k. rewrite H3. simpl. intuition.
  - rewrite H2. reflexivity.
Qed.

(** The photons of mode [j] counted through a dict: each key weighs in
    with its count. *)
Lemma weighted_increment (j : nat) (k : RemoteJobs.Sample) (d : RemoteJobs.Dict) :
  fold_right Nat.add O
    (map (fun kv => (snd kv * nth j (fst kv) O)%nat) (RemoteJobs.increment k d))
  = (fold_right Nat.add O
       (map (fun kv => (snd kv * nth j (fst kv) O)%nat) d)
     + nth j k O)%nat.
Proof.
  induction d as [|[k' v] d IH]; simpl; [lia|].
  destruct (RemoteJobs.sample_eqb k k') eqn:E; simpl.
  - apply sample_eqb_eq in E. subst k'. lia.
  - rewrite IH. lia.
Qed.

Lemma weighted_fold (j : nat) (items : list RemoteJobs.Sample) :
  forall d : RemoteJobs.Dict,
    fold_right Nat.add O
      (map (fun kv => (snd kv * nth j (fst kv) O)%nat)
           (fold_left (fun d k => RemoteJobs.increment k d) items d))
    = (fold_right Nat.add O
         (map (fun kv => (snd kv * nth j (fst kv) O)%nat) d)
       + RemoteJobs.column_sum items j)%nat.
Proof.
  unfold RemoteJobs.column_sum.
  induction items as [|k items IH]; intros d; cbn [fold_left map fold_right].
  - lia.
  - rewrite IH, weighted_increment. lia.
Qed.

(** X18. The mean of a mode over the shots, as [np.mean(samples, axis=0)]
    gives it, can be read off the dict [counts]: it is the sum over the
    keys of count times photon number, divided by the number of shots.
    On the twenty printed samples the means are the printed
    [0.25 0.1 0.05 0.05 0. 0.05 0.05 0.]. *)
Theorem mean_from_counts (samples : list RemoteJobs.Sample) (j : nat) :
  (j < length (hd [] samples))%nat ->
  nth j (RemoteJobs.mean_axis0 samples) 0
  = INR (fold_right Nat.add O
           (map (fun kv => (snd kv * nth j (fst kv) O)%nat)
                (RemoteJobs.counts samples)))
    / INR (length samples) /\
  RemoteJobs.mean_axis0 RemoteJobs.printed_samples
  = [25 / 100; 1 / 10; 5 / 100; 5 / 100; 0; 5 / 100; 5 / 100; 0].
Proof.
  intros Hj. split.
  - rewrite counts_Counter. unfold RemoteJobs.Counter.
    rewrite weighted_fold. cbn [map fold_right Nat.add].
    unfold RemoteJobs.mean_axis0.
    rewrite (nth_indep _ 0 ((fun j => INR (RemoteJobs.column_sum samples j)
                                      / INR (length samples)) O))
      by (rewrite length_map, length_seq; exact Hj).
    rewrite (map_nth (fun j => INR (RemoteJobs.column_sum samples j)
                               / INR (length samples))).
    rewrite seq_nth by exact Hj. reflexivity.
  - unfold RemoteJobs.mean_axis0, RemoteJobs.printed_samples.
    cbn [hd length seq map RemoteJobs.column_sum nth fold_right Nat.add].
    rewrite !INR_IZR_INZ. cbn [Z.of_nat Pos.of_succ_nat Pos.succ].
    struct_eq; field.
Qed.

Lemma mean_from_counts_witness :
  (0 < length (hd [] RemoteJobs.printed_samples))%nat /\
  nth 0 (RemoteJobs.mean_axis0 RemoteJobs.printed_samples) 0
  = INR (fold_right Nat.add O
           (map (fun kv => (snd kv * nth 0 (fst kv) O)%nat)
                (RemoteJobs.counts RemoteJobs.printed_samples)))
    / INR (length RemoteJobs.printed_samples).
Proof.
  assert (H : (0 < length (hd [] RemoteJobs.printed_samples))%nat)
    by (simpl; lia).
  split; [exact H|].
  apply (mean_from_counts RemoteJobs.printed_samples 0 H).
Defined.

(** X19. The matrix [U] handed to both interferometers is orthogonal, as an
    interferometer requires, up to the rounding of its printed digits:
    the scalar products of its rows, and of its columns, differ from the
    identity matrix by less than 1e-15. *)
Theorem interferometer_matrix_is_orthogonal (i j : nat) :
  (i < 4)%nat -> (j < 4)%nat ->
  Rabs (RemoteJobs.dot (nth i RemoteJobs.U []) (nth j RemoteJobs.U [])
        - (if (i =? j)%nat then 1 else 0)) < 1 / 10 ^ 15 /\
  Rabs (RemoteJobs.dot (RemoteJobs.column RemoteJobs.U i)
                       (RemoteJobs.column RemoteJobs.U j)
        - (if (i =? j)%nat then 1 else 0)) < 1 / 10 ^ 15.
Proof.
  intros Hi Hj.
  case_lt i; case_lt j;
    cbv [RemoteJobs.dot RemoteJobs.column RemoteJobs.U nth map combine
         fold_right fst snd Nat.eqb];
    split; apply Rabs_def1; lra.
Qed.

Lemma interferometer_matrix_is_orthogonal_witness :
  (0 < 4)%nat /\ (1 < 4)%nat /\
  Rabs (RemoteJobs.dot (nth 0 RemoteJobs.U []) (nth 1 RemoteJobs.U [])
        - (if (0 =? 1)%nat then 1 else 0)) < 1 / 10 ^ 15.
Proof.
  split; [lia|]. split; [lia|].
  apply (interferometer_matrix_is_orthogonal 0 1); lia.
Defined.

(* ================================================================== *)
(** * Photon redirection and the hybrid computation *)
(* ================================================================== *)

Lemma NoDup_map_cons (n : nat) (l : list Occupation) :
  NoDup l -> NoDup (map (cons n) l).
Proof.
  induction 1 as [|x l Hx Hl IH]; simpl; constructor; [|exact IH].
  intros Hin. apply in_map_iff in Hin. destruct Hin as [y [Hy Hin]].
  injection Hy as <-. contradiction.
Qed.

Lemma NoDup_occupations (cutoff modes : nat) :
  NoDup (occupations cutoff modes).
Proof.
  induction modes as [|m IH]; simpl.
  - constructor; [intros []|constructor].
  - pose proof (seq_NoDup cutoff 0) as Hs.
    induction Hs as [|n ns Hn Hns IHs]; simpl; [constructor|].
    apply NoDup_app; [apply NoDup_map_cons; exact IH | exact IHs |].
    intros occ H1 H2.
    apply in_map_iff in H1. destruct H1 as [r [<- _]].
    apply in_flat_map in H2. destruct H2 as [n' [Hn' H2]].
    apply in_map_iff in H2. destruct H2 as [r' [Heq _]].
    injection Heq as -> _. contradiction.
Qed.

Lemma In_occupations (cutoff modes : nat) (occ : Occupation) :
  length occ = modes -> Forall (fun n => (n < cutoff)%nat) occ ->
  In occ (occupations cutoff modes).
Proof.
  revert occ; induction modes as [|m IH]; intros occ Hl Hb.
  - destruct occ; [left; reflexivity | discriminate].
  - destruct occ as [|n occ]; [discriminate|].
    inversion Hb as [|? ? Hn Hb']; subst.
    simpl. apply in_flat_map. exists n. split.
    + apply in_seq. lia.
    + apply in_map. apply IH; [simpl in Hl; lia | exact Hb'].
Qed.

(** A sum whose terms vanish away from one entry of a duplicate-free
    list. *)
Lemma Clist_sum_single {A} (f : A -> C) (l : list A) (a : A) :
  NoDup l -> In a l ->
  (forall x, In x l -> x <> a -> f x = C0) ->
  Clist_sum (map f l) = f a.
Proof.
  induction 1 as [|x l Hx Hl IH]; intros Hin Hz; [destruct Hin|].
  cbn [map]. change (Clist_sum (f x :: map f l))
    with (Cplus (f x) (Clist_sum (map f l))).
  destruct Hin as [->|Hin].
  - rewrite Clist_sum_zero; [ring|].
    intros y Hy. apply Hz; [right; exact Hy|].
    intros ->. contradiction.
  - rewrite IH; [| exact Hin | intros y Hy; apply Hz; right; exact Hy].
    rewrite (Hz x); [ring | left; reflexivity |].
    intros ->. contradiction.
Qed.

Lemma Rlist_sum_zero {A} (f : A -> R) (l : list A) :
  (forall x, In x l -> f x = 0) -> fold_right Rplus 0 (map f l) = 0.
Proof.
  induction l as [|a r IH]; intros H; [reflexivity|].
  cbn [map fold_right].
  rewrite IH by (intros; apply H; right; assumption).
  rewrite (H a) by (left; reflexivity). ring.
Qed.

Lemma Rlist_sum_single {A} (f : A -> R) (l : list A) (a : A) :
  NoDup l -> In a l ->
  (forall x, In x l -> x <> a -> f x = 0) ->
  fold_right Rplus 0 (map f l) = f a.
Proof.
  induction 1 as [|x l Hx Hl IH]; intros Hin Hz; [destruct Hin|].
  cbn [map fold_right].
  destruct Hin as [->|Hin].
  - rewrite Rlist_sum_zero; [ring|].
    intros y Hy. apply Hz; [right; exact Hy|].
    intros ->. contradiction.
  - rewrite IH; [| exact Hin | intros y Hy; apply Hz; right; exact Hy].
    rewrite (Hz x); [ring | left; reflexivity |].
    intros ->. contradiction.
Qed.

(** The state of the photon-redirection circuit: the amplitude of
    [|m, n>] is the matrix element of the beamsplitter from [|1, 0>]. *)
Lemma redirected_amplitude (c : nat) (g : ModeGate) (m n : nat) :
  (2 <= c)%nat ->
  apply_kernel c g [0%nat; 1%nat] (prepare_fock 1 0 vacuum) [m; n]
  = kernel g [m; n] [1%nat; O].
Proof.
  intros Hc. unfold apply_kernel.
  rewrite (Clist_sum_single _ _ [1%nat; O]).
  - unfold prepare_fock, vacuum.
    cbn [length select_modes map nth update_modes set_nth forallb Nat.eqb
         andb].
    ring.
  - apply NoDup_occupations.
  - apply In_occupations; [reflexivity|]. repeat constructor; lia.
  - intros x Hx Hne.
    pose proof (occupations_length _ _ _ Hx) as Hl.
    destruct x as [|k [|l [|? ?]]]; try discriminate.
    unfold prepare_fock, vacuum.
    cbn [length select_modes map nth update_modes set_nth forallb].
    destruct k as [|[|k]]; cbn [Nat.eqb]; try ring.
    destruct l as [|l]; [contradiction Hne; reflexivity|].
    cbn [forallb Nat.eqb andb]. ring.
Qed.

Lemma photon_redirection_sin2 (c : nat) (B : R -> R -> ModeGate)
  (theta phi : R) :
  (2 <= c)%nat -> redirects_photon B ->
  photon_redirection_on (mkEngine 2 c) B [theta; phi] = Ok (sin theta ^ 2).
Proof.
  intros Hc HB. destruct (HB theta phi) as [Har Hk].
  unfold photon_redirection_on, index. cbn [nth_error bind].
  cbn [run_program apply_mode_operation engine_modes cutoff_dim Nat.leb bind].
  unfold bad_wires. rewrite Har. cbn [length Nat.eqb negb orb existsb Nat.leb].
  cbn [bind]. f_equal. unfold mean_photon.
  cbn [engine_modes cutoff_dim].
  rewrite (Rlist_sum_single _ _ [O; 1%nat]).
  - rewrite redirected_amplitude by exact Hc. rewrite Hk.
    cbn [nth INR]. unfold Cnorm2. cbn [fst snd].
    pose proof (sin2_cos2 phi) as Hs. unfold Rsqr in Hs. nra.
  - apply NoDup_occupations.
  - apply In_occupations; [reflexivity|]. repeat constructor; lia.
  - intros x Hx Hne.
    pose proof (occupations_length _ _ _ Hx) as Hl.
    destruct x as [|m [|n [|? ?]]]; try discriminate.
    rewrite redirected_amplitude by exact Hc. rewrite Hk.
    destruct m as [|[|m]], n as [|[|n]]; unfold Cnorm2, C0;
      cbn [nth INR fst snd]; try ring.
    contradiction Hne; reflexivity.
Qed.

Lemma one_photon_beamsplitter_redirects :
  redirects_photon one_photon_beamsplitter.
Proof.
  intros theta phi. split; [reflexivity|].
  intros [|[|m]] [|[|n]]; reflexivity.
Qed.

(** X20. For every beamsplitter that follows the convention of the
    notebook on a single photon, and on every Fock device with a cutoff of
    at least 2, [photon_redirection([theta, phi])] is exactly
    sin(theta)^2; this covers the devices of the notebook (cutoffs 2 and
    10), where [cost(params)] is therefore -sin(theta)^2. *)
Theorem photon_redirection_value (c : nat) (B : R -> R -> ModeGate)
  (theta phi : R) :
  (2 <= c)%nat -> redirects_photon B ->
  photon_redirection_on (mkEngine 2 c) B [theta; phi] = Ok (sin theta ^ 2) /\
  PhotonRedirection.photon_redirection B [theta; phi] = Ok (sin theta ^ 2) /\
  PhotonRedirection.cost B [theta; phi] = Ok (- sin theta ^ 2) /\
  HybridComputation.photon_redirection B [theta; phi] = Ok (sin theta ^ 2).
Proof.
  intros Hc HB.
  split; [apply photon_redirection_sin2; assumption|].
  assert (H2 : PhotonRedirection.photon_redirection B [theta; phi]
               = Ok (sin theta ^ 2)).
  { unfold PhotonRedirection.photon_redirection, PhotonRedirection.dev_fock.
    apply photon_redirection_sin2; [lia | exact HB]. }
  split; [exact H2|]. split.
  - unfold PhotonRedirection.cost. rewrite H2. reflexivity.
  - unfold HybridComputation.photon_redirection, HybridComputation.dev_fock.
    apply photon_redirection_sin2; [lia | exact HB].
Qed.

Lemma photon_redirection_value_witness :
  (2 <= 2)%nat /\ redirects_photon one_photon_beamsplitter /\
  photon_redirection_on (mkEngine 2 2) one_photon_beamsplitter
    [1 / 100; 1 / 100]
  = Ok (sin (1 / 100) ^ 2).
Proof.
  split; [lia|]. split; [exact one_photon_beamsplitter_redirects|].
  apply (photon_redirection_value 2 one_photon_beamsplitter
           (1 / 100) (1 / 100));
    [lia | exact one_photon_beamsplitter_redirects].
Defined.

(** X21. The three facts the notebook derives for the photon-redirection
    circuit, and the reason it gives for not starting at [0, 0]: the
    output lies between 0 and 1, does not depend on phi, has the
    derivative 2 sin(theta) cos(theta) in theta, which is 0 at theta = 0
    where the output is 0, and reaches 1 at theta = PI/2. *)
Theorem photon_redirection_facts (B : R -> R -> ModeGate) :
  redirects_photon B ->
  exists f : R -> R -> R,
    (forall theta phi,
       PhotonRedirection.photon_redirection B [theta; phi]
       = Ok (f theta phi)) /\
    (forall theta phi, 0 <= f theta phi <= 1) /\
    (forall theta phi phi', f theta phi = f theta phi') /\
    (forall theta phi,
       derivable_pt_lim (fun t => f t phi) theta (2 * sin theta * cos theta)) /\
    (forall phi, f 0 phi = 0 /\ derivable_pt_lim (fun t => f t phi) 0 0) /\
    (forall phi, f (PI / 2) phi = 1).
Proof.
  intros HB. exists (fun theta _ => sin theta ^ 2).
  assert (Hd : forall theta,
            derivable_pt_lim (fun t => sin t ^ 2) theta
                             (2 * sin theta * cos theta)).
  { intros theta.
    replace (2 * sin theta * cos theta)
      with (INR 2 * sin theta ^ pred 2 * cos theta) by (simpl; ring).
    apply (derivable_pt_lim_comp sin (fun y => y ^ 2)).
    - apply derivable_pt_lim_sin.
    - apply derivable_pt_lim_pow. }
  split.
  { intros theta phi.
    unfold PhotonRedirection.photon_redirection, PhotonRedirection.dev_fock.
    apply photon_redirection_sin2; [lia | exact HB]. }
  split.
  { intros theta _. pose proof (SIN_bound theta) as Hs.
    pose proof (pow2_ge_0 (sin theta)). split; [assumption | nra]. }
  split; [reflexivity|].
  split; [intros theta _; apply Hd|].
  split.
  - intros _. split; [rewrite sin_0; ring|].
    replace 0 with (2 * sin 0 * cos 0) at 2 by (rewrite sin_0; ring).
    apply Hd.
  - intros _. rewrite sin_PI2. ring.
Qed.

Lemma photon_redirection_facts_witness :
  redirects_photon one_photon_beamsplitter /\
  exists f : R -> R -> R,
    (forall theta phi,
       PhotonRedirection.photon_redirection one_photon_beamsplitter
         [theta; phi]
       = Ok (f theta phi)) /\
    (forall theta phi, 0 <= f theta phi <= 1).
Proof.
  split; [exact one_photon_beamsplitter_redirects|].
  destruct (photon_redirection_facts one_photon_beamsplitter
              one_photon_beamsplitter_redirects) as [f [H1 [H2 _]]].
  exists f. split; [exact H1 | exact H2].
Defined.

Lemma qubit_rotation_value (phi1 phi2 : R) :
  HybridComputation.qubit_rotation phi1 phi2 = Ok (cos phi1 * cos phi2).
Proof. apply circuit2_value. Qed.

(** Lower and upper bounds multiply, for numbers that are not negative. *)
Lemma mult_enclosure (x y lx ux ly uy : R) :
  lx <= x <= ux -> ly <= y <= uy -> 0 <= lx -> 0 <= ly ->
  lx * ly <= x * y <= ux * uy.
Proof.
  intros Hx Hy Hlx Hly. split; apply Rmult_le_compat; lra.
Qed.

(** X22. The cost of the hybrid computation is
    (cos(phi1) cos(phi2) - sin(theta)^2)^2: it is never negative and it is
    0 exactly when the photon-redirection output equals the qubit-rotation
    output.  At the optimized angle the notebook reports, 1.20671364, and
    the default phi1 = 0.5, phi2 = 0.1, the two outputs differ by less
    than 1e-8 and the cost is below 1e-16. *)
Theorem hybrid_cost_value (B : R -> R -> ModeGate) (theta phi phi1 phi2 : R) :
  redirects_photon B ->
  HybridComputation.cost B [theta; phi] phi1 phi2
  = Ok ((cos phi1 * cos phi2 - sin theta ^ 2) ^ 2) /\
  0 <= (cos phi1 * cos phi2 - sin theta ^ 2) ^ 2 /\
  ((cos phi1 * cos phi2 - sin theta ^ 2) ^ 2 = 0
   <-> sin theta ^ 2 = cos phi1 * cos phi2) /\
  exists q p c,
    HybridComputation.qubit_rotation (5 / 10) (1 / 10) = Ok q /\
    HybridComputation.photon_redirection B [120671364 / 100000000; 1 / 100]
    = Ok p /\
    HybridComputation.cost B [120671364 / 100000000; 1 / 100]
      (5 / 10) (1 / 10) = Ok c /\
    Rabs (q - p) < 1 / 10 ^ 8 /\ 0 <= c < 1 / 10 ^ 16.
Proof.
  intros HB.
  assert (Hp : forall t f, HybridComputation.photon_redirection B [t; f]
                           = Ok (sin t ^ 2)).
  { intros t f.
    unfold HybridComputation.photon_redirection, HybridComputation.dev_fock.
    apply photon_redirection_sin2; [lia | exact HB]. }
  assert (Hc : forall t f a b,
            HybridComputation.cost B [t; f] a b
            = Ok ((cos a * cos b - sin t ^ 2) ^ 2)).
  { intros t f a b. unfold HybridComputation.cost.
    rewrite qubit_rotation_value, Hp. cbn [bind].
    unfold HybridComputation.squared_difference.
    f_equal. rewrite RPow_abs. apply Rabs_pos_eq, pow2_ge_0. }
  split; [apply Hc|].
  split; [apply pow2_ge_0|].
  split.
  { split; intros H.
    - assert (cos phi1 * cos phi2 - sin theta ^ 2 = 0) by nra. lra.
    - rewrite H. ring. }
  set (t := 120671364 / 100000000).
  exists (cos (5 / 10) * cos (1 / 10)), (sin t ^ 2),
         ((cos (5 / 10) * cos (1 / 10) - sin t ^ 2) ^ 2).
  split; [apply qubit_rotation_value|].
  split; [apply Hp|]. split; [apply Hc|].
  assert (Hd : Rabs (cos (5 / 10) * cos (1 / 10) - sin t ^ 2) < 1 / 10 ^ 8).
  { pose proof (cos_enclosure (5 / 10) ltac:(lra)) as H1.
    pose proof (cos_enclosure (1 / 10) ltac:(lra)) as H2.
    pose proof (sin_enclosure (t / 2) ltac:(unfold t; lra)) as H3.
    pose proof (cos_enclosure (t / 2) ltac:(unfold t; lra)) as H4.
    assert (Hs : sin t = 2 * (sin (t / 2) * cos (t / 2))).
    { replace t with (2 * (t / 2)) at 1 by field. rewrite sin_2a. ring. }
    pose proof (mult_enclosure _ _ _ _ _ _ H1 H2
                  ltac:(lra) ltac:(lra)) as Hq.
    pose proof (mult_enclosure _ _ _ _ _ _ H3 H4
                  ltac:(unfold t; lra) ltac:(unfold t; lra)) as Hsc.
    set (q := cos (5 / 10) * cos (1 / 10)) in *.
    set (sc := sin (t / 2) * cos (t / 2)) in *.
    match type of Hsc with ?l <= _ <= ?u =>
      set (lo := l) in *; set (hi := u) in * end.
    assert (Hlo : 0 <= lo) by (unfold lo, t; lra).
    pose proof (mult_enclosure _ _ _ _ _ _ Hsc Hsc Hlo Hlo) as Hsq.
    replace (sin t ^ 2) with (4 * (sc * sc)) by (rewrite Hs; ring).
    apply Rabs_def1; unfold lo, hi, t in *; lra. }
  split; [exact Hd|].
  split; [apply pow2_ge_0|].
  apply Rabs_def2 in Hd.
  set (d := cos (5 / 10) * cos (1 / 10) - sin t ^ 2) in *.
  assert (1 / 10 ^ 16 = (1 / 10 ^ 8) * (1 / 10 ^ 8)) by lra.
  nra.
Qed.

Lemma hybrid_cost_value_witness :
  redirects_photon one_photon_beamsplitter /\
  HybridComputation.cost one_photon_beamsplitter [1 / 100; 1 / 100]
    (5 / 10) (1 / 10)
  = Ok ((cos (5 / 10) * cos (1 / 10) - sin (1 / 100) ^ 2) ^ 2).
Proof.
  split; [exact one_photon_beamsplitter_redirects|].
  apply (hybrid_cost_value one_photon_beamsplitter
           (1 / 100) (1 / 100) (5 / 10) (1 / 10)).
  exact one_photon_beamsplitter_redirects.
Defined.


(* ================================================================== *)
(** * The target state and the training loop of state_preparation.ipynb *)
(* ================================================================== *)

Lemma density_entries (a0 a1 a2 : R) :
  StatePreparation.density [a0; a1; a2]
  = [[ ((1 + a2) / 2, 0); (a0 / 2, - (a1 / 2)) ];
     [ (a0 / 2, a1 / 2); ((1 - a2) / 2, 0) ]].
Proof. sim_compute. struct_eq; field. Qed.

Lemma purity_of_density (a0 a1 a2 : R) :
  StatePreparation.purity_of (StatePreparation.density [a0; a1; a2])
  = ((1 + StatePreparation.sum_squares [a0; a1; a2]) / 2, 0).
Proof.
  rewrite density_entries. sim_compute. struct_eq; field.
Qed.

Lemma trace_density (a0 a1 a2 : R) :
  trace 2 (StatePreparation.density [a0; a1; a2]) = C1.
Proof. rewrite density_entries. sim_compute. struct_eq; field. Qed.

(** X23. The target Bloch vector has the purity the notebook asks for:
    for every random vector v that is not zero, the vector
    sqrt(2 purity - 1) v / |v| has squared length 2 purity - 1 = 0.32, and
    the density matrix (1 + a.sigma)/2 it describes has unit trace and
    Tr(rho^2) = purity = 0.66. *)
Theorem bloch_vector_has_the_purity (v0 v1 v2 : R) :
  0 < StatePreparation.sum_squares [v0; v1; v2] ->
  let a := StatePreparation.bloch_v [v0; v1; v2] in
  StatePreparation.sum_squares a = 32 / 100 /\
  trace 2 (StatePreparation.density a) = C1 /\
  StatePreparation.purity_of (StatePreparation.density a)
  = RtoC StatePreparation.purity.
Proof.
  intros Hv a.
  assert (Hr : sqrt (2 * StatePreparation.purity - 1)
               * sqrt (2 * StatePreparation.purity - 1) = 32 / 100).
  { rewrite sqrt_sqrt; unfold StatePreparation.purity; lra. }
  assert (Hn : sqrt (StatePreparation.sum_squares [v0; v1; v2])
               * sqrt (StatePreparation.sum_squares [v0; v1; v2])
               = StatePreparation.sum_squares [v0; v1; v2])
    by (apply sqrt_sqrt; lra).
  assert (Hn0 : 0 < sqrt (StatePreparation.sum_squares [v0; v1; v2]))
    by (apply sqrt_lt_R0; exact Hv).
  assert (Ha : StatePreparation.sum_squares a = 32 / 100).
  { unfold a, StatePreparation.bloch_v. cbn [map].
    set (r := sqrt (2 * StatePreparation.purity - 1)) in *.
    set (n := sqrt (StatePreparation.sum_squares [v0; v1; v2])) in *.
    unfold StatePreparation.sum_squares in *. cbn [map fold_right] in *.
    replace ((r * v0 / n) ^ 2 + ((r * v1 / n) ^ 2 + ((r * v2 / n) ^ 2 + 0)))
      with (r * r * (v0 ^ 2 + (v1 ^ 2 + (v2 ^ 2 + 0))) / (n * n))
      by (field; lra).
    rewrite Hn, Hr. field. lra. }
  split; [exact Ha|].
  unfold a in *. unfold StatePreparation.bloch_v in *. cbn [map] in *.
  split.
  - apply trace_density.
  - rewrite purity_of_density, Ha. unfold RtoC, StatePreparation.purity.
    struct_eq; field.
Qed.

Lemma bloch_vector_has_the_purity_witness :
  0 < StatePreparation.sum_squares [1; 2; 2] /\
  StatePreparation.sum_squares (StatePreparation.bloch_v [1; 2; 2])
  = 32 / 100.
Proof.
  assert (H : 0 < StatePreparation.sum_squares [1; 2; 2]).
  { unfold StatePreparation.sum_squares. cbn [map fold_right]. lra. }
  split; [exact H|].
  apply (bloch_vector_has_the_purity 1 2 2 H).
Defined.

Section TrainingFacts.

Variable Tensor : Type.
Variable cost_fn : Tensor -> R.
Variable OptState : Type.
Variable adam : OptState -> Tensor -> OptState * Tensor.
Variables (params zeros : Tensor) (o : OptState).

Lemma train_S (n : nat) (s : StatePreparation.Loop Tensor OptState) :
  StatePreparation.train Tensor cost_fn OptState adam (S n) s
  = StatePreparation.iteration Tensor cost_fn OptState adam
      (StatePreparation.train Tensor cost_fn OptState adam n s).
Proof.
  revert s; induction n as [|n IH]; intros s; [reflexivity|].
  change (StatePreparation.train Tensor cost_fn OptState adam (S (S n)) s)
    with (StatePreparation.train Tensor cost_fn OptState adam (S n)
            (StatePreparation.iteration Tensor cost_fn OptState adam s)).
  rewrite IH. reflexivity.
Qed.

(** What holds after any number of passes of the loop. *)
Lemma training_invariant (n : nat) :
  let s0 := StatePreparation.start Tensor cost_fn OptState params zeros o in
  let s := StatePreparation.train Tensor cost_fn OptState adam n s0 in
  StatePreparation.zeros_value Tensor (StatePreparation.heap Tensor OptState s)
  = zeros /\
  (StatePreparation.best_params Tensor OptState s
   = StatePreparation.params_object
   <-> StatePreparation.best_cost Tensor OptState s < cost_fn params) /\
  (StatePreparation.best_params Tensor OptState s
   = StatePreparation.zeros_object
   <-> StatePreparation.best_cost Tensor OptState s = cost_fn params) /\
  (forall k, (k < n)%nat ->
     StatePreparation.best_cost Tensor OptState s
     <= cost_fn (StatePreparation.params_after Tensor cost_fn OptState adam
                   k s0)) /\
  (exists k, (k < n \/ k = 0)%nat /\
     StatePreparation.best_cost Tensor OptState s
     = cost_fn (StatePreparation.params_after Tensor cost_fn OptState adam
                  k s0)).
Proof.
  intros s0.
  induction n as [|n IH]; intros s.
  - unfold s, s0. cbn. split; [reflexivity|].
    split; [split; [discriminate | lra]|].
    split; [split; reflexivity|].
    split; [intros k Hk; lia|].
    exists O. split; [right; reflexivity | reflexivity].
  - cbv zeta in IH. destruct IH as [Hz [Hp [Hq [Hle Hex]]]].
    unfold s. rewrite train_S.
    set (t := StatePreparation.train Tensor cost_fn OptState adam n s0) in *.
    assert (Hle0 : StatePreparation.best_cost Tensor OptState t
                   <= cost_fn params).
    { destruct (StatePreparation.best_params Tensor OptState t) eqn:E.
      - left. apply Hp. reflexivity.
      - right. apply Hq. reflexivity. }
    unfold StatePreparation.iteration.
    change (StatePreparation.params_value Tensor
              (StatePreparation.heap Tensor OptState t))
      with (StatePreparation.params_after Tensor cost_fn OptState adam n s0).
    set (loss := cost_fn (StatePreparation.params_after Tensor cost_fn
                            OptState adam n s0)).
    destruct (Rlt_dec loss (StatePreparation.best_cost Tensor OptState t))
      as [Hlt|Hge]; cbn.
    + split; [exact Hz|].
      split; [split; [intros _; lra | reflexivity]|].
      split; [split; [discriminate | intros H; lra]|].
      split.
      * intros k Hk. destruct (Nat.eq_dec k n) as [->|Hne].
        -- fold loss. lra.
        -- specialize (Hle k ltac:(lia)). lra.
      * exists n. split; [left; lia | reflexivity].
    + apply Rnot_lt_le in Hge.
      split; [exact Hz|]. split; [exact Hp|]. split; [exact Hq|].
      split.
      * intros k Hk. destruct (Nat.eq_dec k n) as [->|Hne].
        -- fold loss. lra.
        -- apply Hle. lia.
      * destruct Hex as [k [Hk He]]. exists k. split; [lia | exact He].
Qed.

End TrainingFacts.

(** X24. In the training loop, [best_params = params] stores a reference to
    the parameter tensor that [opt.step()] keeps updating in place: as
    soon as one loss has improved on the initial cost, what
    [circuit(best_params, ...)] reads after the loop is the tensor after
    all the updates, whichever pass had the best loss; otherwise it is the
    array of zeros.  The parameters read this way need not have the cost
    [best_cost]: with cost x^2 and updates x - 1 from x = 1, two passes
    leave [best_cost = 0] and the parameter -1 of cost 1. *)
Theorem best_params_is_an_alias (Tensor : Type) (cost_fn : Tensor -> R)
  (OptState : Type) (adam : OptState -> Tensor -> OptState * Tensor)
  (params zeros : Tensor) (o : OptState) (steps : nat) :
  let s0 := StatePreparation.start Tensor cost_fn OptState params zeros o in
  let s := StatePreparation.train Tensor cost_fn OptState adam steps s0 in
  (StatePreparation.best_cost Tensor OptState s < cost_fn params ->
   StatePreparation.output Tensor OptState s
   = StatePreparation.params_after Tensor cost_fn OptState adam steps s0) /\
  (StatePreparation.best_cost Tensor OptState s = cost_fn params ->
   StatePreparation.output Tensor OptState s = zeros) /\
  StatePreparation.best_cost Tensor OptState s <= cost_fn params /\
  (let t := StatePreparation.train R (fun x => x ^ 2) unit
              (fun u x => (u, x - 1)) 2
              (StatePreparation.start R (fun x => x ^ 2) unit 1 0 tt) in
   StatePreparation.best_cost R unit t = 0 /\
   StatePreparation.output R unit t = -1).
Proof.
  intros s0 s.
  destruct (training_invariant Tensor cost_fn OptState adam params zeros o
              steps) as [Hz [Hp [Hq _]]].
  fold s0 in Hz, Hp, Hq. fold s in Hz, Hp, Hq.
  split; [|split; [|split]].
  - intros H. apply Hp in H. unfold StatePreparation.output.
    rewrite H. reflexivity.
  - intros H. apply Hq in H. unfold StatePreparation.output.
    rewrite H. exact Hz.
  - destruct (StatePreparation.best_params Tensor OptState s) eqn:E.
    + left. apply Hp. reflexivity.
    + right. apply Hq. reflexivity.
  - cbv [StatePreparation.train StatePreparation.start
         StatePreparation.iteration StatePreparation.heap
         StatePreparation.opt StatePreparation.best_cost
         StatePreparation.best_params StatePreparation.params_value
         StatePreparation.zeros_value StatePreparation.output
         StatePreparation.deref fst snd].
    destruct (Rlt_dec (1 ^ 2) (1 ^ 2)) as [H|H]; [exfalso; lra|].
    destruct (Rlt_dec ((1 - 1) ^ 2) (1 ^ 2)) as [H'|H']; [|exfalso; lra].
    split; ring.
Qed.

(** X25. [best_cost] after the loop is the smallest of the costs of the
    parameters before each update (and the initial cost when there is no
    pass): it is attained by one of them and exceeds none; the cost of the
    parameters after the last update is never looked at. *)
Theorem best_cost_is_the_minimum (Tensor : Type) (cost_fn : Tensor -> R)
  (OptState : Type) (adam : OptState -> Tensor -> OptState * Tensor)
  (params zeros : Tensor) (o : OptState) (steps : nat) :
  let s0 := StatePreparation.start Tensor cost_fn OptState params zeros o in
  let s := StatePreparation.train Tensor cost_fn OptState adam steps s0 in
  (forall k, (k < steps)%nat ->
     StatePreparation.best_cost Tensor OptState s
     <= cost_fn (StatePreparation.params_after Tensor cost_fn OptState adam
                   k s0)) /\
  (exists k, (k < steps \/ k = 0)%nat /\
     StatePreparation.best_cost Tensor OptState s
     = cost_fn (StatePreparation.params_after Tensor cost_fn OptState adam
                  k s0)).
Proof.
  intros s0 s.
  destruct (training_invariant Tensor cost_fn OptState adam params zeros o
              steps) as [_ [_ [_ [Hle Hex]]]].
  split; [exact Hle | exact Hex].
Qed.
